(** * Research-Assistant: section-aware chunking and hybrid retrieval

    A shallow embedding of [app/chunker.py] (class [SectionChunker]) and
    [app/retriever.py] (class [HybridRetriever]), and of the ids under
    which [app/rag.py] stores and deletes the chunks of a paper, with
    the properties of the pipelines stated and proved over that
    embedding.

    Conventions of the embedding.
    - A Python [str] is a [string]; every [ascii] stands for one code
      point below U+0100, so [String.length] is Python's [len].
    - A Python [int] is a [Z].  The [overlap_ratio] of the chunker is a
      binary64 number, a [spec_float] of the Standard Library with its
      correctly rounded operations, because the overlap budget
      [int(chunk_size * overlap_ratio)] depends on how the product is
      rounded.  The scores and distances of the retriever are exact
      rationals [Q]: rounding, infinities and NaN are outside the model
      there.
    - A [dict] with a fixed set of keys is a record; a [dict] whose keys
      are looked up with [.get] is a [gmap string value].
    - A [while] loop that the source does not bound runs on an iteration
      budget and reports whether it left the loop ([Done]) or spent the
      budget ([OutOfFuel]), together with the state it reached.
    - An exception is [None] in the [option] monad, and the outcome
      [Raised] of a function that runs such a loop.
    - The regular-expression engine ([re.finditer]), the BM25 scorer, the
      embedding model, the vector store and the cross-encoder are outside
      the repository: they are section variables. *)

From Stdlib Require Import ZArith QArith Qpower Lia Lqa String Ascii List Sorted.
From Stdlib Require Import Floats.SpecFloat.
From Stdlib Require DecimalString DecimalZ.
From stdpp Require Import base option list gmap strings sorting.
Import ListNotations.

Open Scope string_scope.
Open Scope list_scope.
Open Scope Z_scope.

(** ** Python primitives shared by both modules *)

Module Py.

(** [len(s)] of a string, as a Python integer. *)
Definition len (s : string) : Z := Z.of_nat (String.length s).

(** [str.isspace] and the regular-expression class [\s], on the code
    points below U+0100: TAB..CR, FS..US, SPACE, NEL and NBSP. *)
Definition isspace (c : ascii) : bool :=
  let n := nat_of_ascii c in
  ((9 <=? n)%nat && (n <=? 13)%nat) || ((28 <=? n)%nat && (n <=? 32)%nat)
  || (n =? 133)%nat || (n =? 160)%nat.

Fixpoint lstrip (s : string) : string :=
  match s with
  | String c s' => if isspace c then lstrip s' else s
  | EmptyString => EmptyString
  end.

(** [rstrip] keeps a character when it is not a space or when something
    is kept after it. *)
Fixpoint rstrip (s : string) : string :=
  match s with
  | String c s' =>
      match rstrip s' with
      | EmptyString => if isspace c then EmptyString else String c EmptyString
      | r => String c r
      end
  | EmptyString => EmptyString
  end.

(** [s.strip()] *)
Definition strip (s : string) : string := rstrip (lstrip s).

(** [s[a:b]] for indices [0 <= a] and [0 <= b]. *)
Definition str_slice (s : string) (a b : nat) : string :=
  String.substring a (b - a) s.

(** [s[a:]] *)
Definition str_from (s : string) (a : nat) : string :=
  String.substring a (String.length s - a) s.

(** [l[a:b]] on a list, for indices [0 <= a] and [0 <= b]. *)
Definition slice {A} (l : list A) (a b : nat) : list A := drop a (take b l).

(** [l[:n]] for any integer [n]: a negative [n] counts from the end. *)
Definition take_upto {A} (n : Z) (l : list A) : list A :=
  if 0 <=? n then take (Z.to_nat n) l
  else take (length l - Z.to_nat (- n)) l.

(** A list is true in a condition when it is not empty. *)
Definition truthy {A} (l : list A) : bool :=
  match l with [] => false | _ => true end.

(** *** Floats

    A Python [float] is an IEEE-754 binary64 number: a [spec_float]
    read with a precision of 53 bits and the exponent bound 1024.  A
    finite one is [S754_finite s m e], the number [m * 2^e], negated
    when [s] is [true]. *)
Definition float : Type := spec_float.
Definition prec : Z := 53.
Definition emax : Z := 1024.

(** The conversion of an [int] operand of a float operation: the
    nearest float, ties to even.  [None] is the [OverflowError] of an
    integer beyond the range of a float (rounding never gives a NaN). *)
Definition float_of_int (n : Z) : option float :=
  match binary_normalize prec emax n 0 false with
  | S754_zero s => Some (S754_zero s)
  | S754_finite s m e => Some (S754_finite s m e)
  | S754_infinity _ | S754_nan => None
  end.

(** [n * x] for an [int] [n] and a [float] [x]: [n] is converted, and
    the product is the nearest float, ties to even. *)
Definition int_mul_float (n : Z) (x : float) : option float :=
  match float_of_int n with
  | Some f => Some (SFmul prec emax f x)
  | None => None
  end.

(** [int(x)]: truncation towards zero.  [None] is the [OverflowError]
    of an infinity and the [ValueError] of a NaN. *)
Definition int_of_float (x : float) : option Z :=
  match x with
  | S754_zero _ => Some 0
  | S754_finite s m e => Some (cond_Zopp s (Z.shiftl (Z.pos m) e))
  | S754_infinity _ | S754_nan => None
  end.

(** The number that a finite float stands for. *)
Definition float_value (x : float) : Q :=
  match x with
  | S754_finite s m e => (inject_Z (cond_Zopp s (Z.pos m)) * 2 ^ e)%Q
  | _ => 0%Q
  end.

(** [n / d] for two [int]s that floats hold exactly and [d] not zero:
    the float nearest to the quotient, ties to even. *)
Definition int_truediv (n d : Z) : float :=
  SFdiv prec emax (binary_normalize prec emax n 0 false)
    (binary_normalize prec emax d 0 false).

(** The outcome of a call that runs a loop on an iteration budget: it
    returned ([Done]), it spent the budget inside the loop
    ([OutOfFuel]) or it raised an exception ([Raised]); the last two
    carry what had been built by then. *)
Inductive run (A : Type) : Type :=
| Done (a : A)
| OutOfFuel (reached : A)
| Raised (reached : A).
Arguments Done {A} a.
Arguments OutOfFuel {A} reached.
Arguments Raised {A} reached.

Definition reached {A} (r : run A) : A :=
  match r with Done a => a | OutOfFuel a => a | Raised a => a end.

End Py.

Import Py.

(** ** [app/chunker.py] *)

Module Chunker.

(** [_SECTION_PATTERNS]: the source text of each pattern (all compiled
    with [re.IGNORECASE | re.MULTILINE]) and its canonical section name. *)
Definition _SECTION_PATTERNS : list (string * string) :=
  [ ("^[\s]*(?:abstract)[\s]*$", "Abstract");
    ("^[\s]*(?:[0-9]+[.\s]*|[IVX]+[.\s]+)?introduction[\s]*$", "Introduction");
    ("^[\s]*(?:[0-9]+[.\s]*|[IVX]+[.\s]+)?background[\s]*$", "Background");
    ("^[\s]*(?:[0-9]+[.\s]*|[IVX]+[.\s]+)?related[\s]+work[\s]*$", "Related Work");
    ("^[\s]*(?:[0-9]+[.\s]*|[IVX]+[.\s]+)?(?:methods?|methodology)[\s]*$", "Methods");
    ("^[\s]*(?:[0-9]+[.\s]*|[IVX]+[.\s]+)?results(?:\s+and\s+discussion)?[\s]*$", "Results");
    ("^[\s]*(?:[0-9]+[.\s]*|[IVX]+[.\s]+)?discussion[\s]*$", "Discussion");
    ("^[\s]*(?:[0-9]+[.\s]*|[IVX]+[.\s]+)?conclusions?[\s]*$", "Conclusion");
    ("^[\s]*(?:[0-9]+[.\s]*|[IVX]+[.\s]+)?limitations?[\s]*$", "Limitations");
    ("^[\s]*(?:[0-9]+[.\s]*|[IVX]+[.\s]+)?(?:references|bibliography)[\s]*$", "References") ].

(** *** [_split_sentences]

    [_SENTENCE_BOUNDARY] is a run of white space that follows one of
    [.], [!], [?].  [re.split] cuts the text at every such run; the
    scanner below keeps the piece being read (reversed) and where it is:
    inside a piece, just after a punctuation mark, or inside a boundary. *)

Inductive scan_mode := Plain | AfterMark | InBoundary.

Definition is_mark (c : ascii) : bool :=
  (Ascii.eqb c ".") || (Ascii.eqb c "!") || (Ascii.eqb c "?").

Definition string_of_rev (cs : list ascii) : string :=
  string_of_list_ascii (rev cs).

Fixpoint boundary_split (mode : scan_mode) (piece : list ascii) (s : string)
  : list string :=
  match s with
  | EmptyString => [string_of_rev piece]
  | String c s' =>
      let next := if is_mark c then AfterMark else Plain in
      match mode with
      | Plain => boundary_split next (c :: piece) s'
      | AfterMark =>
          if isspace c then string_of_rev piece :: boundary_split InBoundary [] s'
          else boundary_split next (c :: piece) s'
      | InBoundary =>
          if isspace c then boundary_split InBoundary piece s'
          else boundary_split next (c :: piece) s'
      end
  end.

Definition nonempty (s : string) : bool :=
  match s with EmptyString => false | _ => true end.

Definition _split_sentences (text : string) : list string :=
  let parts := boundary_split Plain [] text in
  map strip (List.filter (fun s => nonempty (strip s)) parts).

(** *** Data *)

(** A chunk dict: keys [text], [section], [source], [chunk_id]. *)
Record Chunk := {
  text : string;
  section : string;
  source : string;
  chunk_id : Z
}.

(** A section dict of [detect_sections]: keys [section] and [text]. *)
Record SectionDict := {
  sec_name : string;
  sec_text : string
}.

(** The chunker object: [self.chunk_size] and [self.overlap_ratio]. *)
Record SectionChunker := {
  chunk_size : Z;
  overlap_ratio : float
}.

(** The literal [0.12]: the float nearest to 12/100,
    [0x1.eb851eb851eb8p-4]. *)
Definition float_0_12 : float := S754_finite false 8646911284551352 (-56).

(** [SectionChunker()] with the default arguments of [__init__]. *)
Definition default_chunker : SectionChunker :=
  {| chunk_size := 500; overlap_ratio := float_0_12 |}.

Definition SECTION_CHUNK_SIZES : gmap string Z :=
  list_to_map
    [ ("Abstract", 2000); ("Methods", 1000); ("Methodology", 1000);
      ("Results", 800) ].

Definition DEFAULT_CHUNK_SIZE : Z := 500.

(** *** [detect_sections] *)

Section DetectSections.

(** [pattern.finditer(text)]: the [(m.start(), m.end())] of every match
    of a pattern, in scanning order. *)
Variable finditer : string -> string -> list (nat * nat).

(** The two nested [for] loops that fill [matches]. *)
Definition collect_matches (text : string) : list (nat * nat * string) :=
  flat_map
    (fun '(pattern, section_name) =>
       map (fun '(m_start, m_end) => (m_start, m_end, section_name))
           (finditer pattern text))
    _SECTION_PATTERNS.

(** [matches.sort(key=lambda t: t[0])]: a stable sort on the start. *)
Fixpoint insert_by_start (t : nat * nat * string) (l : list (nat * nat * string))
  : list (nat * nat * string) :=
  match l with
  | [] => [t]
  | u :: l' =>
      if (t.1.1 <=? u.1.1)%nat then t :: l else u :: insert_by_start t l'
  end.

Definition sort_by_start (l : list (nat * nat * string))
  : list (nat * nat * string) :=
  foldr insert_by_start [] l.

(** The [for idx, (start, end, name) in enumerate(matches)] loop: the
    content of a header runs to the start of the next one, or to the end
    of the text; blank contents are dropped. *)
Fixpoint section_bodies (text : string) (matches : list (nat * nat * string))
  : list SectionDict :=
  match matches with
  | [] => []
  | (_, m_end, name) :: rest =>
      let content :=
        match rest with
        | (next_start, _, _) :: _ => str_slice text m_end next_start
        | [] => str_from text m_end
        end in
      let content := strip content in
      (if nonempty content then [{| sec_name := name; sec_text := content |}]
       else [])
      ++ section_bodies text rest
  end.

Definition detect_sections (text : string) : list SectionDict :=
  let matches := collect_matches text in
  match matches with
  | [] => [{| sec_name := "Full Text"; sec_text := text |}]
  | _ :: _ =>
      let matches := sort_by_start matches in
      let pre_text :=
        match matches with
        | (first_start, _, _) :: _ => strip (str_slice text 0 first_start)
        | [] => EmptyString
        end in
      (if nonempty pre_text
       then [{| sec_name := "Preamble"; sec_text := pre_text |}] else [])
      ++ section_bodies text matches
  end.

End DetectSections.

(** *** [chunk_section] *)

(** [" ".join(sentences)] *)
Definition join (sentences : list string) : string :=
  String.concat " " sentences.

(** [sum(len(s) for s in sentences) + max(0, len(sentences) - 1)] *)
Definition joined_len (sentences : list string) : Z :=
  foldr (fun s acc => len s + acc) 0 sentences
  + Z.max 0 (Z.of_nat (length sentences) - 1).

(** The [for s in reversed(current_sentences)] loop of the rewind; [rs]
    is what is left of the reversed list. *)
Fixpoint overlap_walk (overlap_chars : Z) (rs : list string)
    (overlap_sentences : list string) (overlap_len : Z) : list string :=
  match rs with
  | [] => overlap_sentences
  | s :: rs' =>
      if overlap_len + len s + (if truthy overlap_sentences then 1 else 0)
         >? overlap_chars
      then overlap_sentences
      else
        let overlap_sentences := s :: overlap_sentences in
        let overlap_len :=
          overlap_len + len s
          + (if (1 <? length overlap_sentences)%nat then 1 else 0) in
        overlap_walk overlap_chars rs' overlap_sentences overlap_len
  end.

Definition overlap_seed (overlap_chars : Z) (current_sentences : list string)
  : list string :=
  overlap_walk overlap_chars (rev current_sentences) [] 0.

(** The variables of the [while] loop. *)
Record loop_state := {
  st_i : nat;
  st_current_sentences : list string;
  st_current_len : Z;
  st_chunks : list Chunk;
  st_chunk_id : Z
}.

Section ChunkLoop.

Variable sentences : list string.
Variables section_name source : string.
Variables chunk_size overlap_chars : Z.

(** One iteration of [while i < len(sentences)]; [None] when the
    condition is false. *)
Definition loop_body (st : loop_state) : option loop_state :=
  match sentences !! st_i st with
  | None => None
  | Some sentence =>
      let current_sentences := st_current_sentences st in
      let projected :=
        st_current_len st + len sentence
        + (if truthy current_sentences then 1 else 0) in
      if (projected <=? chunk_size) || negb (truthy current_sentences) then
        Some {| st_i := S (st_i st);
                st_current_sentences := current_sentences ++ [sentence];
                st_current_len := projected;
                st_chunks := st_chunks st;
                st_chunk_id := st_chunk_id st |}
      else
        let chunk_text := join current_sentences in
        let chunks :=
          st_chunks st
          ++ [Build_Chunk chunk_text section_name source (st_chunk_id st)] in
        let overlap_sentences := overlap_seed overlap_chars current_sentences in
        Some {| st_i := st_i st;
                st_current_sentences := overlap_sentences;
                st_current_len := joined_len overlap_sentences;
                st_chunks := chunks;
                st_chunk_id := st_chunk_id st + 1 |}
  end.

(** The loop itself raises nothing: it is left or the budget is spent. *)
Fixpoint chunk_loop (fuel : nat) (st : loop_state) : run loop_state :=
  match fuel with
  | O => OutOfFuel st
  | S fuel' =>
      match loop_body st with
      | None => Done st
      | Some st' => chunk_loop fuel' st'
      end
  end.

(** The flush after the loop. *)
Definition flush (st : loop_state) : list Chunk :=
  if truthy (st_current_sentences st) then
    st_chunks st
    ++ [Build_Chunk (join (st_current_sentences st)) section_name source
          (st_chunk_id st)]
  else st_chunks st.

End ChunkLoop.

Definition initial_state (start_id : Z) : loop_state :=
  {| st_i := 0; st_current_sentences := []; st_current_len := 0;
     st_chunks := []; st_chunk_id := start_id |}.

(** [int(chunk_size * self.overlap_ratio)]: the product of the
    converted integer and the ratio, rounded to a float, then
    truncated.  [None] when the conversion or [int] raises. *)
Definition overlap_budget (size : Z) (ratio : float) : option Z :=
  match int_mul_float size ratio with
  | Some product => int_of_float product
  | None => None
  end.

(** [chunk_section]: [OutOfFuel] carries the chunks appended so far;
    the overlap budget is computed, and may raise, before the first
    chunk. *)
Definition chunk_section (self : SectionChunker) (fuel : nat)
    (section_text section_name source : string) (start_id : Z)
    (effective_chunk_size : option Z) : run (list Chunk) :=
  let chunk_size := default (chunk_size self) effective_chunk_size in
  let sentences := _split_sentences section_text in
  if negb (truthy sentences) then Done []
  else
    match overlap_budget chunk_size (overlap_ratio self) with
    | None => Raised []
    | Some overlap_chars =>
        match chunk_loop sentences section_name source chunk_size overlap_chars
                fuel (initial_state start_id) with
        | Done st => Done (flush section_name source st)
        | OutOfFuel st => OutOfFuel (st_chunks st)
        | Raised st => Raised (st_chunks st)
        end
    end.

(** *** [chunk_paper] *)

(** [self.SECTION_CHUNK_SIZES.get(section_name, self.chunk_size)] *)
Definition effective_size (self : SectionChunker) (section_name : string) : Z :=
  default (chunk_size self) (SECTION_CHUNK_SIZES !! section_name).

(** The [for section in sections] loop, with [all_chunks] and
    [running_id]. *)
Fixpoint chunk_sections (self : SectionChunker) (fuel : nat) (source : string)
    (sections : list SectionDict) (all_chunks : list Chunk) (running_id : Z)
  : run (list Chunk) :=
  match sections with
  | [] => Done all_chunks
  | section :: sections' =>
      let section_name := sec_name section in
      let effective_size := effective_size self section_name in
      match chunk_section self fuel (sec_text section) section_name source
              running_id (Some effective_size) with
      | Done new_chunks =>
          chunk_sections self fuel source sections'
            (all_chunks ++ new_chunks)
            (running_id + Z.of_nat (length new_chunks))
      | OutOfFuel new_chunks => OutOfFuel (all_chunks ++ new_chunks)
      | Raised new_chunks => Raised (all_chunks ++ new_chunks)
      end
  end.

Definition chunk_paper (finditer : string -> string -> list (nat * nat))
    (self : SectionChunker) (fuel : nat) (text source : string)
  : run (list Chunk) :=
  let sections := detect_sections finditer text in
  chunk_sections self fuel source sections [] 0.

End Chunker.

(** ** [app/retriever.py] *)

Module Retriever.

(** The values held by the result dicts: strings and floats. *)
Inductive value :=
| VStr (s : string)
| VNum (x : Q).

(** A result dict. *)
Abbreviation dict := (gmap string value).

(** [d.get(key, default)] *)
Definition get (d : dict) (key : string) (dflt : value) : value :=
  default dflt (d !! key).

(** [d[key]] read as a float; [None] stands for [KeyError], or for the
    [TypeError] of a later comparison when the value is not a number. *)
Definition get_num (d : dict) (key : string) : option Q :=
  match d !! key with
  | Some (VNum x) => Some x
  | _ => None
  end.

(** [d[key]] read as a string. *)
Definition get_str (d : dict) (key : string) : option string :=
  match d !! key with
  | Some (VStr s) => Some s
  | _ => None
  end.

(** [s[:n]] on a string. *)
Definition str_prefix (n : nat) (s : string) : string := String.substring 0 n s.

(** [sorted(l, key=key, reverse=True)]: the sort is stable, so elements
    with equal keys keep their order; insertion from the right puts an
    element after the strictly larger ones and before the others. *)
Fixpoint insert_desc {A} (key : A -> Q) (x : A) (l : list A) : list A :=
  match l with
  | [] => [x]
  | y :: l' =>
      if Qle_bool (key y) (key x) then x :: l else y :: insert_desc key x l'
  end.

Definition sorted_desc {A} (key : A -> Q) (l : list A) : list A :=
  foldr (insert_desc key) [] l.

(** [min(l)] and [max(l)] of a non-empty list given as head and tail:
    the first smallest and the first largest element. *)
Definition py_min (x : Q) (l : list Q) : Q :=
  fold_left (fun m y => if Qle_bool m y then m else y) l x.

Definition py_max (x : Q) (l : list Q) : Q :=
  fold_left (fun m y => if Qle_bool y m then m else y) l x.

(** The state of a retriever: [self.bm25_index] is the tokenized corpus
    held by the [BM25Okapi] object, or [None]. *)
Record HybridRetriever := {
  bm25_index : option (list (list string));
  bm25_docs : list string;
  bm25_metadatas : list dict;
  bm25_ids : list string
}.

(** What [collection.get] returns, a missing or [None] entry read as
    the empty list. *)
Record get_result := {
  gr_documents : list string;
  gr_metadatas : list dict;
  gr_ids : list string
}.

(** What [collection.query] returns for the single query: the first
    element of each entry, a missing entry read as the empty list. *)
Record query_result := {
  qr_documents : list string;
  qr_metadatas : list dict;
  qr_distances : list Q;
  qr_ids : list string
}.

Section Pipeline.

(** [text.lower().split()] *)
Variable tokenize : string -> list string.
(** [BM25Okapi(tokenized_corpus).get_scores(tokenized_query)] *)
Variable get_scores : list (list string) -> list string -> list Q.
(** [self.collection.get(include=["documents", "metadatas"])] *)
Variable collection_get : get_result.
(** [self.embedder.encode([query]).tolist()] *)
Variable encode : string -> list Q.
(** [self.collection.query(query_embeddings=..., n_results=..., ...)] *)
Variable collection_query : list Q -> Z -> query_result.
(** [self.cross_encoder.predict(pairs)] *)
Variable predict : list (string * string) -> list Q.

(** [__init__] *)
Definition new_retriever : HybridRetriever :=
  {| bm25_index := None; bm25_docs := []; bm25_metadatas := [];
     bm25_ids := [] |}.

Definition build_bm25_index (self : HybridRetriever) : HybridRetriever :=
  let all_data := collection_get in
  let docs := gr_documents all_data in
  {| bm25_index :=
       if truthy docs then Some (map tokenize docs) else None;
     bm25_docs := docs;
     bm25_metadatas := gr_metadatas all_data;
     bm25_ids := gr_ids all_data |}.

(** *** [bm25_search] *)

(** The body of [for idx in scored_indices]: [None] for the
    [IndexError] of [self.bm25_docs[idx]]. *)
Fixpoint bm25_results (self : HybridRetriever) (scores : list Q)
    (scored_indices : list nat) : option (list dict) :=
  match scored_indices with
  | [] => Some []
  | idx :: rest =>
      let score := default 0%Q (scores !! idx) in
      if Qle_bool score 0 then bm25_results self scores rest
      else
        let metadata := default ∅ (bm25_metadatas self !! idx) in
        match bm25_docs self !! idx with
        | None => None
        | Some doc =>
            let result : dict :=
              <["id" := VStr (default "" (bm25_ids self !! idx))]>
              (<["score" := VNum score]>
              (<["source" := get metadata "source" (VStr "unknown")]>
              (<["text" := VStr doc]> ∅))) in
            match bm25_results self scores rest with
            | Some results => Some (result :: results)
            | None => None
            end
        end
  end.

Definition bm25_search (self : HybridRetriever) (query : string)
    (n_results : Z) : option (list dict) :=
  match bm25_index self with
  | None => Some []
  | Some index =>
      if negb (truthy (bm25_docs self)) then Some []
      else
        let tokenized_query := tokenize query in
        let scores := get_scores index tokenized_query in
        let scored_indices :=
          take_upto n_results
            (sorted_desc (fun i => default 0%Q (scores !! i))
               (seq 0 (length scores))) in
        bm25_results self scores scored_indices
  end.

(** *** [vector_search] *)

(** The body of [for i, doc in enumerate(documents)]: [None] for the
    [ZeroDivisionError] of [1.0 / (1.0 + distances[i])]. *)
Fixpoint vector_results (raw : query_result) (i : nat)
    (documents : list string) : option (list dict) :=
  match documents with
  | [] => Some []
  | doc :: rest =>
      let source :=
        match qr_metadatas raw !! i with
        | Some metadata => get metadata "source" (VStr "unknown")
        | None => VStr "unknown"
        end in
      let score :=
        match qr_distances raw !! i with
        | Some d =>
            if Qeq_bool (1 + d) 0 then None else Some (1 / (1 + d))%Q
        | None => Some 0%Q
        end in
      match score with
      | None => None
      | Some score =>
          let result : dict :=
            <["id" := VStr (default "" (qr_ids raw !! i))]>
            (<["score" := VNum score]>
            (<["source" := source]>
            (<["text" := VStr doc]> ∅))) in
          match vector_results raw (S i) rest with
          | Some results => Some (result :: results)
          | None => None
          end
      end
  end.

Definition vector_search (self : HybridRetriever) (query : string)
    (n_results : Z) : option (list dict) :=
  let query_embedding := encode query in
  let raw := collection_query query_embedding n_results in
  vector_results raw 0 (qr_documents raw).

(** *** [reciprocal_rank_fusion] *)

(** [result.get("id") or result.get("text", "")[:100]]: the id when it
    is a non-empty string, else the first 100 characters of the text.
    The ids of the pipeline are strings: [None] stands for an id that is
    a non-zero number (a key outside the model) and for the [TypeError]
    of slicing a text that is a number. *)
Definition doc_key (result : dict) : option string :=
  let fallback :=
    match result !! "text" with
    | Some (VStr t) => Some (str_prefix 100 t)
    | Some (VNum _) => None
    | None => Some ""
    end in
  match result !! "id" with
  | Some (VStr EmptyString) => fallback
  | Some (VStr id) => Some id
  | Some (VNum x) => if Qeq_bool x 0 then fallback else None
  | None => fallback
  end.

(** [fused_scores[doc_id] = fused_scores.get(doc_id, 0.0) + x] on the
    dict [fused_scores], kept as the list of its items in insertion
    order. *)
Fixpoint add_score (doc_id : string) (x : Q) (fused_scores : list (string * Q))
  : list (string * Q) :=
  match fused_scores with
  | [] => [(doc_id, (0 + x)%Q)]
  | (d, s) :: rest =>
      if String.eqb d doc_id then (d, (s + x)%Q) :: rest
      else (d, s) :: add_score doc_id x rest
  end.

(** The body of the inner loop, for the result at [rank]: [None] for
    the [ZeroDivisionError] of [1.0 / (k + rank)]. *)
Definition fuse_one (k rank : Z) (result : dict)
    (acc : list (string * Q) * gmap string dict)
  : option (list (string * Q) * gmap string dict) :=
  let '(fused_scores, doc_map) := acc in
  match doc_key result with
  | None => None
  | Some doc_id =>
      if k + rank =? 0 then None
      else
        Some (add_score doc_id (1 / inject_Z (k + rank))%Q fused_scores,
              match doc_map !! doc_id with
              | None => <[doc_id := result]> doc_map
              | Some _ => doc_map
              end)
  end.

(** [for rank, result in enumerate(results, start=1)] *)
Fixpoint fuse_list (k rank : Z) (results : list dict)
    (acc : list (string * Q) * gmap string dict)
  : option (list (string * Q) * gmap string dict) :=
  match results with
  | [] => Some acc
  | result :: rest =>
      match fuse_one k rank result acc with
      | None => None
      | Some acc' => fuse_list k (rank + 1) rest acc'
      end
  end.

(** [for results in results_list] *)
Fixpoint fuse_lists (k : Z) (results_list : list (list dict))
    (acc : list (string * Q) * gmap string dict)
  : option (list (string * Q) * gmap string dict) :=
  match results_list with
  | [] => Some acc
  | results :: rest =>
      match fuse_list k 1 results acc with
      | None => None
      | Some acc' => fuse_lists k rest acc'
      end
  end.

(** The [for doc_id in sorted_ids] loop; [None] for a [KeyError] of
    [doc_map[doc_id]]. *)
Fixpoint merge_entries (doc_map : gmap string dict)
    (sorted_items : list (string * Q)) : option (list dict) :=
  match sorted_items with
  | [] => Some []
  | (doc_id, score) :: rest =>
      match doc_map !! doc_id with
      | None => None
      | Some result =>
          let entry := <["score" := VNum score]> result in
          match merge_entries doc_map rest with
          | Some merged => Some (entry :: merged)
          | None => None
          end
      end
  end.

(** The ids are sorted by their fused score; the items are sorted here
    so that each id carries its score along. *)
Definition reciprocal_rank_fusion (results_list : list (list dict)) (k : Z)
  : option (list dict) :=
  match fuse_lists k results_list ([], ∅) with
  | None => None
  | Some (fused_scores, doc_map) =>
      let sorted_items := sorted_desc snd fused_scores in
      merge_entries doc_map sorted_items
  end.

(** *** [rerank] *)

(** [[[query, c["text"]] for c in candidates]]; [None] for the
    [KeyError], or for a text that is not a string, which the
    cross-encoder cannot take. *)
Fixpoint make_pairs (query : string) (candidates : list dict)
  : option (list (string * string)) :=
  match candidates with
  | [] => Some []
  | c :: rest =>
      match get_str c "text", make_pairs query rest with
      | Some t, Some pairs => Some ((query, t) :: pairs)
      | _, _ => None
      end
  end.

(** [candidate["score"] = float(ce_scores[i])] for every candidate;
    [None] for the [IndexError]. *)
Fixpoint set_scores (ce_scores : list Q) (i : nat) (candidates : list dict)
  : option (list dict) :=
  match candidates with
  | [] => Some []
  | candidate :: rest =>
      match ce_scores !! i, set_scores ce_scores (S i) rest with
      | Some s, Some scored => Some (<["score" := VNum s]> candidate :: scored)
      | _, _ => None
      end
  end.

(** The key of the sort: [c["score"]], a float after [set_scores]. *)
Definition score_of (c : dict) : Q := default 0%Q (get_num c "score").

Definition rerank (self : HybridRetriever) (query : string)
    (candidates : list dict) (top_k : Z) : option (list dict) :=
  if negb (truthy candidates) then Some []
  else
    match make_pairs query candidates with
    | None => None
    | Some pairs =>
        let ce_scores := predict pairs in
        match set_scores ce_scores 0 candidates with
        | None => None
        | Some candidates =>
            let reranked := sorted_desc score_of candidates in
            Some (take_upto top_k reranked)
        end
    end.

(** *** [search] *)

(** The fuse-or-fall-back step: the candidates and the method tag. *)
Definition fuse_or_fall_back (bm25_results vector_results : list dict)
  : option (list dict * string) :=
  if truthy bm25_results then
    match reciprocal_rank_fusion [bm25_results; vector_results] 60 with
    | Some fused => Some (fused, "hybrid")
    | None => None
    end
  else Some (vector_results, "vector_only").

(** [[r["score"] for r in reranked]] *)
Fixpoint raw_scores_of (reranked : list dict) : option (list Q) :=
  match reranked with
  | [] => Some []
  | r :: rest =>
      match get_num r "score", raw_scores_of rest with
      | Some s, Some scores => Some (s :: scores)
      | _, _ => None
      end
  end.

(** The min-max scaling of the rerank scores. *)
Definition normalize (raw_scores : list Q) : list Q :=
  match raw_scores with
  | [] => []
  | s0 :: rest =>
      let min_score := py_min s0 rest in
      let max_score := py_max s0 rest in
      let score_range := (max_score - min_score)%Q in
      if negb (Qle_bool score_range 0)
      then map (fun s => ((s - min_score) / score_range)%Q) raw_scores
      else map (fun _ => 1%Q) raw_scores
  end.

(** The [for i, result in enumerate(reranked)] loop that builds the
    output; [None] for the [KeyError] of [result["text"]] or the
    [IndexError] of [normalized[i]]. *)
Fixpoint build_output (retrieval_method : string) (normalized : list Q)
    (i : nat) (reranked : list dict) : option (list dict) :=
  match reranked with
  | [] => Some []
  | result :: rest =>
      match result !! "text", normalized !! i,
            build_output retrieval_method normalized (S i) rest with
      | Some t, Some n, Some output =>
          let entry : dict :=
            <["retrieval_method" := VStr retrieval_method]>
            (<["section" := get result "section" (VStr "")]>
            (<["distance" := VNum (1 - n)%Q]>
            (<["source" := get result "source" (VStr "unknown")]>
            (<["text" := t]> ∅)))) in
          Some (entry :: output)
      | _, _, _ => None
      end
  end.

(** Everything after the rerank. *)
Definition present (reranked : list dict) (retrieval_method : string)
  : option (list dict) :=
  match raw_scores_of reranked with
  | None => None
  | Some raw_scores =>
      build_output retrieval_method (normalize raw_scores) 0 reranked
  end.

Definition search (self : HybridRetriever) (query : string) (n_results : Z)
  : option (list dict) :=
  match bm25_search self query 20, vector_search self query 20 with
  | Some bm25_results, Some vector_results =>
      match fuse_or_fall_back bm25_results vector_results with
      | None => None
      | Some (fused, retrieval_method) =>
          match rerank self query fused n_results with
          | None => None
          | Some reranked => present reranked retrieval_method
          end
      end
  | _, _ => None
  end.

End Pipeline.

End Retriever.

(** ** [app/rag.py]: the ids under which chunks are stored *)

Module Rag.
Import Chunker.

(** [str(n)] of an integer: its decimal digits, after a minus sign
    when it is negative. *)
Definition py_str (n : Z) : string :=
  DecimalString.NilZero.string_of_int (Z.to_int n).

(** [f"{pdf_path.stem}_chunk_{c['chunk_id']}"] *)
Definition chunk_doc_id (stem : string) (c : Chunk) : string :=
  stem +:+ "_chunk_" +:+ py_str (chunk_id c).

(** [ids = [... for c in chunks]] of [index_papers] and
    [index_single_paper]. *)
Definition chunk_doc_ids (stem : string) (chunks : list Chunk) : list string :=
  map (chunk_doc_id stem) chunks.

(** [id_.startswith(prefix)] *)
Definition startswith (id_ prefix : string) : bool := String.prefix prefix id_.

(** [matching_ids] of [delete_paper]: the ids of the collection that
    start with [f"{stem}_chunk_"]. *)
Definition matching_ids (stem : string) (all_ids : list string) : list string :=
  let prefix := stem +:+ "_chunk_" in
  List.filter (fun id_ => startswith id_ prefix) all_ids.

End Rag.

(** ** Properties of the chunker *)

Module ChunkerProps.
Import Chunker.

(** *** Joined length *)

Lemma string_length_app (s t : string) :
  String.length (s +:+ t) = (String.length s + String.length t)%nat.
Proof. induction s as [|c s IH]; simpl; [done | by rewrite IH]. Qed.

Lemma len_nonneg (s : string) : 0 <= len s.
Proof. unfold len. lia. Qed.

Lemma joined_len_nil : joined_len [] = 0.
Proof. reflexivity. Qed.

Lemma joined_len_cons (s : string) (l : list string) :
  joined_len (s :: l) = len s + joined_len l + (if truthy l then 1 else 0).
Proof.
  unfold joined_len. destruct l as [|t l]; simpl length; simpl foldr; simpl truthy; lia.
Qed.

Lemma joined_len_nonneg (l : list string) : 0 <= joined_len l.
Proof.
  induction l as [|s l IH]; [done|].
  rewrite joined_len_cons. pose proof (len_nonneg s). destruct (truthy l); lia.
Qed.

Lemma truthy_app {A} (l k : list A) : truthy (l ++ k) = truthy l || truthy k.
Proof. by destruct l. Qed.

Lemma truthy_false {A} (l : list A) : truthy l = false <-> l = [].
Proof. destruct l; simpl; split; congruence. Qed.

Lemma truthy_true {A} (l : list A) : truthy l = true <-> l <> [].
Proof. destruct l; simpl; split; congruence. Qed.

Lemma joined_len_snoc (l : list string) (s : string) :
  joined_len (l ++ [s]) = joined_len l + len s + (if truthy l then 1 else 0).
Proof.
  induction l as [|t l IH]; simpl app.
  - rewrite joined_len_cons, joined_len_nil. simpl. lia.
  - rewrite !joined_len_cons, IH, truthy_app. simpl.
    destruct (truthy l); simpl; lia.
Qed.

Lemma joined_len_app_ge (l k : list string) : joined_len k <= joined_len (l ++ k).
Proof.
  induction l as [|s l IH]; simpl app; [lia|].
  rewrite joined_len_cons. pose proof (len_nonneg s).
  destruct (truthy (l ++ k)); lia.
Qed.

Lemma joined_len_drop (l : list string) (n : nat) :
  joined_len (drop n l) <= joined_len l.
Proof. rewrite <- (take_drop n l) at 2. apply joined_len_app_ge. Qed.

(** The text of a chunk is as long as the sentences it joins plus one
    separator per join. *)
Lemma len_join (l : list string) : len (join l) = joined_len l.
Proof.
  induction l as [|s l IH]; [done|].
  rewrite joined_len_cons, <- IH. unfold join, len in *.
  destruct l as [|t l]; simpl String.concat; simpl truthy.
  - simpl. lia.
  - rewrite !string_length_app. simpl String.length. lia.
Qed.

(** *** Slices of the sentence list *)

Lemma slice_snoc {A} (l : list A) (a i : nat) (x : A) :
  (a <= i)%nat -> l !! i = Some x -> slice l a (S i) = slice l a i ++ [x].
Proof.
  intros Hai Hx. unfold slice. rewrite (take_S_r _ _ _ Hx).
  apply drop_app_le. rewrite length_take. apply lookup_lt_Some in Hx. lia.
Qed.

Lemma slice_empty {A} (l : list A) (a : nat) : slice l a a = [].
Proof.
  unfold slice. apply drop_ge. rewrite length_take. lia.
Qed.

Lemma slice_drop {A} (l : list A) (a b k : nat) :
  drop k (slice l a b) = slice l (a + k) b.
Proof. unfold slice. by rewrite drop_drop. Qed.

Lemma length_slice {A} (l : list A) (a b : nat) :
  (b <= length l)%nat -> length (slice l a b) = (b - a)%nat.
Proof. intros Hb. unfold slice. rewrite length_drop, length_take. lia. Qed.

(** *** The overlap seed *)

(** [seed] is the overlap seed of [l] for the budget [oc]: the longest
    run of trailing whole sentences of [l] whose joined length stays
    within [oc]. *)
Definition is_seed (oc : Z) (l seed : list string) : Prop :=
  exists m : nat,
    (m <= length l)%nat /\ seed = drop m l
    /\ (seed = [] \/ joined_len seed <= oc)
    /\ (m = 0%nat \/ oc < joined_len (drop (m - 1) l)).

Lemma overlap_walk_spec (oc : Z) (rs acc : list string) :
  acc = [] \/ joined_len acc <= oc ->
  exists k : nat,
    (k <= length rs)%nat
    /\ overlap_walk oc rs acc (joined_len acc) = rev (take k rs) ++ acc
    /\ (rev (take k rs) ++ acc = [] \/ joined_len (rev (take k rs) ++ acc) <= oc)
    /\ (k = length rs \/ oc < joined_len (rev (take (S k) rs) ++ acc)).
Proof.
  revert acc. induction rs as [|s rs IH]; intros acc Hacc.
  - exists 0%nat. simpl. auto.
  - simpl overlap_walk.
    assert (Hlen : joined_len acc + len s + (if truthy acc then 1 else 0)
                   = joined_len (s :: acc)) by (rewrite joined_len_cons; lia).
    rewrite Hlen.
    destruct (Z.gtb_spec (joined_len (s :: acc)) oc) as [Hgt|Hle].
    + exists 0%nat. simpl. repeat split; [lia | auto | right; lia].
    + assert (Hlen' : joined_len acc + len s
                      + (if (1 <? length (s :: acc))%nat then 1 else 0)
                      = joined_len (s :: acc)).
      { rewrite joined_len_cons. destruct acc; simpl; lia. }
      simpl length in Hlen'. rewrite Hlen'.
      destruct (IH (s :: acc)) as (k & Hk & Hw & Hfit & Hmax); [by right|].
      exists (S k). simpl take. simpl rev.
      rewrite <- !app_assoc. simpl app.
      repeat split; [simpl; lia | done | done |].
      destruct Hmax as [->|Hmax]; [by left | right].
      destruct rs as [|t rs]; [simpl in Hk; by replace k with 0%nat in * by lia|].
      simpl take in *. simpl rev in *. by rewrite <- !app_assoc in *.
Qed.

Lemma overlap_seed_spec (oc : Z) (l : list string) :
  is_seed oc l (overlap_seed oc l).
Proof.
  unfold overlap_seed.
  destruct (overlap_walk_spec oc (rev l) []) as (k & Hk & Hw & Hfit & Hmax);
    [by left|].
  change 0 with (joined_len []). rewrite Hw. rewrite length_rev in Hk, Hmax.
  rewrite !app_nil_r in *.
  rewrite firstn_rev, rev_involutive in Hfit |- *.
  rewrite firstn_rev, rev_involutive in Hmax.
  exists (length l - k)%nat. repeat split; [lia | done |].
  destruct Hmax as [->|Hmax]; [left; lia|].
  destruct (decide (k = length l)) as [->|Hne]; [left; lia | right].
  by replace (length l - k - 1)%nat with (length l - S k)%nat by lia.
Qed.

(** A list that fits the overlap budget is its own seed. *)
Lemma overlap_seed_fits (oc : Z) (l : list string) :
  joined_len l <= oc -> overlap_seed oc l = l.
Proof.
  intros Hl. destruct (overlap_seed_spec oc l) as (m & _ & -> & _ & [->|Hmax]).
  - reflexivity.
  - pose proof (joined_len_drop l (m - 1)). lia.
Qed.

(** *** [int(chunk_size * overlap_ratio)] *)

Lemma two_power_pos (e : Z) : (0 < 2 ^ e)%Q.
Proof. apply Qpower_0_lt. reflexivity. Qed.

Lemma two_power_nonneg (e : Z) : 0 <= e -> (2 ^ e == inject_Z (2 ^ e))%Q.
Proof. intros He. by rewrite Zpower_Qpower. Qed.

(** A length of at least 1 is within [int(x)] exactly when it is
    within the float [x] itself. *)
Lemma int_of_float_within (x : float) (k n : Z) :
  int_of_float x = Some k -> 1 <= n ->
  n <= k <-> (inject_Z n <= float_value x)%Q.
Proof.
  destruct x as [s|s| |s m e]; simpl; try done.
  - intros [= <-] Hn. split; [lia|]. intros H.
    change 0%Q with (inject_Z 0) in H. rewrite <- Zle_Qle in H. lia.
  - intros [= <-] Hn. pose proof (two_power_pos e) as Hpos.
    destruct s; simpl.
    + pose proof (Z.shiftl_nonneg (Z.pos m) e) as [_ Hsh].
      specialize (Hsh ltac:(lia)). split; [lia|]. intros H. exfalso.
      assert (Hneg : (inject_Z (- Z.pos m) * 2 ^ e < 0)%Q).
      { rewrite <- (Qmult_0_l (2 ^ e)). apply Qmult_lt_compat_r; [done|].
        reflexivity. }
      assert (H1 : (inject_Z 1 <= inject_Z n)%Q) by (by rewrite <- Zle_Qle).
      change (inject_Z 1) with 1%Q in H1.
      revert H Hneg H1. generalize (inject_Z (- Z.pos m) * 2 ^ e)%Q (inject_Z n).
      intros v w ? ? ?. lra.
    + destruct (Z.le_gt_cases 0 e) as [He|He].
      * rewrite Z.shiftl_mul_pow2 by done. rewrite two_power_nonneg by done.
        rewrite <- inject_Z_mult. by rewrite <- Zle_Qle.
      * rewrite Z.shiftl_div_pow2 by lia.
        assert (Hp : 0 < 2 ^ (- e)) by (apply Z.pow_pos_nonneg; lia).
        assert (Hq : (2 ^ e == / inject_Z (2 ^ (- e)))%Q).
        { rewrite <- (Z.opp_involutive e) at 1. rewrite Qpower_opp.
          by rewrite two_power_nonneg by lia. }
        rewrite Hq.
        assert (Hpq : (0 < inject_Z (2 ^ (- e)))%Q).
        { change 0%Q with (inject_Z 0). by rewrite <- Zlt_Qlt. }
        split.
        -- intros Hle.
           assert (Hmul : n * 2 ^ (- e) <= Z.pos m).
           { pose proof (Z.mul_div_le (Z.pos m) (2 ^ (- e)) Hp). nia. }
           apply Qle_shift_div_l; [done|]. rewrite <- inject_Z_mult.
           by rewrite <- Zle_Qle.
        -- intros Hle. apply Z.div_le_lower_bound; [done|].
           apply (Qmult_le_compat_r _ _ (inject_Z (2 ^ (- e)))) in Hle; [|lra].
           rewrite <- Qmult_assoc, (Qmult_comm (/ _)), Qmult_inv_r, Qmult_1_r
             in Hle by lra.
           rewrite <- inject_Z_mult, <- Zle_Qle in Hle. lia.
Qed.

(** The overlap budget, when there is one, is [int] of the product. *)
Lemma overlap_budget_product (size : Z) (ratio : float) (overlap_chars : Z) :
  overlap_budget size ratio = Some overlap_chars ->
  exists product : float,
    int_mul_float size ratio = Some product
    /\ int_of_float product = Some overlap_chars.
Proof.
  unfold overlap_budget.
  destruct (int_mul_float size ratio) as [product|]; [eauto | done].
Qed.

Lemma float_of_int_finite (n : Z) (f : float) :
  float_of_int n = Some f ->
  (exists s, f = S754_zero s) \/ (exists s m e, f = S754_finite s m e).
Proof.
  unfold float_of_int. destruct (binary_normalize prec emax n 0 false);
    intros [= <-]; eauto.
Qed.

(** [x == 0.0] holds of the two zeros only. *)
Lemma SFeqb_zero (x : float) :
  SFeqb x (S754_zero false) = true <-> exists s, x = S754_zero s.
Proof.
  split.
  - destruct x as [s|s| |s m e]; simpl; try done; [eauto| |];
      unfold SFeqb; simpl; by destruct s.
  - by intros [s ->].
Qed.

(** With a ratio of zero the budget is 0, for every size that a float
    can hold. *)
Lemma overlap_budget_zero (size : Z) (ratio : float) :
  SFeqb ratio (S754_zero false) = true -> float_of_int size <> None ->
  overlap_budget size ratio = Some 0.
Proof.
  intros [s ->]%SFeqb_zero Hsize. unfold overlap_budget, int_mul_float.
  destruct (float_of_int size) as [f|] eqn:Hf; [|done].
  by destruct (float_of_int_finite _ _ Hf) as [[t ->]|(t & m & e & ->)].
Qed.

(** *** The assembly loop *)

Section LoopFacts.

Variable sentences : list string.
Variables section_name source : string.
Variables chunk_size overlap_chars : Z.

Local Abbreviation body := (loop_body sentences section_name source chunk_size overlap_chars).
Local Abbreviation loop := (chunk_loop sentences section_name source chunk_size overlap_chars).

(** The state after the sentence at [st_i] is taken into the chunk. *)
Definition accepted (st : loop_state) (sentence : string) : loop_state :=
  {| st_i := S (st_i st);
     st_current_sentences := st_current_sentences st ++ [sentence];
     st_current_len :=
       st_current_len st + len sentence
       + (if truthy (st_current_sentences st) then 1 else 0);
     st_chunks := st_chunks st;
     st_chunk_id := st_chunk_id st |}.

(** The state after the current chunk is emitted and rewound. *)
Definition emitted (st : loop_state) : loop_state :=
  {| st_i := st_i st;
     st_current_sentences := overlap_seed overlap_chars (st_current_sentences st);
     st_current_len :=
       joined_len (overlap_seed overlap_chars (st_current_sentences st));
     st_chunks :=
       st_chunks st
       ++ [Build_Chunk (join (st_current_sentences st)) section_name source
             (st_chunk_id st)];
     st_chunk_id := st_chunk_id st + 1 |}.

Lemma loop_body_cases (st st' : loop_state) :
  body st = Some st' ->
  exists sentence,
    sentences !! st_i st = Some sentence
    /\ let projected :=
         st_current_len st + len sentence
         + (if truthy (st_current_sentences st) then 1 else 0) in
       ((projected <= chunk_size \/ st_current_sentences st = [])
        /\ st' = accepted st sentence)
       \/ (chunk_size < projected /\ st_current_sentences st <> []
           /\ st' = emitted st).
Proof.
  unfold loop_body. destruct (sentences !! st_i st) as [sentence|]; [|done].
  intros Hst. exists sentence. split; [done|]. cbv zeta in *.
  destruct (Z.leb_spec
              (st_current_len st + len sentence
               + (if truthy (st_current_sentences st) then 1 else 0))
              chunk_size) as [Hle|Hgt]; simpl in Hst.
  - left. split; [by left | by injection Hst as <-].
  - destruct (truthy (st_current_sentences st)) eqn:Ht; simpl in Hst.
    + right. apply truthy_true in Ht.
      repeat split; [lia | done | by injection Hst as <-].
    + left. split; [right; by apply truthy_false|].
      injection Hst as <-. unfold accepted. by rewrite Ht.
Qed.

Lemma loop_body_emits (st : loop_state) (sentence : string) :
  sentences !! st_i st = Some sentence ->
  st_current_sentences st <> [] ->
  chunk_size < st_current_len st + len sentence + 1 ->
  body st = Some (emitted st).
Proof.
  intros Hs Hcur Hgt. unfold loop_body. rewrite Hs. cbv zeta.
  apply truthy_true in Hcur. rewrite Hcur. simpl negb.
  destruct (Z.leb_spec (st_current_len st + len sentence + 1) chunk_size);
    [lia | done].
Qed.

Lemma chunk_loop_succ (fuel : nat) (st : loop_state) :
  loop (S fuel) st
  = match body st with Some st' => loop fuel st' | None => Done st end.
Proof. reflexivity. Qed.

(** Every property kept by one iteration holds of the state the loop
    reaches, whether it leaves the loop or not. *)
Lemma chunk_loop_invariant (P : loop_state -> Prop) :
  (forall st st', P st -> body st = Some st' -> P st') ->
  forall fuel st, P st -> P (reached (loop fuel st)).
Proof.
  intros Hstep fuel. induction fuel as [|fuel IH]; intros st HP; simpl; [done|].
  destruct (body st) as [st'|] eqn:E; [apply IH; eauto | done].
Qed.

Lemma chunk_loop_done (fuel : nat) (st st' : loop_state) :
  loop fuel st = Done st' -> body st' = None.
Proof.
  revert st. induction fuel as [|fuel IH]; intros st; simpl; [done|].
  destruct (body st) as [st1|] eqn:E; [apply IH | congruence].
Qed.

Lemma chunk_loop_not_raised (fuel : nat) (st st' : loop_state) :
  loop fuel st <> Raised st'.
Proof.
  revert st. induction fuel as [|fuel IH]; intros st; simpl; [done|].
  destruct (body st) as [st1|]; [apply IH | done].
Qed.

(** The stall: when the pending chunk is not empty, fits the overlap
    budget and cannot take the next sentence, every iteration emits it
    again and rewinds to the same sentences, without advancing [i]. *)
Lemma chunk_loop_stalls (fuel : nat) (st : loop_state) (sentence : string) :
  sentences !! st_i st = Some sentence ->
  st_current_sentences st <> [] ->
  st_current_len st = joined_len (st_current_sentences st) ->
  joined_len (st_current_sentences st) <= overlap_chars ->
  chunk_size < joined_len (st_current_sentences st) + len sentence + 1 ->
  exists (st' : loop_state) (again : list Chunk),
    loop fuel st = OutOfFuel st'
    /\ st_chunks st' = st_chunks st ++ again
    /\ length again = fuel
    /\ Forall (fun c => text c = join (st_current_sentences st)) again.
Proof.
  revert st. induction fuel as [|fuel IH]; intros st Hs Hcur Hlen Hfit Hgt.
  - exists st, []. rewrite app_nil_r. by repeat split.
  - simpl. rewrite (loop_body_emits st sentence) by (done || lia).
    destruct (IH (emitted st)) as (st' & again & Hrun & Hchunks & Hn & Hall);
      simpl; rewrite ?overlap_seed_fits by done; try done.
    simpl in Hchunks, Hall. rewrite overlap_seed_fits in Hall by done.
    eexists st', (_ :: again). rewrite Hchunks, <- app_assoc. simpl.
    repeat split; [done | by rewrite Hn |].
    by apply Forall_cons.
Qed.

(** **** When the loop does terminate *)

(** The pending chunk is empty or fits the overlap budget. *)
Definition accepting (st : loop_state) : bool :=
  negb (truthy (st_current_sentences st))
  || (joined_len (st_current_sentences st) <=? overlap_chars).

(** A bound on the iterations left: two per remaining sentence, one
    more when the pending chunk may have to be emitted first. *)
Definition steps_left (st : loop_state) : nat :=
  2 * (length sentences - st_i st) + (if accepting st then 0 else 1).

(** If every sentence fits into a chunk after a full overlap seed, the
    loop is left within [steps_left] iterations. *)
Lemma chunk_loop_terminates :
  (forall s, s ∈ sentences -> overlap_chars + 1 + len s <= chunk_size) ->
  forall (fuel : nat) (st : loop_state),
    st_current_len st = joined_len (st_current_sentences st) ->
    (steps_left st < fuel)%nat ->
    exists st', loop fuel st = Done st'.
Proof.
  intros Hfit fuel. induction fuel as [|fuel IH]; intros st Hlen Hsteps; [lia|].
  rewrite chunk_loop_succ. destruct (body st) as [st1|] eqn:Hbody; [|eauto].
  destruct (loop_body_cases _ _ Hbody) as (sentence & Hs & Hcase).
  pose proof (lookup_lt_Some _ _ _ Hs) as Hlt.
  assert (Hin : sentence ∈ sentences) by (by eapply list_elem_of_lookup_2).
  destruct Hcase as [[Hacc ->]|(Hgt & Hne & ->)]; apply IH.
  - simpl. rewrite joined_len_snoc. lia.
  - unfold steps_left in *.
    destruct (accepting (accepted st sentence)), (accepting st); simpl; lia.
  - done.
  - assert (Hnot : accepting st = false).
    { unfold accepting. apply truthy_true in Hne. rewrite Hne in Hgt |- *.
      simpl. apply Z.leb_gt. specialize (Hfit sentence Hin). lia. }
    assert (Hseed : accepting (emitted st) = true).
    { unfold accepting. simpl.
      destruct (overlap_seed_spec overlap_chars (st_current_sentences st))
        as (m & _ & _ & [Hnil|Hle] & _).
      - by rewrite Hnil.
      - apply orb_true_iff. right. by apply Z.leb_le. }
    unfold steps_left in *. rewrite Hseed. rewrite Hnot in Hsteps. simpl. lia.
Qed.

(** **** Size bound *)

(** A chunk is within bounds when its text joins a non-empty run of
    consecutive sentences and is no longer than the budget, or the run
    is a single sentence. *)
Definition within_budget (c : Chunk) : Prop :=
  exists a b : nat,
    (a < b <= length sentences)%nat
    /\ text c = join (slice sentences a b)
    /\ len (text c) = joined_len (slice sentences a b)
    /\ (len (text c) <= chunk_size \/ (b - a)%nat = 1%nat).

Definition size_inv (st : loop_state) : Prop :=
  (st_i st <= length sentences)%nat
  /\ (exists a : nat,
        (a <= st_i st)%nat
        /\ st_current_sentences st = slice sentences a (st_i st))
  /\ st_current_len st = joined_len (st_current_sentences st)
  /\ (joined_len (st_current_sentences st) <= chunk_size
      \/ (length (st_current_sentences st) <= 1)%nat)
  /\ Forall within_budget (st_chunks st).

Lemma size_inv_initial (start_id : Z) : size_inv (initial_state start_id).
Proof.
  unfold size_inv. simpl. split; [lia|]. split.
  - exists 0%nat. split; [lia|]. by rewrite slice_empty.
  - split; [done|]. split; [right; lia | constructor].
Qed.

Lemma pending_within_budget (st : loop_state) (id : Z) :
  size_inv st -> st_current_sentences st <> [] ->
  within_budget
    (Build_Chunk (join (st_current_sentences st)) section_name source id).
Proof.
  intros (Hi & (a & Ha & Hcur) & _ & Hfit & _) Hne.
  assert (Hlen : length (st_current_sentences st) = (st_i st - a)%nat)
    by (rewrite Hcur; by apply length_slice).
  assert (a < st_i st)%nat.
  { destruct (st_current_sentences st); [done | simpl in Hlen; lia]. }
  exists a, (st_i st). simpl. rewrite len_join, <- Hcur.
  repeat split; lia.
Qed.

Lemma size_inv_step (st st' : loop_state) :
  size_inv st -> body st = Some st' -> size_inv st'.
Proof.
  intros Hinv Hbody.
  destruct (loop_body_cases _ _ Hbody) as (sentence & Hs & Hcase).
  pose proof Hinv as (Hi & (a & Ha & Hcur) & Hlen & Hfit & Hchunks).
  pose proof (lookup_lt_Some _ _ _ Hs) as Hlt.
  destruct Hcase as [[Hacc ->]|(Hgt & Hne & ->)]; unfold size_inv; simpl.
  - repeat split.
    + lia.
    + exists a. split; [lia|]. rewrite Hcur. symmetry. by apply slice_snoc.
    + rewrite joined_len_snoc. lia.
    + rewrite joined_len_snoc, length_app. simpl.
      destruct Hacc as [Hle|Hnil]; [left; lia | right].
      rewrite Hnil. simpl. lia.
    + done.
  - destruct (overlap_seed_spec overlap_chars (st_current_sentences st))
      as (m & Hm & Hseed & Hsfit & _).
    repeat split.
    + done.
    + exists (a + m)%nat. rewrite Hseed, Hcur, slice_drop. split; [|done].
      rewrite Hcur, length_slice in Hm by done. lia.
    + rewrite Hseed. destruct Hfit as [Hle|Hone].
      * left. pose proof (joined_len_drop (st_current_sentences st) m). lia.
      * right. rewrite length_drop. lia.
    + apply Forall_app. split; [done|]. apply Forall_singleton.
      by apply pending_within_budget.
Qed.

(** **** Overlap between consecutive chunks *)

Lemma slice_split {A} (l : list A) (a b b2 : nat) (x : A) :
  (a <= b < b2)%nat -> l !! b = Some x ->
  slice l a b2 = slice l a b ++ x :: slice l (S b) b2.
Proof.
  intros Hab Hx. unfold slice.
  rewrite <- (take_drop b (take b2 l)) at 1.
  rewrite take_take, Nat.min_l by lia.
  rewrite drop_app_le by (rewrite length_take; apply lookup_lt_Some in Hx; lia).
  f_equal. apply drop_S. rewrite lookup_take. by case_decide; [|lia].
Qed.

(** Chunk [(a, b)] was closed because the sentence at [b] did not fit. *)
Definition overflowed (a b : nat) : Prop :=
  exists trigger : string,
    sentences !! b = Some trigger
    /\ chunk_size < joined_len (slice sentences a b) + len trigger + 1.

(** The sentences from [a2] to [b] are the overlap seed of chunk [(a, b)]. *)
Definition seed_start (a b a2 : nat) : Prop :=
  (a <= a2 <= b)%nat
  /\ slice sentences a2 b = overlap_seed overlap_chars (slice sentences a b).

Definition linked (sp sp2 : nat * nat) : Prop :=
  seed_start sp.1 sp.2 sp2.1 /\ (sp.2 < sp2.2)%nat /\ overflowed sp.1 sp.2.

Definition chained (spans : list (nat * nat)) : Prop :=
  forall (k : nat) (sp sp2 : nat * nat),
    spans !! k = Some sp -> spans !! S k = Some sp2 -> linked sp sp2.

Definition span_text (sp : nat * nat) : string :=
  join (slice sentences sp.1 sp.2).

Definition overlap_inv (st : loop_state) : Prop :=
  exists (spans : list (nat * nat)) (a' : nat),
    map text (st_chunks st) = map span_text spans
    /\ Forall (fun sp => (sp.1 < sp.2 <= length sentences)%nat) spans
    /\ chained spans
    /\ st_current_len st = joined_len (st_current_sentences st)
    /\ (a' <= st_i st <= length sentences)%nat
    /\ st_current_sentences st = slice sentences a' (st_i st)
    /\ match last spans with
       | None => True
       | Some sp =>
           seed_start sp.1 sp.2 a' /\ (sp.2 <= st_i st)%nat
           /\ overflowed sp.1 sp.2
       end.

(** The loop never leaves a stalled state. *)
Definition stalled (st : loop_state) : Prop :=
  forall fuel : nat, exists st', loop fuel st = OutOfFuel st'.

Lemma stalled_step (st st' : loop_state) :
  stalled st -> body st = Some st' -> stalled st'.
Proof.
  intros Hst Hbody fuel. destruct (Hst (S fuel)) as [st'' Hrun].
  rewrite chunk_loop_succ, Hbody in Hrun. eauto.
Qed.

Lemma seed_start_exists (a b : nat) :
  (a <= b <= length sentences)%nat -> exists a2, seed_start a b a2.
Proof.
  intros Hab.
  destruct (overlap_seed_spec overlap_chars (slice sentences a b))
    as (m & Hm & Hseed & _).
  rewrite length_slice in Hm by lia.
  exists (a + m)%nat. split; [lia|]. by rewrite Hseed, slice_drop.
Qed.

Lemma chained_snoc (spans : list (nat * nat)) (sp : nat * nat) :
  chained spans ->
  (forall l, last spans = Some l -> linked l sp) ->
  chained (spans ++ [sp]).
Proof.
  intros Hchain Hlast k x y Hx Hy.
  pose proof (lookup_lt_Some _ _ _ Hy) as Hlt.
  rewrite length_app in Hlt. simpl in Hlt.
  destruct (decide (S k < length spans)%nat) as [Hin|Hout].
  - rewrite lookup_app_l in Hx, Hy by lia. by apply (Hchain k).
  - assert (Hk : S k = length spans) by lia.
    rewrite lookup_app_l in Hx by lia.
    rewrite lookup_app_r, Hk, Nat.sub_diag in Hy by lia.
    injection Hy as <-. apply Hlast.
    rewrite last_lookup, <- Hk. exact Hx.
Qed.

Lemma overlap_inv_step (st st' : loop_state) :
  overlap_inv st \/ stalled st -> body st = Some st' ->
  overlap_inv st' \/ stalled st'.
Proof.
  intros [Hinv|Hst] Hbody; [|right; by eapply stalled_step].
  destruct Hinv
    as (spans & a' & Htexts & Hspans & Hchain & Hlen & Hrange & Hcur & Hlast).
  destruct (loop_body_cases _ _ Hbody) as (sentence & Hs & Hcase).
  pose proof (lookup_lt_Some _ _ _ Hs) as Hlt.
  destruct Hcase as [[Hacc ->]|(Hgt & Hne & ->)].
  - left. exists spans, a'. simpl.
    split; [done|]. split; [done|]. split; [done|].
    split; [rewrite joined_len_snoc; lia|].
    split; [lia|].
    split; [rewrite Hcur; symmetry; apply slice_snoc; [lia | done]|].
    destruct (last spans) as [sp|]; [|done].
    destruct Hlast as (? & ? & ?). split; [done|]. split; [lia | done].
  - assert (Hcurlen : length (st_current_sentences st) = (st_i st - a')%nat)
      by (rewrite Hcur; apply length_slice; lia).
    assert (Ha' : (a' < st_i st)%nat).
    { destruct (st_current_sentences st); [done | simpl in Hcurlen; lia]. }
    assert (Hover : overflowed a' (st_i st)).
    { exists sentence. split; [done|].
      rewrite <- Hcur, <- Hlen. apply truthy_true in Hne.
      by rewrite Hne in Hgt. }
    assert (Hstall :
              (exists sp, last spans = Some sp /\ sp.2 = st_i st) -> stalled st).
    { intros (sp & Hsp & Hend) fuel. rewrite Hsp in Hlast.
      destruct Hlast as ((_ & Hseed) & _ & _). rewrite Hend in Hseed.
      destruct (overlap_seed_spec overlap_chars (slice sentences sp.1 (st_i st)))
        as (_ & _ & _ & Hfit & _).
      rewrite <- Hseed, <- Hcur in Hfit. destruct Hfit as [?|Hfit]; [done|].
      destruct Hover as (x & Hx & Hxlen). rewrite <- Hcur in Hxlen.
      destruct (chunk_loop_stalls fuel st x)
        as (st'' & _ & Hrun & _); try done. eauto. }
    assert (Hdec : (exists sp, last spans = Some sp /\ sp.2 = st_i st)
                   \/ ~ (exists sp, last spans = Some sp /\ sp.2 = st_i st)).
    { destruct (last spans) as [sp|]; [|right; by intros (? & ? & _)].
      destruct (decide (sp.2 = st_i st)); [left; eauto | right].
      by intros (? & [= <-] & ?). }
    destruct Hdec as [Hrepeat|Hfresh].
    { right. eapply stalled_step; [|exact Hbody]. by apply Hstall. }
    destruct (seed_start_exists a' (st_i st)) as (a2 & Ha2 & Hseed2); [lia|].
    left. exists (spans ++ [(a', st_i st)]), a2. simpl.
    rewrite !map_app, last_snoc, Htexts. simpl.
    split; [unfold span_text; simpl; by rewrite Hcur|].
    split; [apply Forall_app; split; [done|]; apply Forall_singleton; simpl; lia|].
    split.
    { apply chained_snoc; [done|]. intros l Hl. rewrite Hl in Hlast.
      destruct Hlast as (Hseed & Hle & Hov).
      split; [exact Hseed|]. split; [|exact Hov]. simpl.
      destruct (decide (l.2 = st_i st)) as [Heq|Hne']; [|lia].
      exfalso. apply Hfresh. eauto. }
    split; [done|]. split; [lia|]. split; [by rewrite Hcur|].
    split; [by split|]. split; [lia | done].
Qed.

Lemma overlap_inv_initial (start_id : Z) : overlap_inv (initial_state start_id).
Proof.
  exists [], 0%nat. simpl.
  split; [done|]. split; [constructor|].
  split; [intros k sp sp2 Hk; by rewrite lookup_nil in Hk|].
  split; [done|]. split; [lia|]. split; [by rewrite slice_empty | done].
Qed.

(** When the loop is left, the chunks of the flush are chained. *)
Lemma overlap_inv_flush (st : loop_state) :
  overlap_inv st -> body st = None ->
  exists spans : list (nat * nat),
    map text (flush section_name source st) = map span_text spans
    /\ Forall (fun sp => (sp.1 < sp.2 <= length sentences)%nat) spans
    /\ chained spans.
Proof.
  intros (spans & a' & Htexts & Hspans & Hchain & Hlen & Hrange & Hcur & Hlast)
    Hbody.
  assert (Hend : st_i st = length sentences).
  { unfold loop_body in Hbody.
    destruct (sentences !! st_i st) as [x|] eqn:Hx.
    - cbv zeta in Hbody. by destruct (_ || _) in Hbody.
    - apply lookup_ge_None in Hx. lia. }
  unfold flush. destruct (truthy (st_current_sentences st)) eqn:Ht;
    [|by exists spans].
  apply truthy_true in Ht.
  assert (Hcurlen : length (st_current_sentences st) = (st_i st - a')%nat)
    by (rewrite Hcur; apply length_slice; lia).
  assert (Ha' : (a' < st_i st)%nat).
  { destruct (st_current_sentences st); [done | simpl in Hcurlen; lia]. }
  exists (spans ++ [(a', st_i st)]). rewrite !map_app, Htexts. simpl.
  split; [unfold span_text; simpl; by rewrite Hcur|].
  split; [apply Forall_app; split; [done|]; apply Forall_singleton; simpl; lia|].
  apply chained_snoc; [done|]. intros l Hl. rewrite Hl in Hlast.
  destruct Hlast as (Hseed & Hle & Hov).
  split; [exact Hseed|]. split; [|exact Hov]. simpl.
  destruct Hov as (x & Hx & _). apply lookup_lt_Some in Hx. lia.
Qed.

(** **** Chunk identifiers *)

Definition id_range (start : Z) (n : nat) : list Z :=
  map (fun k => start + Z.of_nat k) (seq 0 n).

Lemma id_range_snoc (start : Z) (n : nat) :
  id_range start (S n) = id_range start n ++ [start + Z.of_nat n].
Proof. unfold id_range. by rewrite seq_S, map_app. Qed.

Definition ids_inv (start : Z) (st : loop_state) : Prop :=
  map chunk_id (st_chunks st) = id_range start (length (st_chunks st))
  /\ st_chunk_id st = start + Z.of_nat (length (st_chunks st)).

Lemma ids_inv_step (start : Z) (st st' : loop_state) :
  ids_inv start st -> body st = Some st' -> ids_inv start st'.
Proof.
  intros [Hids Hnext] Hbody.
  destruct (loop_body_cases _ _ Hbody) as (sentence & _ & Hcase).
  destruct Hcase as [[_ ->]|(_ & _ & ->)]; unfold ids_inv; simpl; [done|].
  rewrite map_app, length_app, Nat.add_1_r, id_range_snoc, Hids, Hnext. simpl.
  split; [done | lia].
Qed.

Lemma ids_inv_flush (start : Z) (st : loop_state) :
  ids_inv start st ->
  map chunk_id (flush section_name source st)
  = id_range start (length (flush section_name source st)).
Proof.
  intros [Hids Hnext]. unfold flush.
  destruct (truthy (st_current_sentences st)); [|done].
  by rewrite map_app, length_app, Nat.add_1_r, id_range_snoc, Hids, Hnext.
Qed.

End LoopFacts.

(** *** [chunk_section] and [chunk_paper] as a whole *)

Lemma id_range_app (start : Z) (n m : nat) :
  id_range start (n + m)
  = id_range start n ++ id_range (start + Z.of_nat n) m.
Proof.
  induction m as [|m IH].
  - rewrite Nat.add_0_r. unfold id_range at 3. simpl. by rewrite app_nil_r.
  - rewrite Nat.add_succ_r, !id_range_snoc, IH, <- app_assoc.
    do 3 f_equal. lia.
Qed.

Lemma id_range_0 (n : nat) : id_range 0 n = map Z.of_nat (seq 0 n).
Proof. unfold id_range. apply map_ext. intros k. lia. Qed.

Lemma chunk_section_ids (self : SectionChunker) (fuel : nat)
    (section_text section_name source : string) (start_id : Z)
    (effective_chunk_size : option Z) (out : list Chunk) :
  chunk_section self fuel section_text section_name source start_id
    effective_chunk_size = Done out ->
  map chunk_id out = id_range start_id (length out).
Proof.
  unfold chunk_section.
  destruct (truthy (_split_sentences section_text)); simpl negb; cbv iota zeta;
    [|by intros [= <-]].
  destruct (overlap_budget _ _) as [overlap_chars|]; [|done].
  match goal with
  | |- context [chunk_loop ?ss ?n ?src ?cs ?oc fuel ?st] =>
      pose proof (chunk_loop_invariant ss n src cs oc (ids_inv start_id)
                    (ids_inv_step ss n src cs oc start_id) fuel st) as Hinv;
      destruct (chunk_loop ss n src cs oc fuel st) as [st'|st'|st'];
      [|done|done]
  end.
  intros [= <-]. apply ids_inv_flush. apply Hinv. split; simpl; [done | lia].
Qed.

Lemma chunk_sections_ids (self : SectionChunker) (fuel : nat) (source : string)
    (sections : list SectionDict) (all_chunks : list Chunk) (running_id : Z)
    (out : list Chunk) :
  map chunk_id all_chunks = id_range 0 (length all_chunks) ->
  running_id = Z.of_nat (length all_chunks) ->
  chunk_sections self fuel source sections all_chunks running_id = Done out ->
  map chunk_id out = id_range 0 (length out).
Proof.
  revert all_chunks running_id.
  induction sections as [|sec sections IH]; intros all_chunks running_id Hall Hrun;
    simpl.
  - by intros [= <-].
  - destruct (chunk_section self fuel (sec_text sec) (sec_name sec) source
                running_id (Some (effective_size self (sec_name sec))))
      as [new_chunks| |] eqn:Hsec; [|done|done].
    apply IH.
    + apply chunk_section_ids in Hsec.
      rewrite map_app, length_app, id_range_app, Hall, Hsec, Hrun.
      by rewrite Z.add_0_l.
    + rewrite length_app. lia.
Qed.

Definition is_done {A} (r : run A) : Prop :=
  match r with Done _ => True | OutOfFuel _ | Raised _ => False end.

(** [chunk_paper] chunks the sections one after the other, each with
    its [effective_size]; section [k] starts its identifiers where the
    sections before it stopped.  [outs] holds what each section it got
    to contributed; all sections are there when it returns, and it
    stops at the first section in which [chunk_section] does not
    return. *)
Lemma chunk_sections_decompose (self : SectionChunker) (fuel : nat)
    (source : string) (sections : list SectionDict) (all_chunks : list Chunk)
    (running_id : Z) :
  exists outs : list (list Chunk),
    reached (chunk_sections self fuel source sections all_chunks running_id)
    = all_chunks ++ concat outs
    /\ (length outs <= length sections)%nat
    /\ (is_done (chunk_sections self fuel source sections all_chunks running_id)
        -> length outs = length sections)
    /\ forall (k : nat) (sec : SectionDict) (o : list Chunk),
         sections !! k = Some sec -> outs !! k = Some o ->
         reached
           (chunk_section self fuel (sec_text sec) (sec_name sec) source
              (running_id + Z.of_nat (length (concat (take k outs))))
              (Some (effective_size self (sec_name sec)))) = o.
Proof.
  revert all_chunks running_id.
  induction sections as [|sec sections IH]; intros all_chunks running_id; simpl.
  - exists []. simpl. rewrite app_nil_r. repeat split; [lia|].
    intros k sec o Hk. by rewrite lookup_nil in Hk.
  - destruct (chunk_section self fuel (sec_text sec) (sec_name sec) source
                running_id (Some (effective_size self (sec_name sec))))
      as [new_chunks|new_chunks|new_chunks] eqn:Hsec.
    + destruct (IH (all_chunks ++ new_chunks)
                  (running_id + Z.of_nat (length new_chunks)))
        as (outs & Hout & Hlen & Hdone & Hk).
      exists (new_chunks :: outs). simpl. rewrite Hout, <- app_assoc.
      split; [done|]. split; [lia|]. split; [intros Hd; by rewrite Hdone|].
      intros [|k] sec' o; simpl.
      * intros [= <-] [= <-]. by rewrite Z.add_0_r, Hsec.
      * intros Hs Ho.
        rewrite length_app, Nat2Z.inj_add, Z.add_assoc. by apply Hk.
    + exists [new_chunks]. simpl. rewrite app_nil_r.
      split; [done|]. split; [lia|]. split; [done|].
      intros [|k] sec' o; simpl.
      * intros [= <-] [= <-]. by rewrite Z.add_0_r, Hsec.
      * intros _ Ho. by rewrite lookup_nil in Ho.
    + exists [new_chunks]. simpl. rewrite app_nil_r.
      split; [done|]. split; [lia|]. split; [done|].
      intros [|k] sec' o; simpl.
      * intros [= <-] [= <-]. by rewrite Z.add_0_r, Hsec.
      * intros _ Ho. by rewrite lookup_nil in Ho.
Qed.

(** **** Inputs used to exercise the theorems *)

(** The floats [0.5], [1/3] ([0x1.5555555555555p-2]), [0.58]
    ([0x1.28f5c28f5c28fp-1]) and [0.0]. *)
Definition float_0_5 : float := S754_finite false 4503599627370496 (-53).
Definition float_third : float := S754_finite false 6004799503160661 (-54).
Definition float_0_58 : float := S754_finite false 5224175567749775 (-53).
Definition float_zero : float := S754_zero false.

(** They are the floats that the divisions [1/2], [1/3], [58/100] and
    [12/100] give, and the nearest ones to these fractions: off by at
    most half a unit of their last place. *)
Example float_literals :
  int_truediv 1 2 = float_0_5 /\ int_truediv 1 3 = float_third
  /\ int_truediv 58 100 = float_0_58 /\ int_truediv 12 100 = float_0_12
  /\ (float_value float_0_5 == 1 # 2)%Q
  /\ (float_value float_third - (1 # 2 ^ 55) <= 1 # 3
      <= float_value float_third + (1 # 2 ^ 55))%Q
  /\ (float_value float_0_58 - (1 # 2 ^ 54) <= 58 # 100
      <= float_value float_0_58 + (1 # 2 ^ 54))%Q
  /\ (float_value float_0_12 - (1 # 2 ^ 57) <= 12 # 100
      <= float_value float_0_12 + (1 # 2 ^ 57))%Q.
Proof. repeat split; by vm_compute. Qed.

(** The overlap budget follows the rounding of the product:
    [500 * 0.12] is [60.0], [50 * 0.58] is [28.999999999999996],
    [3 * (1/3)] is [1.0]; an infinite or undefined product and an
    integer beyond the floats make [int] or the product raise. *)
Example overlap_budgets :
  overlap_budget 500 float_0_12 = Some 60
  /\ overlap_budget 50 float_0_58 = Some 28
  /\ int_mul_float 50 float_0_58
     = Some (S754_finite false 8162774324609023 (-48))
  /\ overlap_budget 3 float_third = Some 1
  /\ overlap_budget 20 float_0_5 = Some 10
  /\ overlap_budget 30 float_third = Some 10
  /\ overlap_budget 20 float_zero = Some 0
  /\ overlap_budget (-7) float_0_5 = Some (-3)
  /\ overlap_budget 20 S754_nan = None
  /\ overlap_budget 20 (S754_infinity false) = None
  /\ overlap_budget (2 ^ 1024) float_0_5 = None.
Proof. repeat split; by vm_compute. Qed.

(** A chunker with a budget of 20 characters and half of it as overlap. *)
Definition small_chunker : SectionChunker :=
  {| chunk_size := 20; overlap_ratio := float_0_5 |}.

(** A chunker with a budget of 30 characters and a third as overlap. *)
Definition overlapping_chunker : SectionChunker :=
  {| chunk_size := 30; overlap_ratio := float_third |}.

(** A chunker configured above every entry of the override table. *)
Definition wide_chunker : SectionChunker :=
  {| chunk_size := 3000; overlap_ratio := float_0_12 |}.

Definition newline : string := String (ascii_of_nat 10) EmptyString.

(** A two-section paper and what [finditer] returns on it: the Abstract
    header at [0, 8) and the Introduction header at [25, 37). *)
Definition two_section_paper : string :=
  ("Abstract" +:+ newline +:+ "One two. Three." +:+ newline
   +:+ "Introduction" +:+ newline +:+ "Four five. Six seven eight. Nine.")%string.

Definition two_section_finditer (pattern text : string) : list (nat * nat) :=
  if String.eqb pattern "^[\s]*(?:abstract)[\s]*$" then [(0, 8)%nat]
  else if String.eqb pattern
            "^[\s]*(?:[0-9]+[.\s]*|[IVX]+[.\s]+)?introduction[\s]*$"
       then [(25, 37)%nat]
       else [].

(** A text without any header line. *)
Definition no_header_finditer (pattern text : string) : list (nat * nat) := [].

(** **** C1: the loop can stall *)

(** C1 (the code departs from it).  The specification has
    [chunk_section] leave its loop for every sentence list, every
    [chunk_size >= 1] and every [overlap_ratio] in [0, 1).  With [chunk_size = 20] and
    [overlap_ratio = 0.5] on the text ["Aaaa. Bbbbbbbbbbbbbbbbbbbbbbbbb."]
    it does not: after the first chunk ["Aaaa."] is emitted the overlap
    seed is ["Aaaa."] again, the second sentence still does not fit
    after it, and the chunk is emitted once more on every iteration.
    Whatever the iteration budget, the loop is still running when it is
    spent, with one more chunk appended per iteration. *)
Theorem chunk_section_stalls :
  forall fuel : nat,
  exists appended : list Chunk,
    chunk_section small_chunker fuel "Aaaa. Bbbbbbbbbbbbbbbbbbbbbbbbb."
      "Body" "paper.pdf" 0 None = OutOfFuel appended
    /\ length appended = (fuel - 1)%nat
    /\ Forall (fun c => text c = "Aaaa.") appended.
Proof.
  intros fuel. unfold chunk_section.
  change (_split_sentences "Aaaa. Bbbbbbbbbbbbbbbbbbbbbbbbb.")
    with ["Aaaa."; "Bbbbbbbbbbbbbbbbbbbbbbbbb."].
  change (overlap_budget _ _) with (Some 10).
  simpl negb. cbv iota zeta. simpl default.
  destruct fuel as [|fuel]; [exists []; by repeat split|].
  simpl chunk_loop.
  match goal with
  | |- context [chunk_loop ?ss ?n ?src ?cs ?oc fuel ?st] =>
      destruct (chunk_loop_stalls ss n src cs oc fuel st
                  "Bbbbbbbbbbbbbbbbbbbbbbbbb.")
        as (st' & again & Hrun & Hchunks & Hlen & Hall);
      [done | done | done | by vm_compute | by vm_compute |]
  end.
  rewrite Hrun. exists again. simpl in Hchunks. rewrite Hchunks.
  repeat split; [lia | done].
Qed.

(** The same stall with the default configuration ([chunk_size = 500],
    [overlap_ratio = 0.12], hence 60 characters of overlap, [500 * 0.12]
    being rounded to [60.0]): a short sentence followed by one of 501
    characters. *)
Definition long_sentence : string :=
  (String.concat "" (repeat "a" 500) +:+ ".")%string.

Lemma chunk_section_stalls_default :
  forall fuel : nat,
  exists appended : list Chunk,
    chunk_section default_chunker fuel ("Short. " +:+ long_sentence)%string
      "Body" "paper.pdf" 0 None = OutOfFuel appended
    /\ length appended = (fuel - 1)%nat.
Proof.
  intros fuel. unfold chunk_section.
  assert (Hsplit : _split_sentences ("Short. " +:+ long_sentence)%string
                   = ["Short."; long_sentence]) by (by vm_compute).
  rewrite Hsplit.
  change (overlap_budget _ _) with (Some 60).
  simpl negb. cbv iota zeta. simpl default.
  destruct fuel as [|fuel]; [exists []; by repeat split|].
  assert (Hfirst :
            loop_body ["Short."; long_sentence] "Body" "paper.pdf" 500 60
              (initial_state 0)
            = Some (accepted (initial_state 0) "Short.")) by (by vm_compute).
  rewrite chunk_loop_succ, Hfirst.
  destruct (chunk_loop_stalls ["Short."; long_sentence] "Body" "paper.pdf"
              500 60 fuel (accepted (initial_state 0) "Short.") long_sentence)
    as (st' & again & Hrun & Hchunks & Hlen & _);
    [done | done | done | by vm_compute | by vm_compute |].
  rewrite Hrun. exists again. simpl in Hchunks. rewrite Hchunks.
  split; [done | lia].
Qed.

(** Where the stall cannot happen: when every sentence still fits
    after a full overlap seed, [chunk_section] returns within two
    iterations per sentence. *)
Lemma chunk_section_terminates (self : SectionChunker) (fuel : nat)
    (section_text section_name source : string) (start_id : Z)
    (effective_chunk_size : option Z) (overlap_chars : Z) :
  let sentences := _split_sentences section_text in
  let size := default (chunk_size self) effective_chunk_size in
  overlap_budget size (overlap_ratio self) = Some overlap_chars ->
  (forall s, s ∈ sentences -> overlap_chars + 1 + len s <= size) ->
  (2 * length sentences < fuel)%nat ->
  exists out : list Chunk,
    chunk_section self fuel section_text section_name source start_id
      effective_chunk_size = Done out.
Proof.
  intros sentences size Hbudget Hfit Hfuel. unfold chunk_section.
  fold sentences size. rewrite Hbudget.
  destruct (truthy sentences); simpl negb; cbv iota; [|eauto].
  destruct (chunk_loop_terminates sentences section_name source size
              overlap_chars Hfit fuel (initial_state start_id))
    as [st' Hrun]; [done | |].
  - unfold steps_left. simpl. lia.
  - rewrite Hrun. eauto.
Qed.

(** **** C4: size bound *)

(** The bound holds whatever the overlap budget is: the seed of the
    next chunk is a trailing part of the chunk just emitted. *)
Lemma chunk_section_size_bound (self : SectionChunker) (fuel : nat)
    (section_text section_name source : string) (start_id : Z)
    (effective_chunk_size : option Z) :
  Forall
    (within_budget (_split_sentences section_text)
       (default (chunk_size self) effective_chunk_size))
    (reached
       (chunk_section self fuel section_text section_name source start_id
          effective_chunk_size)).
Proof.
  unfold chunk_section.
  destruct (truthy (_split_sentences section_text)); simpl negb; cbv iota zeta;
    [|by constructor].
  destruct (overlap_budget _ _) as [overlap_chars|]; [|by constructor].
  match goal with
  | |- context [chunk_loop ?ss ?n ?src ?cs ?oc fuel ?st] =>
      pose proof (chunk_loop_invariant ss n src cs oc (size_inv ss cs)
                    (size_inv_step ss n src cs oc) fuel st) as Hinv;
      destruct (chunk_loop ss n src cs oc fuel st) as [st'|st'|st']
  end; simpl in *.
  - assert (Hst : size_inv (_split_sentences section_text)
                    (default (chunk_size self) effective_chunk_size) st').
    { apply Hinv, size_inv_initial. }
    unfold flush. destruct (truthy (st_current_sentences st')) eqn:Ht.
    + apply Forall_app. split; [apply Hst|]. apply Forall_singleton.
      apply pending_within_budget; [done | by apply truthy_true].
    + apply Hst.
  - apply Hinv, size_inv_initial.
  - apply Hinv, size_inv_initial.
Qed.

(** C4.  For every section text, every effective [chunk_size >= 1] and
    every [overlap_ratio] (in [0, 1] or not), every chunk that
    [chunk_section] emits (whether it has left its loop or is still
    running) joins a non-empty run of consecutive sentences, its text is
    as long as the sentences plus one separator per join, and that
    length is at most the effective [chunk_size] or the run is exactly
    one sentence. *)
Theorem chunk_section_within_budget (self : SectionChunker) (fuel : nat)
    (section_text section_name source : string) (start_id : Z)
    (effective_chunk_size : option Z) :
  1 <= default (chunk_size self) effective_chunk_size ->
  Forall
    (within_budget (_split_sentences section_text)
       (default (chunk_size self) effective_chunk_size))
    (reached
       (chunk_section self fuel section_text section_name source start_id
          effective_chunk_size)).
Proof. intros _. apply chunk_section_size_bound. Qed.

Lemma chunk_section_within_budget_witness :
  Forall
    (within_budget (_split_sentences "Alpha beta. Gamma delta epsilon. Zeta.") 20)
    (reached
       (chunk_section small_chunker 10 "Alpha beta. Gamma delta epsilon. Zeta."
          "Body" "paper.pdf" 0 None)).
Proof.
  apply (chunk_section_within_budget small_chunker 10
           "Alpha beta. Gamma delta epsilon. Zeta." "Body" "paper.pdf" 0 None).
  simpl. lia.
Defined.

(** **** C6: chunk identifiers of a paper *)

(** C6.  Whenever [chunk_paper] returns, with [N] chunks in total, the
    [chunk_id] values of the chunks are, in emission order across all
    sections, exactly [0, 1, ..., N-1]. *)
Theorem chunk_paper_ids (finditer : string -> string -> list (nat * nat))
    (self : SectionChunker) (fuel : nat) (text source : string)
    (chunks : list Chunk) :
  chunk_paper finditer self fuel text source = Done chunks ->
  map chunk_id chunks = map Z.of_nat (seq 0 (length chunks)).
Proof.
  unfold chunk_paper. intros Hrun. rewrite <- id_range_0.
  by apply (chunk_sections_ids self fuel source
              (detect_sections finditer text) [] 0).
Qed.

Lemma chunk_paper_ids_witness :
  exists chunks : list Chunk,
    chunk_paper two_section_finditer overlapping_chunker 20 two_section_paper
      "paper.pdf" = Done chunks
    /\ length chunks = 3%nat
    /\ map chunk_id chunks = [0; 1; 2].
Proof.
  eexists. split; [by vm_compute|]. split; [reflexivity|].
  apply (chunk_paper_ids two_section_finditer overlapping_chunker 20
           two_section_paper "paper.pdf").
  by vm_compute.
Defined.

(** **** C8: a text without headers *)

Lemma flat_map_all_nil {A B} (f : A -> list B) (l : list A) :
  (forall x, In x l -> f x = []) -> flat_map f l = [].
Proof.
  induction l as [|x l IH]; intros Hf; simpl; [done|].
  rewrite (Hf x) by (by left). apply IH. intros y Hy. apply Hf. by right.
Qed.

(** C8.  When no header pattern matches anywhere in the text,
    [detect_sections] returns exactly one section, named ["Full Text"],
    whose text is the input as it is; no error is involved. *)
Theorem detect_sections_no_header
    (finditer : string -> string -> list (nat * nat)) (text : string) :
  (forall pattern name,
      In (pattern, name) _SECTION_PATTERNS -> finditer pattern text = []) ->
  detect_sections finditer text
  = [{| sec_name := "Full Text"; sec_text := text |}].
Proof.
  intros Hnone. unfold detect_sections.
  assert (Hempty : collect_matches finditer text = []).
  { unfold collect_matches. apply flat_map_all_nil.
    intros [pattern name] Hin.
    by rewrite (Hnone pattern name). }
  by rewrite Hempty.
Qed.

Lemma detect_sections_no_header_witness :
  detect_sections no_header_finditer "No headers here. Only prose."
  = [{| sec_name := "Full Text"; sec_text := "No headers here. Only prose." |}].
Proof.
  apply (detect_sections_no_header no_header_finditer
           "No headers here. Only prose.").
  intros pattern name _. reflexivity.
Defined.

(** **** C5: overlap between consecutive chunks *)

(** C5.  Whenever [chunk_section] returns, its chunks join runs
    [(a, b)] of consecutive sentences, and for any two consecutive
    chunks [(a, b)] and [(a2, b2)]: the sentence at [b] is the one that
    did not fit into the first chunk; the sentences from [a2] to [b] are
    the overlap seed of the first chunk (its longest run of trailing
    whole sentences whose joined length stays within the overlap budget
    [int(chunk_size * overlap_ratio)]); and the second chunk is that
    seed, verbatim and in order, then the sentence that did not fit,
    then the sentences after it.  The budget is [int] of the float
    [product] that [chunk_size * overlap_ratio] evaluates to, and a
    joined length, which is at least 1, is within the budget exactly
    when it is within that product. *)
Theorem chunk_section_overlap (self : SectionChunker) (fuel : nat)
    (section_text section_name source : string) (start_id : Z)
    (effective_chunk_size : option Z) (out : list Chunk) :
  let sentences := _split_sentences section_text in
  let size := default (chunk_size self) effective_chunk_size in
  chunk_section self fuel section_text section_name source start_id
    effective_chunk_size = Done out ->
  exists spans : list (nat * nat),
    map text out = map (fun sp => join (slice sentences sp.1 sp.2)) spans
    /\ Forall (fun sp => (sp.1 < sp.2 <= length sentences)%nat) spans
    /\ (forall (k a b a2 b2 : nat),
          spans !! k = Some (a, b) -> spans !! S k = Some (a2, b2) ->
          exists (product : float) (overlap_chars : Z) (trigger : string),
            int_mul_float size (overlap_ratio self) = Some product
            /\ int_of_float product = Some overlap_chars
            /\ (forall n : Z,
                  1 <= n ->
                  n <= overlap_chars
                  <-> (inject_Z n <= float_value product)%Q)
            /\ sentences !! b = Some trigger
            /\ size < joined_len (slice sentences a b) + len trigger + 1
            /\ (a <= a2 <= b)%nat /\ (b < b2)%nat
            /\ slice sentences a2 b
               = overlap_seed overlap_chars (slice sentences a b)
            /\ is_seed overlap_chars (slice sentences a b)
                 (slice sentences a2 b)
            /\ slice sentences a2 b2
               = slice sentences a2 b ++ trigger :: slice sentences (S b) b2).
Proof.
  intros sentences size. unfold chunk_section. fold sentences size.
  destruct (truthy sentences); simpl negb; cbv iota.
  2:{ intros [= <-]. exists []. split; [done|]. split; [constructor|].
      intros k a b a2 b2 Hk. by rewrite lookup_nil in Hk. }
  destruct (overlap_budget size (overlap_ratio self)) as [overlap_chars|]
    eqn:Hbudget; [|done].
  destruct (overlap_budget_product _ _ _ Hbudget) as (product & Hmul & Hint).
  pose proof (chunk_loop_invariant sentences section_name source size
                overlap_chars _
                (overlap_inv_step sentences section_name source size
                   overlap_chars)
                fuel (initial_state start_id)
                (or_introl (overlap_inv_initial _ _ _ _))) as Hinv.
  destruct (chunk_loop sentences section_name source size overlap_chars fuel
              (initial_state start_id)) as [st|st|st] eqn:Hrun; [|done|done].
  intros [= <-]. simpl in Hinv.
  pose proof (chunk_loop_done _ _ _ _ _ _ _ _ Hrun) as Hexit.
  destruct Hinv as [Hinv|Hstalled].
  2:{ destruct (Hstalled 1%nat) as [st' Hst'].
      rewrite chunk_loop_succ, Hexit in Hst'. done. }
  destruct (overlap_inv_flush _ section_name source _ _ _ Hinv Hexit)
    as (spans & Htexts & Hspans & Hchain).
  exists spans. split; [exact Htexts|]. split; [exact Hspans|].
  intros k a b a2 b2 Hk Hk2.
  destruct (Hchain k _ _ Hk Hk2) as ((Hle & Hseed) & Hlt & trigger & Ht & Hover).
  simpl in *. exists product, overlap_chars, trigger.
  split; [done|]. split; [done|].
  split; [intros n Hn; by apply int_of_float_within|].
  split; [done|]. split; [done|].
  split; [done|]. split; [done|]. split; [done|].
  split; [rewrite Hseed; apply overlap_seed_spec|].
  apply slice_split; [lia | done].
Qed.

Lemma chunk_section_overlap_witness :
  (exists out : list Chunk,
     chunk_section overlapping_chunker 10 "Aaaa bbbb. Cc dd. Eeeeeee ffffff ggg."
       "Body" "paper.pdf" 0 None = Done out
     /\ map text out = ["Aaaa bbbb. Cc dd."; "Cc dd. Eeeeeee ffffff ggg."]
     /\ exists spans : list (nat * nat),
          map text out
          = map (fun sp =>
                   join (slice (_split_sentences
                                  "Aaaa bbbb. Cc dd. Eeeeeee ffffff ggg.")
                           sp.1 sp.2)) spans
          /\ length spans = 2%nat)
  /\ (exists out : list Chunk,
        chunk_section {| chunk_size := 50; overlap_ratio := float_0_58 |} 10
          "Aaaaaaaaaaaaaaaaaaa. Bbbbbbbbbbbbbbbbbbbbbbbbbbbb. Cccccccccccccc."
          "Body" "paper.pdf" 0 None = Done out
        /\ map text out
           = ["Aaaaaaaaaaaaaaaaaaa. Bbbbbbbbbbbbbbbbbbbbbbbbbbbb.";
              "Cccccccccccccc."]
        /\ exists spans : list (nat * nat),
             map text out
             = map (fun sp =>
                      join (slice
                              (_split_sentences
                                 "Aaaaaaaaaaaaaaaaaaa. Bbbbbbbbbbbbbbbbbbbbbbbbbbbb. Cccccccccccccc.")
                              sp.1 sp.2)) spans
             /\ length spans = 2%nat
             /\ forall a b a2 b2 : nat,
                  spans !! 0%nat = Some (a, b) ->
                  spans !! 1%nat = Some (a2, b2) ->
                  exists product : float,
                    int_mul_float 50 float_0_58 = Some product
                    /\ int_of_float product = Some 28
                    /\ slice
                         (_split_sentences
                            "Aaaaaaaaaaaaaaaaaaa. Bbbbbbbbbbbbbbbbbbbbbbbbbbbb. Cccccccccccccc.")
                         a2 b
                       = overlap_seed 28
                           (slice
                              (_split_sentences
                                 "Aaaaaaaaaaaaaaaaaaa. Bbbbbbbbbbbbbbbbbbbbbbbbbbbb. Cccccccccccccc.")
                              a b)).
Proof.
  split.
  - eexists. split; [by vm_compute|]. split; [reflexivity|].
    destruct (chunk_section_overlap overlapping_chunker 10
                "Aaaa bbbb. Cc dd. Eeeeeee ffffff ggg." "Body" "paper.pdf" 0 None
                _ eq_refl) as (spans & Htexts & _).
    exists spans. split; [exact Htexts|].
    apply (f_equal length) in Htexts. by rewrite !length_map in Htexts.
  - eexists. split; [by vm_compute|]. split; [reflexivity|].
    destruct (chunk_section_overlap
                {| chunk_size := 50; overlap_ratio := float_0_58 |} 10
                "Aaaaaaaaaaaaaaaaaaa. Bbbbbbbbbbbbbbbbbbbbbbbbbbbb. Cccccccccccccc."
                "Body" "paper.pdf" 0 None _ eq_refl)
      as (spans & Htexts & _ & Hpairs).
    exists spans. split; [exact Htexts|]. split.
    + apply (f_equal length) in Htexts. by rewrite !length_map in Htexts.
    + intros a b a2 b2 H0 H1.
      destruct (Hpairs 0%nat a b a2 b2 H0 H1)
        as (product & overlap_chars & trigger & Hmul & Hint & _ & _ & _ & _ & _
            & Hseed & _).
      exists product. split; [exact Hmul|].
      assert (Hoc : overlap_chars = 28).
      { simpl default in Hmul. vm_compute in Hmul.
        injection Hmul as <-. vm_compute in Hint. by injection Hint as <-. }
      subst overlap_chars. split; [exact Hint | exact Hseed].
Defined.

(** The budget follows the rounded product: with [chunk_size = 50] and
    [overlap_ratio = 0.58] it is 28, so the sentence of 29 characters
    that ends the first chunk is not repeated, and the second chunk is
    the third sentence alone. *)
Example chunk_section_overlap_rounded :
  chunk_section {| chunk_size := 50; overlap_ratio := float_0_58 |} 10
    "Aaaaaaaaaaaaaaaaaaa. Bbbbbbbbbbbbbbbbbbbbbbbbbbbb. Cccccccccccccc."
    "Body" "paper.pdf" 0 None
  = Done
      [Build_Chunk "Aaaaaaaaaaaaaaaaaaa. Bbbbbbbbbbbbbbbbbbbbbbbbbbbb." "Body"
         "paper.pdf" 0;
       Build_Chunk "Cccccccccccccc." "Body" "paper.pdf" 1].
Proof. by vm_compute. Qed.

(** **** The budget of a section *)

Definition override_names : list string :=
  ["Abstract"; "Methods"; "Methodology"; "Results"].

(** The budget of a section by its name: the entry of the override
    table for the four names it lists, the configured [chunk_size] for
    every other name. *)
Definition section_budget (self : SectionChunker) (name : string) : Z :=
  if decide (name = "Abstract") then 2000
  else if decide (name = "Methods") then 1000
  else if decide (name = "Methodology") then 1000
  else if decide (name = "Results") then 800
  else chunk_size self.

Lemma effective_size_budget (self : SectionChunker) (name : string) :
  effective_size self name = section_budget self name.
Proof.
  unfold effective_size, section_budget.
  repeat case_decide; subst; try reflexivity.
  assert (Hnone : SECTION_CHUNK_SIZES !! name = None).
  { apply not_elem_of_list_to_map. simpl. rewrite !elem_of_cons, elem_of_nil.
    intros [?|[?|[?|[?|[]]]]]; congruence. }
  by rewrite Hnone.
Qed.

Lemma section_budget_override (self : SectionChunker) (name : string) :
  name ∈ override_names ->
  SECTION_CHUNK_SIZES !! name = Some (section_budget self name)
  /\ section_budget self name ∈ [2000; 1000; 800]
  /\ DEFAULT_CHUNK_SIZE < section_budget self name.
Proof.
  unfold override_names. rewrite !elem_of_cons, elem_of_nil.
  intros [->|[->|[->|[->|[]]]]];
    (split; [by vm_compute|]; split; [|by vm_compute]);
    change (section_budget self _) with 2000
    || change (section_budget self _) with 1000
    || change (section_budget self _) with 800;
    set_solver.
Qed.

Lemma section_budget_other (self : SectionChunker) (name : string) :
  name ∉ override_names -> section_budget self name = chunk_size self.
Proof.
  unfold override_names, section_budget.
  rewrite !elem_of_cons, elem_of_nil. intros Hnot.
  repeat case_decide; try done; exfalso; apply Hnot; auto.
Qed.

(** *** White space, [strip] and [_split_sentences] *)

(** The characters of a list that are not white space, in order. *)
Definition keep (cs : list ascii) : list ascii :=
  List.filter (fun c => negb (isspace c)) cs.

(** The characters of a string that are not white space: what
    ["".join(s.split())] keeps of [s]. *)
Definition nonspace (s : string) : list ascii := keep (list_ascii_of_string s).

Lemma nonspace_cons (c : ascii) (s : string) :
  nonspace (String c s) = if isspace c then nonspace s else c :: nonspace s.
Proof. unfold nonspace, keep. simpl. by destruct (isspace c). Qed.

Lemma lstrip_nonspace (s : string) : nonspace (lstrip s) = nonspace s.
Proof.
  induction s as [|c s IH]; simpl; [done|].
  rewrite nonspace_cons. destruct (isspace c) eqn:Hc; [done|].
  by rewrite nonspace_cons, Hc.
Qed.

Lemma rstrip_nonspace (s : string) : nonspace (rstrip s) = nonspace s.
Proof.
  induction s as [|c s IH]; simpl; [done|].
  rewrite nonspace_cons. destruct (rstrip s) as [|d r] eqn:Hr.
  - rewrite <- IH. destruct (isspace c) eqn:Hc; [done|].
    by rewrite nonspace_cons, Hc.
  - rewrite nonspace_cons, IH. done.
Qed.

Lemma strip_nonspace (s : string) : nonspace (strip s) = nonspace s.
Proof. unfold strip. by rewrite rstrip_nonspace, lstrip_nonspace. Qed.

Lemma lstrip_head (s : string) :
  match lstrip s with EmptyString => True | String c _ => isspace c = false end.
Proof.
  induction s as [|c s IH]; simpl; [done|].
  destruct (isspace c) eqn:Hc; [done|]. simpl. done.
Qed.

Lemma rstrip_empty (s : string) : rstrip s = "" <-> nonspace s = [].
Proof.
  induction s as [|c s IH]; simpl; [done|].
  rewrite nonspace_cons. destruct (rstrip s) as [|d r] eqn:Hr.
  - destruct (isspace c); [tauto|]. split; [done|]. intros Hn.
    destruct IH as [IH _]. by rewrite IH in Hn.
  - split; [done|]. intros Hn. destruct (isspace c); [|done].
    destruct IH as [_ IH]. by specialize (IH Hn).
Qed.

Lemma strip_empty (s : string) : strip s = "" <-> nonspace s = [].
Proof. unfold strip. by rewrite rstrip_empty, lstrip_nonspace. Qed.

Lemma rstrip_idemp (s : string) : rstrip (rstrip s) = rstrip s.
Proof.
  induction s as [|c s IH]; simpl; [done|].
  destruct (rstrip s) as [|d r] eqn:Hr.
  - destruct (isspace c) eqn:Hc; simpl; [done | by rewrite Hc].
  - change (rstrip (String c (String d r))) with
      (match rstrip (String d r) with
       | EmptyString => if isspace c then EmptyString else String c EmptyString
       | r' => String c r'
       end).
    by rewrite IH.
Qed.

Lemma rstrip_head (c : ascii) (s : string) :
  isspace c = false -> exists r, rstrip (String c s) = String c r.
Proof.
  intros Hc. simpl. destruct (rstrip s); rewrite ?Hc; eauto.
Qed.

Lemma strip_idemp (s : string) : strip (strip s) = strip s.
Proof.
  unfold strip. pose proof (lstrip_head s) as Hhead.
  destruct (lstrip s) as [|c t] eqn:Ht; [done|].
  destruct (rstrip_head c t Hhead) as [r Hr]. rewrite Hr.
  simpl lstrip. rewrite Hhead. rewrite <- Hr. apply rstrip_idemp.
Qed.

Lemma nonempty_true (s : string) : nonempty s = true <-> s <> "".
Proof. destruct s; simpl; split; congruence. Qed.

Lemma boundary_split_nonspace (mode : scan_mode) (piece : list ascii) (s : string) :
  flat_map nonspace (boundary_split mode piece s) = keep (rev piece) ++ nonspace s.
Proof.
  revert mode piece. induction s as [|c s IH]; intros mode piece.
  - simpl. unfold nonspace at 1, string_of_rev.
    by rewrite list_ascii_of_string_of_list_ascii.
  - assert (Hpush : forall m, flat_map nonspace (boundary_split m (c :: piece) s)
                              = keep (rev piece) ++ nonspace (String c s)
                                \/ isspace c = true).
    { intros m. destruct (isspace c) eqn:Hc; [by right | left].
      rewrite IH, nonspace_cons, Hc. simpl rev. unfold keep.
      rewrite List.filter_app. simpl. rewrite Hc. simpl.
      by rewrite <- app_assoc. }
    simpl boundary_split. destruct mode.
    + destruct (Hpush (if is_mark c then AfterMark else Plain)) as [H|Hc]; [done|].
      rewrite IH, nonspace_cons, Hc. simpl rev. unfold keep.
      rewrite List.filter_app. simpl. rewrite Hc. simpl. by rewrite app_nil_r.
    + destruct (isspace c) eqn:Hc.
      * simpl flat_map. rewrite IH, nonspace_cons, Hc. simpl.
        unfold nonspace, string_of_rev.
        by rewrite list_ascii_of_string_of_list_ascii.
      * destruct (Hpush (if is_mark c then AfterMark else Plain)); [done|congruence].
    + destruct (isspace c) eqn:Hc.
      * by rewrite IH, nonspace_cons, Hc.
      * destruct (Hpush (if is_mark c then AfterMark else Plain)); [done|congruence].
Qed.

(** The comprehension [[s.strip() for s in parts if s.strip()]]. *)
Lemma stripped_parts_nonspace (parts : list string) :
  flat_map nonspace
    (map strip (List.filter (fun s => nonempty (strip s)) parts))
  = flat_map nonspace parts.
Proof.
  induction parts as [|p parts IH]; simpl; [done|].
  destruct (nonempty (strip p)) eqn:Hp; simpl.
  - by rewrite strip_nonspace, IH.
  - rewrite IH. assert (Hs : strip p = "") by (by destruct (strip p)).
    apply strip_empty in Hs. by rewrite Hs.
Qed.

Lemma stripped_parts_trimmed (parts : list string) :
  Forall (fun s => s <> "" /\ strip s = s)
    (map strip (List.filter (fun s => nonempty (strip s)) parts)).
Proof.
  induction parts as [|p parts IH]; simpl; [constructor|].
  destruct (nonempty (strip p)) eqn:Hp; simpl; [|done].
  constructor; [|done]. split; [by apply nonempty_true | apply strip_idemp].
Qed.

Lemma split_sentences_nil (text : string) :
  _split_sentences text = [] <-> strip text = "".
Proof.
  rewrite strip_empty, <- (app_nil_l (nonspace text)).
  change [] with (keep (rev [])) at 2.
  rewrite <- (boundary_split_nonspace Plain), <- stripped_parts_nonspace.
  fold (_split_sentences text). split; [by intros ->|].
  pose proof (stripped_parts_trimmed (boundary_split Plain [] text)) as Hall.
  fold (_split_sentences text) in Hall.
  destruct (_split_sentences text) as [|s rest]; [done|].
  apply Forall_cons in Hall as [[Hne Hs] _]. simpl. intros Hnil.
  apply app_eq_nil in Hnil as [Hnil _]. apply strip_empty in Hnil. congruence.
Qed.

Lemma split_sentences_len (text : string) :
  Forall (fun s => 0 < len s) (_split_sentences text).
Proof.
  eapply List.Forall_impl;
    [|exact (stripped_parts_trimmed (boundary_split Plain [] text))].
  intros s [Hne _]. destruct s; [done|]. unfold len. simpl. lia.
Qed.

(** X1.  [_split_sentences] drops white space only: the characters of
    the sentences that are not white space are, in order, those of the
    text. *)
Theorem split_sentences_keeps_text (text : string) :
  flat_map nonspace (_split_sentences text) = nonspace text.
Proof.
  unfold _split_sentences.
  by rewrite stripped_parts_nonspace, boundary_split_nonspace.
Qed.

(** X2.  Every sentence that [_split_sentences] returns is non-empty
    and trimmed: stripping it again changes nothing. *)
Theorem split_sentences_stripped (text : string) :
  Forall (fun s => s <> "" /\ strip s = s) (_split_sentences text).
Proof. apply stripped_parts_trimmed. Qed.

(** *** More on the assembly loop *)

Lemma joined_len_elem (l : list string) (s : string) :
  s ∈ l -> len s <= joined_len l.
Proof.
  induction l as [|t l IH]; intros Hin; [by apply elem_of_nil in Hin|].
  rewrite joined_len_cons. pose proof (len_nonneg t).
  pose proof (joined_len_nonneg l).
  apply elem_of_cons in Hin as [->|Hin].
  - destruct (truthy l); lia.
  - specialize (IH Hin). destruct (truthy l); lia.
Qed.

Lemma joined_len_take (l : list string) (n : nat) :
  joined_len (take n l) <= joined_len l.
Proof.
  revert n. induction l as [|s l IH]; intros [|n]; simpl take; try done.
  - apply joined_len_nonneg.
  - rewrite !joined_len_cons. specialize (IH n).
    destruct (take n l) as [|t k] eqn:Hk; simpl truthy.
    + rewrite joined_len_nil in *. pose proof (joined_len_nonneg l).
      destruct (truthy l); lia.
    + destruct l; [by destruct n|]. simpl truthy. cbv iota. lia.
Qed.

Lemma join_nonempty (l : list string) :
  l <> [] -> Forall (fun s => 0 < len s) l -> join l <> "".
Proof.
  intros Hne Hall Hjoin. apply (f_equal len) in Hjoin.
  rewrite len_join in Hjoin. destruct l as [|s l]; [done|].
  apply Forall_cons in Hall as [Hs _].
  pose proof (joined_len_elem (s :: l) s ltac:(by left)).
  change (len "") with 0 in Hjoin. lia.
Qed.

Section LoopMore.

Variable sentences : list string.
Variables section_name source : string.
Variables chunk_size overlap_chars : Z.

Local Abbreviation body :=
  (loop_body sentences section_name source chunk_size overlap_chars).
Local Abbreviation loop :=
  (chunk_loop sentences section_name source chunk_size overlap_chars).
Local Abbreviation emitted := (emitted section_name source overlap_chars).

Lemma loop_body_exit (st : loop_state) :
  body st = None -> (length sentences <= st_i st)%nat.
Proof.
  unfold loop_body. destruct (sentences !! st_i st) as [x|] eqn:Hx.
  - cbv zeta. by destruct (_ || _).
  - intros _. by apply lookup_ge_None in Hx.
Qed.

(** **** What every chunk carries *)

(** A chunk carries the name of the section and the source it was made
    for, and some text. *)
Definition labelled (c : Chunk) : Prop :=
  section c = section_name /\ Chunker.source c = source /\ text c <> "".

Definition label_inv (st : loop_state) : Prop :=
  Forall (fun s => 0 < len s) (st_current_sentences st)
  /\ Forall labelled (st_chunks st).

Lemma label_inv_step :
  Forall (fun s => 0 < len s) sentences ->
  forall st st' : loop_state, label_inv st -> body st = Some st' -> label_inv st'.
Proof.
  intros Hpos st st' [Hcur Hchunks] Hbody.
  destruct (loop_body_cases _ _ _ _ _ _ _ Hbody) as (sentence & Hs & Hcase).
  destruct Hcase as [[_ ->]|(_ & Hne & ->)]; split; simpl.
  - apply Forall_app. split; [done|]. apply Forall_singleton.
    apply (proj1 (Forall_forall _ _) Hpos). by eapply list_elem_of_lookup_2.
  - done.
  - destruct (overlap_seed_spec overlap_chars (st_current_sentences st))
      as (m & _ & -> & _). by apply Forall_drop.
  - apply Forall_app. split; [done|]. apply Forall_singleton.
    split; [done|]. split; [done|]. simpl. by apply join_nonempty.
Qed.

Lemma label_inv_flush (st : loop_state) :
  label_inv st -> Forall labelled (flush section_name source st).
Proof.
  intros [Hcur Hchunks]. unfold flush.
  destruct (truthy (st_current_sentences st)) eqn:Ht; [|done].
  apply Forall_app. split; [done|]. apply Forall_singleton.
  split; [done|]. split; [done|]. simpl.
  apply join_nonempty; [by apply truthy_true | done].
Qed.

(** **** Something is emitted once a sentence was taken *)

Definition started_inv (st : loop_state) : Prop :=
  st_i st = 0%nat \/ st_current_sentences st <> [] \/ st_chunks st <> [].

Lemma started_inv_step (st st' : loop_state) :
  started_inv st -> body st = Some st' -> started_inv st'.
Proof.
  intros _ Hbody.
  destruct (loop_body_cases _ _ _ _ _ _ _ Hbody) as (sentence & Hs & Hcase).
  destruct Hcase as [[_ ->]|(_ & Hne & ->)]; right; simpl.
  - left. by destruct (st_current_sentences st).
  - right. by destruct (st_chunks st).
Qed.

(** **** Every sentence ends up in a chunk *)

(** The sentences before [st_i] are in the pending chunk or in the span
    of a chunk that was emitted. *)
Definition cover_inv (st : loop_state) : Prop :=
  exists (spans : list (nat * nat)) (a' : nat),
    map text (st_chunks st) = map (span_text sentences) spans
    /\ Forall (fun sp => (sp.1 < sp.2 <= length sentences)%nat) spans
    /\ (a' <= st_i st <= length sentences)%nat
    /\ st_current_sentences st = slice sentences a' (st_i st)
    /\ forall p : nat,
         (p < st_i st)%nat ->
         (a' <= p)%nat \/ exists sp, sp ∈ spans /\ (sp.1 <= p < sp.2)%nat.

Lemma cover_inv_initial (start_id : Z) : cover_inv (initial_state start_id).
Proof.
  exists [], 0%nat. simpl. split; [done|]. split; [constructor|].
  split; [lia|]. split; [by rewrite slice_empty|]. intros p Hp. lia.
Qed.

Lemma cover_inv_step (st st' : loop_state) :
  cover_inv st -> body st = Some st' -> cover_inv st'.
Proof.
  intros (spans & a' & Htexts & Hspans & Hrange & Hcur & Hcov) Hbody.
  destruct (loop_body_cases _ _ _ _ _ _ _ Hbody) as (sentence & Hs & Hcase).
  pose proof (lookup_lt_Some _ _ _ Hs) as Hlt.
  destruct Hcase as [[_ ->]|(_ & Hne & ->)].
  - exists spans, a'. simpl. split; [done|]. split; [done|]. split; [lia|].
    split; [rewrite Hcur; symmetry; apply slice_snoc; [lia | done]|].
    intros p Hp. destruct (decide (p = st_i st)) as [->|Hnp]; [left; lia|].
    apply Hcov. lia.
  - assert (Hcurlen : length (st_current_sentences st) = (st_i st - a')%nat)
      by (rewrite Hcur; apply length_slice; lia).
    assert (Ha' : (a' < st_i st)%nat).
    { destruct (st_current_sentences st); [done | simpl in Hcurlen; lia]. }
    destruct (overlap_seed_spec overlap_chars (st_current_sentences st))
      as (m & Hm & Hseed & _).
    exists (spans ++ [(a', st_i st)]), (a' + m)%nat. simpl.
    rewrite !map_app, Htexts. simpl.
    split; [unfold span_text; simpl; by rewrite Hcur|].
    split; [apply Forall_app; split; [done|]; apply Forall_singleton; simpl; lia|].
    split; [lia|]. split; [by rewrite Hseed, Hcur, slice_drop|].
    intros p Hp. destruct (decide (a' + m <= p)%nat) as [?|Hout]; [by left|].
    right. destruct (Hcov p Hp) as [Hin|(sp & Hsp & Hp')].
    + exists (a', st_i st). rewrite elem_of_app, list_elem_of_singleton.
      split; [by right | simpl; lia].
    + exists sp. rewrite elem_of_app. split; [by left | done].
Qed.

Lemma cover_inv_flush (st : loop_state) :
  cover_inv st -> body st = None ->
  exists spans : list (nat * nat),
    map text (flush section_name source st) = map (span_text sentences) spans
    /\ Forall (fun sp => (sp.1 < sp.2 <= length sentences)%nat) spans
    /\ forall p : nat,
         (p < length sentences)%nat ->
         exists sp, sp ∈ spans /\ (sp.1 <= p < sp.2)%nat.
Proof.
  intros (spans & a' & Htexts & Hspans & Hrange & Hcur & Hcov) Hbody.
  apply loop_body_exit in Hbody.
  assert (Hcurlen : length (st_current_sentences st) = (st_i st - a')%nat)
    by (rewrite Hcur; apply length_slice; lia).
  unfold flush. destruct (truthy (st_current_sentences st)) eqn:Ht.
  - apply truthy_true in Ht.
    assert (Ha' : (a' < st_i st)%nat).
    { destruct (st_current_sentences st); [done | simpl in Hcurlen; lia]. }
    exists (spans ++ [(a', st_i st)]). rewrite !map_app, Htexts. simpl.
    split; [unfold span_text; simpl; by rewrite Hcur|].
    split; [apply Forall_app; split; [done|]; apply Forall_singleton; simpl; lia|].
    intros p Hp. destruct (Hcov p ltac:(lia)) as [Hin|(sp & Hsp & Hp')].
    + exists (a', st_i st). rewrite elem_of_app, list_elem_of_singleton.
      split; [by right | simpl; lia].
    + exists sp. rewrite elem_of_app. split; [by left | done].
  - apply truthy_false in Ht. rewrite Ht in Hcurlen. simpl in Hcurlen.
    exists spans. split; [done|]. split; [done|].
    intros p Hp. destruct (Hcov p ltac:(lia)) as [Hin|?]; [lia | done].
Qed.

(** **** A section that fits one chunk *)

(** The state in which the first [i] sentences are pending and nothing
    was emitted. *)
Definition pending (start_id : Z) (i : nat) : loop_state :=
  {| st_i := i; st_current_sentences := take i sentences;
     st_current_len := joined_len (take i sentences);
     st_chunks := []; st_chunk_id := start_id |}.

Lemma chunk_loop_accepts_all (start_id : Z) :
  joined_len sentences <= chunk_size \/ length sentences = 1%nat ->
  forall (fuel i : nat),
    (i <= length sentences)%nat -> (length sentences - i < fuel)%nat ->
    loop fuel (pending start_id i) = Done (pending start_id (length sentences)).
Proof.
  intros Hfit fuel. induction fuel as [|fuel IH]; intros i Hi Hfuel; [lia|].
  rewrite chunk_loop_succ. unfold loop_body. simpl st_i.
  destruct (sentences !! i) as [sentence|] eqn:Hs.
  - pose proof (lookup_lt_Some _ _ _ Hs) as Hlt. cbv zeta.
    simpl st_current_len. simpl st_current_sentences.
    assert (Hlen : joined_len (take i sentences) + len sentence
                   + (if truthy (take i sentences) then 1 else 0)
                   = joined_len (take (S i) sentences)).
    { by rewrite (take_S_r _ _ _ Hs), joined_len_snoc. }
    rewrite Hlen.
    assert (Hok : (joined_len (take (S i) sentences) <=? chunk_size)
                  || negb (truthy (take i sentences)) = true).
    { destruct Hfit as [Hfit|Hone].
      - apply orb_true_iff. left. apply Z.leb_le.
        pose proof (joined_len_take sentences (S i)). lia.
      - apply orb_true_iff. right. replace i with 0%nat by lia. done. }
    rewrite Hok. rewrite <- (take_S_r _ _ _ Hs).
    apply (IH (S i)); lia.
  - apply lookup_ge_None in Hs. by replace i with (length sentences) by lia.
Qed.

(** **** Termination without overlap *)

(** A bound on the iterations left when every rewind empties the
    pending chunk. *)
Definition steps_left_empty_seed (st : loop_state) : nat :=
  2 * (length sentences - st_i st)
  + (if truthy (st_current_sentences st) then 1 else 0).

Lemma overlap_seed_nil (l : list string) :
  Forall (fun s => overlap_chars < len s) l -> overlap_seed overlap_chars l = [].
Proof.
  intros Hall.
  destruct (overlap_seed_spec overlap_chars l) as (m & _ & Hseed & [Hnil|Hle] & _);
    [done|].
  destruct (overlap_seed overlap_chars l) as [|s seed]; [done|]. exfalso.
  assert (Hin : s ∈ l).
  { apply (elem_of_sublist (drop m l)); [|apply sublist_drop].
    rewrite <- Hseed. by left. }
  pose proof (proj1 (Forall_forall _ _) Hall s Hin) as Hs. cbv beta in Hs.
  pose proof (joined_len_elem (s :: seed) s ltac:(by left)). lia.
Qed.

Lemma chunk_loop_terminates_empty_seed :
  Forall (fun s => overlap_chars < len s) sentences ->
  forall (fuel : nat) (st : loop_state),
    Forall (fun s => overlap_chars < len s) (st_current_sentences st) ->
    (steps_left_empty_seed st < fuel)%nat ->
    exists st', loop fuel st = Done st'.
Proof.
  intros Hlong fuel. induction fuel as [|fuel IH]; intros st Hcur Hsteps; [lia|].
  rewrite chunk_loop_succ. destruct (body st) as [st1|] eqn:Hbody; [|eauto].
  destruct (loop_body_cases _ _ _ _ _ _ _ Hbody) as (sentence & Hs & Hcase).
  pose proof (lookup_lt_Some _ _ _ Hs) as Hlt.
  destruct Hcase as [[_ ->]|(_ & Hne & ->)]; apply IH; simpl.
  - apply Forall_app. split; [done|]. apply Forall_singleton.
    apply (proj1 (Forall_forall _ _) Hlong). by eapply list_elem_of_lookup_2.
  - unfold steps_left_empty_seed in *. simpl. rewrite truthy_app. simpl.
    rewrite orb_true_r. destruct (truthy (st_current_sentences st)); lia.
  - by rewrite overlap_seed_nil.
  - unfold steps_left_empty_seed in *. simpl. rewrite overlap_seed_nil by done.
    apply truthy_true in Hne. rewrite Hne in Hsteps. simpl. lia.
Qed.

End LoopMore.

(** *** More on [chunk_section] *)

(** X3.  [chunk_section] returns the empty list exactly when the
    section text is blank (empty or white space only). *)
Theorem chunk_section_blank (self : SectionChunker) (fuel : nat)
    (section_text section_name source : string) (start_id : Z)
    (effective_chunk_size : option Z) :
  chunk_section self fuel section_text section_name source start_id
    effective_chunk_size = Done []
  <-> strip section_text = "".
Proof.
  rewrite <- split_sentences_nil. unfold chunk_section.
  destruct (_split_sentences section_text) as [|s rest] eqn:Hsplit;
    simpl truthy; simpl negb; cbv iota zeta; [done|].
  split; [|done].
  destruct (overlap_budget _ _) as [overlap_chars|]; [|done].
  match goal with
  | |- context [chunk_loop ?ss ?n ?src ?cs ?oc fuel ?st] =>
      pose proof (chunk_loop_invariant ss n src cs oc _
                    (started_inv_step ss n src cs oc) fuel st
                    (or_introl eq_refl)) as Hinv;
      destruct (chunk_loop ss n src cs oc fuel st) as [st'|st'|st'] eqn:Hrun;
      [|done|done]
  end.
  intros [= Hflush]. exfalso. simpl in Hinv.
  apply chunk_loop_done, loop_body_exit in Hrun. simpl in Hrun.
  unfold flush in Hflush.
  destruct Hinv as [Hi|[Hcur|Hchunks]]; [lia | |].
  - apply truthy_true in Hcur. rewrite Hcur in Hflush.
    by destruct (st_chunks st').
  - destruct (truthy (st_current_sentences st')); [|done].
    by destruct (st_chunks st').
Qed.

Lemma chunk_section_labelled (self : SectionChunker) (fuel : nat)
    (section_text section_name source : string) (start_id : Z)
    (effective_chunk_size : option Z) :
  Forall (labelled section_name source)
    (reached
       (chunk_section self fuel section_text section_name source start_id
          effective_chunk_size)).
Proof.
  unfold chunk_section.
  destruct (truthy (_split_sentences section_text)); simpl negb; cbv iota zeta;
    [|by constructor].
  destruct (overlap_budget _ _) as [overlap_chars|]; [|by constructor].
  match goal with
  | |- context [chunk_loop ?ss ?n ?src ?cs ?oc fuel ?st] =>
      pose proof (chunk_loop_invariant ss n src cs oc _
                    (label_inv_step ss n src cs oc
                       (split_sentences_len section_text)) fuel st) as Hinv;
      destruct (chunk_loop ss n src cs oc fuel st) as [st'|st'|st']
  end; simpl in *.
  - apply label_inv_flush, Hinv. by split.
  - apply Hinv. by split.
  - apply Hinv. by split.
Qed.

(** X4.  Every chunk that [chunk_section] emits, whether it has left
    its loop or not, carries the section name and the source it was
    called with, and a text that is not empty. *)
Theorem chunk_section_labels (self : SectionChunker) (fuel : nat)
    (section_text section_name source : string) (start_id : Z)
    (effective_chunk_size : option Z) :
  Forall
    (fun c =>
       section c = section_name /\ Chunker.source c = source /\ text c <> "")
    (reached
       (chunk_section self fuel section_text section_name source start_id
          effective_chunk_size)).
Proof. apply chunk_section_labelled. Qed.

(** X5.  Whenever [chunk_section] returns, its chunks join runs of
    consecutive sentences, and every sentence of the section lies in
    the run of at least one chunk: no sentence is dropped. *)
Theorem chunk_section_covers (self : SectionChunker) (fuel : nat)
    (section_text section_name source : string) (start_id : Z)
    (effective_chunk_size : option Z) (out : list Chunk) :
  let sentences := _split_sentences section_text in
  chunk_section self fuel section_text section_name source start_id
    effective_chunk_size = Done out ->
  exists spans : list (nat * nat),
    map text out = map (fun sp => join (slice sentences sp.1 sp.2)) spans
    /\ Forall (fun sp => (sp.1 < sp.2 <= length sentences)%nat) spans
    /\ forall p : nat,
         (p < length sentences)%nat ->
         exists sp, sp ∈ spans /\ (sp.1 <= p < sp.2)%nat.
Proof.
  intros sentences. unfold chunk_section. fold sentences.
  destruct (truthy sentences) eqn:Ht; simpl negb; cbv iota zeta.
  2:{ intros [= <-]. exists []. split; [done|]. split; [constructor|].
      apply truthy_false in Ht. rewrite Ht. simpl. intros p Hp. lia. }
  destruct (overlap_budget _ _) as [overlap_chars|]; [|done].
  match goal with
  | |- context [chunk_loop ?ss ?n ?src ?cs ?oc fuel ?st] =>
      pose proof (chunk_loop_invariant ss n src cs oc _
                    (cover_inv_step ss n src cs oc) fuel st
                    (cover_inv_initial ss start_id)) as Hinv;
      destruct (chunk_loop ss n src cs oc fuel st) as [st'|st'|st'] eqn:Hrun;
      [|done|done]
  end.
  intros [= <-]. simpl in Hinv. apply chunk_loop_done in Hrun.
  exact (cover_inv_flush _ _ _ _ _ _ Hinv Hrun).
Qed.

Lemma chunk_section_covers_witness :
  exists (out : list Chunk) (spans : list (nat * nat)),
    chunk_section overlapping_chunker 10 "Aaaa bbbb. Cc dd. Eeeeeee ffffff ggg."
      "Body" "paper.pdf" 0 None = Done out
    /\ map text out = ["Aaaa bbbb. Cc dd."; "Cc dd. Eeeeeee ffffff ggg."]
    /\ forall p : nat,
         (p < 3)%nat -> exists sp, sp ∈ spans /\ (sp.1 <= p < sp.2)%nat.
Proof.
  destruct (chunk_section_covers overlapping_chunker 10
              "Aaaa bbbb. Cc dd. Eeeeeee ffffff ggg." "Body" "paper.pdf" 0 None
              _ eq_refl) as (spans & _ & _ & Hcover).
  eexists _, spans. split; [reflexivity|]. split; [reflexivity|]. exact Hcover.
Defined.

Lemma chunk_section_single (self : SectionChunker) (fuel : nat)
    (section_text section_name source : string) (start_id : Z)
    (effective_chunk_size : option Z) :
  let sentences := _split_sentences section_text in
  let size := default (chunk_size self) effective_chunk_size in
  sentences <> [] ->
  joined_len sentences <= size \/ length sentences = 1%nat ->
  (length sentences < fuel)%nat ->
  chunk_section self fuel section_text section_name source start_id
    effective_chunk_size
  = match overlap_budget size (overlap_ratio self) with
    | Some _ => Done [Build_Chunk (join sentences) section_name source start_id]
    | None => Raised []
    end.
Proof.
  intros sentences size Hne Hfit Hfuel. unfold chunk_section.
  fold sentences size.
  apply truthy_true in Hne as Ht. rewrite Ht. simpl negb. cbv iota zeta.
  destruct (overlap_budget size (overlap_ratio self)) as [overlap_chars|];
    [|done].
  change (initial_state start_id) with (pending sentences start_id 0).
  rewrite chunk_loop_accepts_all by (done || lia).
  unfold flush, pending. simpl. by rewrite firstn_all, Ht.
Qed.

(** X6.  A section whose sentences fit the budget together (or that is
    a single sentence) gives exactly one chunk: all its sentences joined
    by single spaces, with the identifier [start_id].  The overlap
    budget is computed before the loop although it is not used here:
    when [int(chunk_size * overlap_ratio)] raises, so does
    [chunk_section], before any chunk. *)
Theorem chunk_section_single_chunk (self : SectionChunker) (fuel : nat)
    (section_text section_name source : string) (start_id : Z)
    (effective_chunk_size : option Z) :
  let sentences := _split_sentences section_text in
  let size := default (chunk_size self) effective_chunk_size in
  strip section_text <> "" ->
  joined_len sentences <= size \/ length sentences = 1%nat ->
  (length sentences < fuel)%nat ->
  chunk_section self fuel section_text section_name source start_id
    effective_chunk_size
  = match overlap_budget size (overlap_ratio self) with
    | Some _ => Done [Build_Chunk (join sentences) section_name source start_id]
    | None => Raised []
    end.
Proof.
  intros sentences size Hblank. apply chunk_section_single.
  intros Hnil. by apply split_sentences_nil in Hnil.
Qed.

Lemma chunk_section_single_chunk_witness :
  chunk_section default_chunker 3 "One two. Three." "Abstract" "paper.pdf" 7
    None
  = Done [Build_Chunk "One two. Three." "Abstract" "paper.pdf" 7].
Proof.
  apply (chunk_section_single_chunk default_chunker 3 "One two. Three."
           "Abstract" "paper.pdf" 7 None).
  - by vm_compute.
  - left. by vm_compute.
  - vm_compute. lia.
Defined.

(** A chunker without overlap. *)
Definition disjoint_chunker : SectionChunker :=
  {| chunk_size := 20; overlap_ratio := float_zero |}.

Lemma chunk_section_done_empty_seed (self : SectionChunker)
    (fuel : nat) (section_text section_name source : string) (start_id : Z)
    (effective_chunk_size : option Z) (overlap_chars : Z) :
  overlap_budget (default (chunk_size self) effective_chunk_size)
    (overlap_ratio self) = Some overlap_chars ->
  overlap_chars <= 0 ->
  (2 * length (_split_sentences section_text) < fuel)%nat ->
  exists out : list Chunk,
    chunk_section self fuel section_text section_name source start_id
      effective_chunk_size = Done out.
Proof.
  intros Hbudget Hoc Hfuel. unfold chunk_section. rewrite Hbudget.
  destruct (truthy (_split_sentences section_text)); simpl negb; cbv iota zeta;
    [|eauto].
  assert (Hlong : Forall (fun s => overlap_chars < len s)
                    (_split_sentences section_text)).
  { eapply List.Forall_impl; [|apply split_sentences_len].
    intros s Hs. simpl in *. lia. }
  destruct (chunk_loop_terminates_empty_seed (_split_sentences section_text)
              section_name source
              (default (chunk_size self) effective_chunk_size) _ Hlong fuel
              (initial_state start_id))
    as [st' Hrun];
    [by apply Forall_nil | unfold steps_left_empty_seed; simpl; lia |].
  rewrite Hrun. eauto.
Qed.

(** X7.  Without overlap (the budget [int(chunk_size * overlap_ratio)],
    computed as the code does from the rounded product, is a number and
    is at most 0) the loop of [chunk_section] is always left: it returns
    within two iterations per sentence, and for every larger iteration
    budget. *)
Theorem chunk_section_returns_without_overlap (self : SectionChunker)
    (fuel : nat) (section_text section_name source : string) (start_id : Z)
    (effective_chunk_size : option Z) (overlap_chars : Z) :
  let size := default (chunk_size self) effective_chunk_size in
  overlap_budget size (overlap_ratio self) = Some overlap_chars ->
  overlap_chars <= 0 ->
  (2 * length (_split_sentences section_text) < fuel)%nat ->
  exists out : list Chunk,
    chunk_section self fuel section_text section_name source start_id
      effective_chunk_size = Done out.
Proof. intros size. apply chunk_section_done_empty_seed. Qed.

Lemma chunk_section_returns_without_overlap_witness :
  exists out : list Chunk,
    chunk_section disjoint_chunker 5 "Aaaa. Bbbbbbbbbbbbbbbbbbbbbbbbb." "Body"
      "paper.pdf" 0 None = Done out.
Proof.
  apply (chunk_section_returns_without_overlap disjoint_chunker 5
           "Aaaa. Bbbbbbbbbbbbbbbbbbbbbbbbb." "Body" "paper.pdf" 0 None 0).
  - reflexivity.
  - lia.
  - vm_compute. lia.
Defined.

(** With a budget of 1 the same loop is not left: a third of 3 is
    rounded to [1.0], the sentence ["."] fits that budget, and on
    [". Hello world."] the chunk ["."] is emitted on every iteration. *)
Example chunk_section_stalls_third :
  forall fuel : nat,
  exists appended : list Chunk,
    chunk_section {| chunk_size := 3; overlap_ratio := float_third |} fuel
      ". Hello world." "Body" "paper.pdf" 0 None = OutOfFuel appended
    /\ length appended = (fuel - 1)%nat
    /\ Forall (fun c => text c = ".") appended.
Proof.
  intros fuel. unfold chunk_section.
  change (_split_sentences ". Hello world.") with ["."; "Hello world."].
  change (overlap_budget _ _) with (Some 1).
  simpl negb. cbv iota zeta. simpl default.
  destruct fuel as [|fuel]; [exists []; by repeat split|].
  simpl chunk_loop.
  match goal with
  | |- context [chunk_loop ?ss ?n ?src ?cs ?oc fuel ?st] =>
      destruct (chunk_loop_stalls ss n src cs oc fuel st "Hello world.")
        as (st' & again & Hrun & Hchunks & Hlen & Hall);
      [done | done | done | by vm_compute | by vm_compute |]
  end.
  rewrite Hrun. exists again. simpl in Hchunks. rewrite Hchunks.
  repeat split; [lia | done].
Qed.

(** X8.  When every sentence still fits after a full overlap seed
    ([overlap_chars + 1 + len(sentence) <= chunk_size], with
    [overlap_chars] the budget [int(chunk_size * overlap_ratio)] that
    the code computes from the rounded product), the loop of
    [chunk_section] is left: it returns within two iterations per
    sentence, and for every larger iteration budget. *)
Theorem chunk_section_returns_when_sentences_fit (self : SectionChunker)
    (fuel : nat) (section_text section_name source : string) (start_id : Z)
    (effective_chunk_size : option Z) (overlap_chars : Z) :
  let sentences := _split_sentences section_text in
  let size := default (chunk_size self) effective_chunk_size in
  overlap_budget size (overlap_ratio self) = Some overlap_chars ->
  Forall (fun s => overlap_chars + 1 + len s <= size) sentences ->
  (2 * length sentences < fuel)%nat ->
  exists out : list Chunk,
    chunk_section self fuel section_text section_name source start_id
      effective_chunk_size = Done out.
Proof.
  intros sentences size Hbudget Hfit Hfuel.
  apply (chunk_section_terminates self fuel section_text section_name source
           start_id effective_chunk_size overlap_chars Hbudget); [|done].
  intros s Hs. by apply (proj1 (Forall_forall _ _) Hfit).
Qed.

Lemma chunk_section_returns_when_sentences_fit_witness :
  exists out : list Chunk,
    chunk_section overlapping_chunker 7 "Aaaa bbbb. Cc dd. Eeeeeee ffffff ggg."
      "Body" "paper.pdf" 0 None = Done out.
Proof.
  apply (chunk_section_returns_when_sentences_fit overlapping_chunker 7
           "Aaaa bbbb. Cc dd. Eeeeeee ffffff ggg." "Body" "paper.pdf" 0 None
           10).
  - reflexivity.
  - apply (bool_decide_unpack _). by vm_compute.
  - vm_compute. lia.
Defined.

(** With the default configuration the budget is 60, not 59: a
    sentence of 60 characters is kept as the seed, a following one of
    440 characters does not fit after it ([60 + 440 + 1 > 500]), and the
    loop is not left. *)
Definition sentence_60 : string :=
  (String.concat "" (repeat "a" 59) +:+ ".")%string.

Definition sentence_440 : string :=
  (String.concat "" (repeat "b" 439) +:+ ".")%string.

Example chunk_section_stalls_sixty :
  len sentence_60 = 60 /\ len sentence_440 = 440
  /\ forall fuel : nat,
     exists appended : list Chunk,
       chunk_section default_chunker fuel
         (sentence_60 +:+ " " +:+ sentence_440)%string
         "Body" "paper.pdf" 0 None = OutOfFuel appended
       /\ length appended = (fuel - 1)%nat.
Proof.
  split; [by vm_compute|]. split; [by vm_compute|].
  intros fuel. unfold chunk_section.
  assert (Hsplit : _split_sentences (sentence_60 +:+ " " +:+ sentence_440)%string
                   = [sentence_60; sentence_440]) by (by vm_compute).
  rewrite Hsplit.
  change (overlap_budget _ _) with (Some 60).
  simpl negb. cbv iota zeta. simpl default.
  destruct fuel as [|fuel]; [exists []; by repeat split|].
  assert (Hfirst :
            loop_body [sentence_60; sentence_440] "Body" "paper.pdf" 500 60
              (initial_state 0)
            = Some (accepted (initial_state 0) sentence_60)) by (by vm_compute).
  rewrite chunk_loop_succ, Hfirst.
  destruct (chunk_loop_stalls [sentence_60; sentence_440] "Body" "paper.pdf"
              500 60 fuel (accepted (initial_state 0) sentence_60) sentence_440)
    as (st' & again & Hrun & Hchunks & Hlen & _);
    [done | done | done | by vm_compute | by vm_compute |].
  rewrite Hrun. exists again. simpl in Hchunks. rewrite Hchunks.
  split; [done | lia].
Qed.

(** X9.  Whenever [chunk_section] returns, it has emitted at most one
    chunk per sentence. *)
Theorem chunk_section_count (self : SectionChunker) (fuel : nat)
    (section_text section_name source : string) (start_id : Z)
    (effective_chunk_size : option Z) (out : list Chunk) :
  chunk_section self fuel section_text section_name source start_id
    effective_chunk_size = Done out ->
  (length out <= length (_split_sentences section_text))%nat.
Proof.
  unfold chunk_section.
  destruct (truthy (_split_sentences section_text)); simpl negb; cbv iota zeta.
  2:{ intros [= <-]. simpl. lia. }
  destruct (overlap_budget _ _) as [overlap_chars|]; [|done].
  match goal with
  | |- context [chunk_loop ?ss ?n ?src ?cs ?oc fuel ?st] =>
      pose proof (chunk_loop_invariant ss n src cs oc _
                    (overlap_inv_step ss n src cs oc) fuel st
                    (or_introl (overlap_inv_initial ss cs oc start_id)))
        as Hinv;
      destruct (chunk_loop ss n src cs oc fuel st) as [st'|st'|st'] eqn:Hrun;
      [|done|done]
  end.
  intros [= <-]. simpl in Hinv.
  pose proof (chunk_loop_done _ _ _ _ _ _ _ _ Hrun) as Hexit.
  destruct Hinv as [Hinv|Hstalled].
  2:{ destruct (Hstalled 1%nat) as [st'' Hst''].
      rewrite chunk_loop_succ, Hexit in Hst''. done. }
  destruct (overlap_inv_flush _ section_name source _ _ _ Hinv Hexit)
    as (spans & Htexts & Hspans & Hchain).
  apply (f_equal length) in Htexts. rewrite !length_map in Htexts.
  rewrite Htexts.
  assert (Hgrow : forall (k : nat) (sp : nat * nat),
             spans !! k = Some sp -> (k < sp.2)%nat).
  { induction k as [|k IH]; intros sp Hk.
    - pose proof (proj1 (Forall_forall _ _) Hspans sp
                    ltac:(by eapply list_elem_of_lookup_2)). simpl in *. lia.
    - destruct (lookup_lt_is_Some_2 spans k) as [sp0 Hk0];
        [apply lookup_lt_Some in Hk; lia|].
      destruct (Hchain k sp0 sp Hk0 Hk) as (_ & Hlt & _).
      specialize (IH sp0 Hk0). lia. }
  destruct (last spans) as [sp|] eqn:Hlast.
  - rewrite last_lookup in Hlast. pose proof (Hgrow _ _ Hlast).
    pose proof (proj1 (Forall_forall _ _) Hspans sp
                  ltac:(by eapply list_elem_of_lookup_2)). simpl in *. lia.
  - apply last_None in Hlast. rewrite Hlast. simpl. lia.
Qed.

Lemma chunk_section_count_witness :
  exists out : list Chunk,
    chunk_section overlapping_chunker 10 "Aaaa bbbb. Cc dd. Eeeeeee ffffff ggg."
      "Body" "paper.pdf" 0 None = Done out
    /\ (length out <= 3)%nat.
Proof.
  eexists. split; [reflexivity|].
  apply (chunk_section_count overlapping_chunker 10
           "Aaaa bbbb. Cc dd. Eeeeeee ffffff ggg." "Body" "paper.pdf" 0 None).
  reflexivity.
Defined.

(** *** The budget of each section of a paper *)

(** A paper whose Abstract holds two sentences of 1050 characters, and
    what [finditer] returns on it: the Abstract header at [0, 8). *)
Definition wide_sentence : string :=
  (String.concat "" (repeat "a" 1049) +:+ ".")%string.

Definition abstract_paper : string :=
  ("Abstract" +:+ newline +:+ wide_sentence +:+ " " +:+ wide_sentence)%string.

Definition abstract_finditer (pattern text : string) : list (nat * nat) :=
  if String.eqb pattern "^[\s]*(?:abstract)[\s]*$" then [(0, 8)%nat] else [].

(** C9 (amended).  [chunk_paper] chunks every section it gets to with
    the budget of its name.  For a section named in the override table
    (Abstract, Methods, Methodology, Results) that is the entry of the
    table, 2000, 1000 or 800, whatever the configured [chunk_size]: it
    is above [DEFAULT_CHUNK_SIZE] (500, also the default of
    [chunk_size]) and so larger than the configured [chunk_size] when
    that is at most 500, but not in general.  For every other section it
    is the configured [chunk_size].  The budget is the one the chunks
    obey: every chunk of the section joins consecutive sentences and is
    no longer than the budget unless it is a single sentence, and a
    section whose sentences fit the budget together is one chunk
    (provided the overlap budget can be computed and the iteration
    budget is enough).  [outs] lists the chunks contributed by each
    section; every section is there when [chunk_paper] returns. *)
Theorem chunk_paper_section_budgets
    (finditer : string -> string -> list (nat * nat))
    (self : SectionChunker) (fuel : nat) (text source : string) :
  exists outs : list (list Chunk),
    reached (chunk_paper finditer self fuel text source) = concat outs
    /\ (length outs <= length (detect_sections finditer text))%nat
    /\ (is_done (chunk_paper finditer self fuel text source)
        -> length outs = length (detect_sections finditer text))
    /\ (forall (k : nat) (sec : SectionDict) (o : list Chunk),
          detect_sections finditer text !! k = Some sec -> outs !! k = Some o ->
          let budget := section_budget self (sec_name sec) in
          let sentences := _split_sentences (sec_text sec) in
          let start_id := Z.of_nat (length (concat (take k outs))) in
          reached
            (chunk_section self fuel (sec_text sec) (sec_name sec) source
               start_id (Some budget)) = o
          /\ Forall (within_budget sentences budget) o
          /\ (overlap_budget budget (overlap_ratio self) <> None ->
              sentences <> [] -> joined_len sentences <= budget ->
              (length sentences < fuel)%nat ->
              o = [Build_Chunk (join sentences) (sec_name sec) source
                     start_id]))
    /\ (forall name : string,
          name ∈ override_names ->
          SECTION_CHUNK_SIZES !! name = Some (section_budget self name)
          /\ section_budget self name ∈ [2000; 1000; 800]
          /\ DEFAULT_CHUNK_SIZE < section_budget self name
          /\ (chunk_size self <= DEFAULT_CHUNK_SIZE
              -> chunk_size self < section_budget self name))
    /\ (forall name : string,
          name ∉ override_names -> section_budget self name = chunk_size self).
Proof.
  unfold chunk_paper.
  destruct (chunk_sections_decompose self fuel source
              (detect_sections finditer text) [] 0)
    as (outs & Hout & Hlen & Hdone & Hk).
  exists outs. split; [exact Hout|]. split; [exact Hlen|]. split; [exact Hdone|].
  split; [|split].
  - intros k sec o Hs Ho. specialize (Hk k sec o Hs Ho).
    rewrite Z.add_0_l, effective_size_budget in Hk.
    split; [exact Hk|]. split.
    + rewrite <- Hk.
      apply (chunk_section_size_bound self fuel (sec_text sec) (sec_name sec)
               source _ (Some (section_budget self (sec_name sec)))).
    + intros Hbudget Hne Hfit Hfuel. rewrite <- Hk.
      rewrite chunk_section_single by (done || by left).
      simpl default.
      by destruct (overlap_budget (section_budget self (sec_name sec))
                     (overlap_ratio self)).
  - intros name Hin.
    destruct (section_budget_override self name Hin) as (Hlook & Hval & Hgt).
    split; [done|]. split; [done|]. split; [done | lia].
  - apply section_budget_other.
Qed.

(** The entries of the table are fixed, so the budget of a section in
    the table is not always the larger one: a chunker configured with a
    [chunk_size] of 3000 chunks the sections outside the table with 3000
    and the Abstract with 2000.  An Abstract of two sentences of 1050
    characters, 2101 characters together, comes out as two chunks. *)
Example wide_chunker_budgets :
  chunk_size wide_chunker = 3000
  /\ effective_size wide_chunker "Full Text" = 3000
  /\ effective_size wide_chunker "Abstract" = 2000
  /\ ~ chunk_size wide_chunker < effective_size wide_chunker "Abstract"
  /\ detect_sections abstract_finditer abstract_paper
     = [{| sec_name := "Abstract";
           sec_text := (wide_sentence +:+ " " +:+ wide_sentence)%string |}]
  /\ joined_len [wide_sentence; wide_sentence] = 2101
  /\ chunk_paper abstract_finditer wide_chunker 9 abstract_paper "paper.pdf"
     = Done [Build_Chunk wide_sentence "Abstract" "paper.pdf" 0;
             Build_Chunk wide_sentence "Abstract" "paper.pdf" 1].
Proof. repeat split; by vm_compute. Qed.

(** *** More on [detect_sections] and [chunk_paper] *)

(** The canonical names of [_SECTION_PATTERNS]. *)
Definition header_names : list string :=
  ["Abstract"; "Introduction"; "Background"; "Related Work"; "Methods";
   "Results"; "Discussion"; "Conclusion"; "Limitations"; "References"].

(** A section text that was kept: stripped and not empty. *)
Definition trimmed (s : string) : Prop := s <> "" /\ strip s = s.

Section DetectMore.

Variable finditer : string -> string -> list (nat * nat).

Lemma collect_matches_names (text : string) :
  Forall (fun m => m.2 ∈ header_names) (collect_matches finditer text).
Proof.
  unfold collect_matches. apply Forall_flat_map.
  assert (Hnames : Forall (fun p => p.2 ∈ header_names) _SECTION_PATTERNS).
  { unfold header_names, _SECTION_PATTERNS.
    repeat (constructor; [simpl; set_solver|]). constructor. }
  eapply List.Forall_impl; [|exact Hnames].
  intros [pattern name] Hin. simpl in Hin.
  apply Forall_forall. intros m Hm. apply list_elem_of_fmap in Hm as ([a b] & -> & _).
  done.
Qed.

Lemma insert_by_start_perm (t : nat * nat * string) (l : list (nat * nat * string)) :
  insert_by_start t l ≡ₚ t :: l.
Proof.
  induction l as [|u l IH]; simpl; [done|].
  destruct (t.1.1 <=? u.1.1)%nat; [done|].
  by rewrite IH, Permutation_swap.
Qed.

Lemma sort_by_start_perm (l : list (nat * nat * string)) : sort_by_start l ≡ₚ l.
Proof.
  induction l as [|t l IH]; simpl; [done|].
  by rewrite insert_by_start_perm, IH.
Qed.

Lemma section_bodies_spec (text : string) (matches : list (nat * nat * string)) :
  Forall (fun m => m.2 ∈ header_names) matches ->
  Forall (fun sec => sec_name sec ∈ header_names /\ trimmed (sec_text sec))
    (section_bodies text matches)
  /\ (length (section_bodies text matches) <= length matches)%nat.
Proof.
  induction 1 as [|[[m_start m_end] name] rest Hname _ [IHall IHlen]]; simpl.
  - split; [constructor | lia].
  - match goal with
    | |- context [nonempty ?content] => destruct (nonempty content) eqn:Hc
    end; simpl.
    + split; [|lia]. constructor; [|done]. simpl. split; [done|].
      split; [by apply nonempty_true | apply strip_idemp].
    + split; [done | lia].
Qed.

Lemma detect_sections_spec (text : string) :
  collect_matches finditer text <> [] ->
  exists (pre : list SectionDict),
    detect_sections finditer text
    = pre ++ section_bodies text (sort_by_start (collect_matches finditer text))
    /\ (pre = []
        \/ exists t, trimmed t
                     /\ pre = [{| sec_name := "Preamble"; sec_text := t |}]).
Proof.
  intros Hne. unfold detect_sections.
  destruct (collect_matches finditer text) as [|m ms] eqn:Hm; [done|].
  match goal with
  | |- context [nonempty ?pre_text] => destruct (nonempty pre_text) eqn:Hp
  end.
  - eexists. split; [reflexivity|]. right. eexists. split; [|reflexivity].
    destruct (sort_by_start (m :: ms)) as [|[[first_start ?] ?] ?];
      [done|].
    split; [by apply nonempty_true | apply strip_idemp].
  - exists []. split; [reflexivity | by left].
Qed.

End DetectMore.

(** X10.  When at least one header matches, every section that
    [detect_sections] returns has a text that is not empty and is
    stripped of leading and trailing white space. *)
Theorem detect_sections_texts
    (finditer : string -> string -> list (nat * nat)) (text : string) :
  collect_matches finditer text <> [] ->
  Forall (fun sec => sec_text sec <> "" /\ strip (sec_text sec) = sec_text sec)
    (detect_sections finditer text).
Proof.
  intros Hne.
  destruct (detect_sections_spec finditer text Hne) as (pre & -> & Hpre).
  apply Forall_app. split.
  - destruct Hpre as [->|(t & Ht & ->)]; [constructor|].
    by apply Forall_singleton.
  - destruct (section_bodies_spec text
                (sort_by_start (collect_matches finditer text))) as [Hall _].
    + rewrite sort_by_start_perm. apply collect_matches_names.
    + eapply List.Forall_impl; [|exact Hall]. by intros sec [_ Ht].
Qed.

Lemma detect_sections_texts_witness :
  Forall (fun sec => sec_text sec <> "" /\ strip (sec_text sec) = sec_text sec)
    (detect_sections two_section_finditer two_section_paper).
Proof.
  apply (detect_sections_texts two_section_finditer two_section_paper).
  by vm_compute.
Defined.

(** X11.  Every section that [detect_sections] returns is named
    ["Full Text"], ["Preamble"] or with one of the ten canonical names
    of the header patterns; ["Full Text"] and ["Preamble"] can only be
    the first section; and there is at most one section per header
    match, plus one. *)
Theorem detect_sections_names
    (finditer : string -> string -> list (nat * nat)) (text : string) :
  Forall
    (fun sec => sec_name sec ∈ "Full Text" :: "Preamble" :: header_names)
    (detect_sections finditer text)
  /\ (forall (k : nat) (sec : SectionDict),
        detect_sections finditer text !! k = Some sec ->
        sec_name sec = "Full Text" \/ sec_name sec = "Preamble" -> k = 0%nat)
  /\ (length (detect_sections finditer text)
      <= S (length (collect_matches finditer text)))%nat.
Proof.
  destruct (decide (collect_matches finditer text = [])) as [Hnil|Hne].
  { unfold detect_sections. rewrite Hnil. simpl. split; [|split; [|lia]].
    - apply Forall_singleton. simpl. by left.
    - intros [|k] sec; [done|]. simpl. by rewrite lookup_nil. }
  destruct (detect_sections_spec finditer text Hne) as (pre & -> & Hpre).
  destruct (section_bodies_spec text
              (sort_by_start (collect_matches finditer text))) as [Hall Hlen].
  { rewrite sort_by_start_perm. apply collect_matches_names. }
  rewrite (Permutation_length (sort_by_start_perm _)) in Hlen.
  assert (Hbody : forall sec,
             sec ∈ section_bodies text
                     (sort_by_start (collect_matches finditer text)) ->
             sec_name sec ∈ header_names).
  { intros sec Hsec. by apply (proj1 (Forall_forall _ _) Hall sec Hsec). }
  assert (Hnot : forall name, name ∈ header_names ->
                              name <> "Full Text" /\ name <> "Preamble").
  { unfold header_names. intros name Hname.
    repeat (apply elem_of_cons in Hname as [->|Hname]; [done|]).
    by apply elem_of_nil in Hname. }
  split; [|split].
  - apply Forall_app. split.
    + destruct Hpre as [->|(t & _ & ->)]; [constructor|].
      apply Forall_singleton. simpl. right. by left.
    + apply Forall_forall. intros sec Hsec. do 2 right. by apply Hbody.
  - intros k sec Hk Hname.
    destruct (decide (k < length pre)%nat) as [Hlt|Hge].
    + destruct Hpre as [->|(t & _ & ->)]; simpl in Hlt; lia.
    + rewrite lookup_app_r in Hk by lia.
      apply list_elem_of_lookup_2, Hbody, Hnot in Hk. destruct Hname; tauto.
  - rewrite length_app.
    destruct Hpre as [->|(t & _ & ->)]; simpl; lia.
Qed.

(** *** [chunk_paper] *)

Lemma effective_size_full_text (self : SectionChunker) :
  effective_size self "Full Text" = chunk_size self.
Proof. reflexivity. Qed.

(** X12.  On a text in which no header pattern matches, [chunk_paper]
    is [chunk_section] applied to the whole text under the section name
    ["Full Text"], with the configured [chunk_size] and identifiers
    starting at 0. *)
Theorem chunk_paper_no_header
    (finditer : string -> string -> list (nat * nat))
    (self : SectionChunker) (fuel : nat) (text source : string) :
  (forall pattern name,
      In (pattern, name) _SECTION_PATTERNS -> finditer pattern text = []) ->
  chunk_paper finditer self fuel text source
  = chunk_section self fuel text "Full Text" source 0 None.
Proof.
  intros Hnone. unfold chunk_paper, detect_sections.
  assert (Hempty : collect_matches finditer text = []).
  { unfold collect_matches. apply flat_map_all_nil.
    intros [pattern name] Hin. by rewrite (Hnone pattern name). }
  rewrite Hempty. simpl chunk_sections. rewrite effective_size_full_text.
  assert (Hsame : chunk_section self fuel text "Full Text" source 0
                    (Some (chunk_size self))
                  = chunk_section self fuel text "Full Text" source 0 None)
    by reflexivity.
  rewrite Hsame. by destruct (chunk_section self fuel text "Full Text" source 0 None).
Qed.

Lemma chunk_paper_no_header_witness :
  chunk_paper no_header_finditer default_chunker 5
    "No headers here. Only prose." "paper.pdf"
  = chunk_section default_chunker 5 "No headers here. Only prose." "Full Text"
      "paper.pdf" 0 None.
Proof.
  apply (chunk_paper_no_header no_header_finditer default_chunker 5
           "No headers here. Only prose." "paper.pdf").
  intros pattern name _. reflexivity.
Defined.

Lemma chunk_sections_labelled (self : SectionChunker) (fuel : nat)
    (source : string) (P : Chunk -> Prop) (sections : list SectionDict)
    (all_chunks : list Chunk) (running_id : Z) :
  (forall sec c, sec ∈ sections ->
                 labelled (sec_name sec) source c -> P c) ->
  Forall P all_chunks ->
  Forall P (reached (chunk_sections self fuel source sections all_chunks
                       running_id)).
Proof.
  revert all_chunks running_id.
  induction sections as [|sec sections IH]; intros all_chunks running_id HP Hall;
    simpl; [done|].
  pose proof (chunk_section_labelled self fuel (sec_text sec) (sec_name sec)
                source running_id (Some (effective_size self (sec_name sec))))
    as Hsec.
  assert (Hnew : Forall P
                   (reached
                      (chunk_section self fuel (sec_text sec) (sec_name sec)
                         source running_id
                         (Some (effective_size self (sec_name sec)))))).
  { eapply List.Forall_impl; [|exact Hsec]. intros c. apply HP. by left. }
  destruct (chunk_section self fuel (sec_text sec) (sec_name sec) source
              running_id (Some (effective_size self (sec_name sec))))
    as [new_chunks|new_chunks|new_chunks]; simpl in *.
  - apply IH.
    + intros sec' c Hin. apply HP. by right.
    + apply Forall_app. by split.
  - apply Forall_app. by split.
  - apply Forall_app. by split.
Qed.

(** X13.  Every chunk that [chunk_paper] emits carries the source it
    was called with, the name of one of the sections that
    [detect_sections] found, and a text that is not empty. *)
Theorem chunk_paper_labels (finditer : string -> string -> list (nat * nat))
    (self : SectionChunker) (fuel : nat) (text source : string) :
  Forall
    (fun c =>
       Chunker.source c = source /\ Chunker.text c <> ""
       /\ exists sec, sec ∈ detect_sections finditer text
                      /\ section c = sec_name sec)
    (reached (chunk_paper finditer self fuel text source)).
Proof.
  unfold chunk_paper. apply chunk_sections_labelled; [|constructor].
  intros sec c Hsec (Hname & Hsrc & Htext). eauto.
Qed.

(** *** Sentences hold no boundary *)

(** The string contains a sentence boundary: one of [.], [!], [?]
    followed by white space. *)
Fixpoint has_boundary (s : string) : bool :=
  match s with
  | String c (String d _ as s') => (is_mark c && isspace d) || has_boundary s'
  | _ => false
  end.

(** The same on a list of characters. *)
Fixpoint boundary_in (l : list ascii) : bool :=
  match l with
  | c :: (d :: _) as l' => (is_mark c && isspace d) || boundary_in l'
  | _ => false
  end.

Lemma has_boundary_of_list (l : list ascii) :
  has_boundary (string_of_list_ascii l) = boundary_in l.
Proof.
  induction l as [|c l IH]; [done|].
  destruct l as [|d l]; [done|]. simpl in *. by rewrite IH.
Qed.

Lemma boundary_in_snoc (l : list ascii) (c : ascii) :
  boundary_in (l ++ [c])
  = boundary_in l
    || match last l with Some m => is_mark m && isspace c | None => false end.
Proof.
  induction l as [|x l IH]; [done|].
  destruct l as [|y l]; [simpl; by rewrite orb_false_r|].
  change (boundary_in ((x :: y :: l) ++ [c]))
    with ((is_mark x && isspace y) || boundary_in ((y :: l) ++ [c])).
  rewrite IH. change (last (x :: y :: l)) with (last (y :: l)).
  simpl boundary_in at 2. by rewrite orb_assoc.
Qed.

Lemma has_boundary_cons (c d : ascii) (s : string) :
  has_boundary (String c (String d s))
  = (is_mark c && isspace d) || has_boundary (String d s).
Proof. reflexivity. Qed.

Lemma has_boundary_tail (c : ascii) (s : string) :
  has_boundary (String c s) = false -> has_boundary s = false.
Proof.
  destruct s as [|d s]; [done|]. rewrite has_boundary_cons.
  by intros [_ ?]%orb_false_iff.
Qed.

Lemma has_boundary_lstrip (s : string) :
  has_boundary s = false -> has_boundary (lstrip s) = false.
Proof.
  induction s as [|c s IH]; [done|]. intros Hs. simpl lstrip.
  destruct (isspace c); [|done]. by apply IH, (has_boundary_tail c).
Qed.

Lemma has_boundary_rstrip (s : string) :
  has_boundary s = false -> has_boundary (rstrip s) = false.
Proof.
  induction s as [|c s IH]; [done|]. intros Hs. simpl rstrip.
  destruct (rstrip s) as [|d r] eqn:Hr; [by destruct (isspace c)|].
  destruct s as [|d' s']; [done|].
  assert (d' = d).
  { simpl in Hr. destruct (rstrip s'); [destruct (isspace d')|]; congruence. }
  subst d'. rewrite has_boundary_cons in Hs.
  apply orb_false_iff in Hs as [Hcd Hs].
  rewrite has_boundary_cons, Hcd. by apply IH.
Qed.

Lemma last_rev {A} (l : list A) : last (rev l) = head l.
Proof. destruct l as [|x l]; [done|]. simpl rev. by rewrite last_snoc. Qed.

(** What the scanner knows of the piece it is reading. *)
Definition piece_ok (mode : scan_mode) (piece : list ascii) : Prop :=
  boundary_in (rev piece) = false
  /\ match mode with
     | Plain => forall m, head piece = Some m -> is_mark m = false
     | AfterMark => True
     | InBoundary => piece = []
     end.

Lemma piece_ok_push (mode : scan_mode) (piece : list ascii) (c : ascii) :
  piece_ok mode piece -> (mode = Plain \/ isspace c = false) ->
  piece_ok (if is_mark c then AfterMark else Plain) (c :: piece).
Proof.
  intros [Hb Hmode] Hc. split.
  - simpl rev. rewrite boundary_in_snoc, Hb, last_rev. simpl.
    destruct (head piece) as [m|] eqn:Hm; [|done].
    destruct Hc as [->|Hc]; [by rewrite (Hmode m)|].
    rewrite Hc. apply andb_false_r.
  - destruct (is_mark c) eqn:Hmark; [done|]. simpl. by intros m [= <-].
Qed.

Lemma boundary_split_no_boundary (mode : scan_mode) (piece : list ascii)
    (s : string) :
  piece_ok mode piece ->
  Forall (fun p => has_boundary p = false) (boundary_split mode piece s).
Proof.
  revert mode piece. induction s as [|c s IH]; intros mode piece Hok.
  - simpl. apply Forall_singleton. unfold string_of_rev.
    rewrite has_boundary_of_list. apply Hok.
  - simpl boundary_split. destruct mode.
    + apply IH, (piece_ok_push Plain); [done | by left].
    + destruct (isspace c) eqn:Hc.
      * constructor.
        -- unfold string_of_rev. rewrite has_boundary_of_list. apply Hok.
        -- apply IH. by split.
      * apply IH, (piece_ok_push AfterMark); [done | by right].
    + destruct (isspace c) eqn:Hc; [by apply IH|].
      apply IH, (piece_ok_push InBoundary); [done | by right].
Qed.

(** X14.  No sentence that [_split_sentences] returns contains a
    sentence boundary: inside a sentence, [.], [!] or [?] is never
    followed by white space. *)
Theorem split_sentences_no_boundary (text : string) :
  Forall (fun s => has_boundary s = false) (_split_sentences text).
Proof.
  unfold _split_sentences.
  pose proof (boundary_split_no_boundary Plain [] text) as Hparts.
  specialize (Hparts ltac:(by split)).
  induction Hparts as [|p parts Hp _ IH]; simpl; [constructor|].
  destruct (nonempty (strip p)); simpl; [|done].
  constructor; [|done]. by apply has_boundary_rstrip, has_boundary_lstrip.
Qed.

(** *** [chunk_paper] without overlap *)

Lemma effective_size_float (self : SectionChunker) (name : string) :
  float_of_int (effective_size self name) = None ->
  float_of_int (chunk_size self) = None.
Proof.
  rewrite effective_size_budget. unfold section_budget.
  by repeat case_decide.
Qed.

Lemma overlap_budget_overflow (size : Z) (ratio : float) :
  float_of_int size = None -> overlap_budget size ratio = None.
Proof. intros Hsize. unfold overlap_budget, int_mul_float. by rewrite Hsize. Qed.

Lemma chunk_sections_done_empty_seed (self : SectionChunker) (fuel : nat)
    (source : string) (sections : list SectionDict) (all_chunks : list Chunk)
    (running_id : Z) :
  SFeqb (overlap_ratio self) float_zero = true ->
  Forall (fun sec => (2 * length (_split_sentences (sec_text sec)) < fuel)%nat)
    sections ->
  exists chunks : list Chunk,
    chunk_sections self fuel source sections all_chunks running_id
    = Done chunks
    \/ float_of_int (chunk_size self) = None
       /\ chunk_sections self fuel source sections all_chunks running_id
          = Raised chunks.
Proof.
  intros Hratio Hfuel. revert all_chunks running_id.
  induction Hfuel as [|sec sections Hsec _ IH]; intros all_chunks running_id;
    simpl; [eauto|].
  destruct (float_of_int (effective_size self (sec_name sec))) as [f|] eqn:Hf.
  - destruct (chunk_section_done_empty_seed self fuel (sec_text sec)
                (sec_name sec) source running_id
                (Some (effective_size self (sec_name sec))) 0) as [out Hout];
      [|done|done|].
    + apply overlap_budget_zero; [done|]. simpl default. by rewrite Hf.
    + rewrite Hout. apply IH.
  - assert (Hout : chunk_section self fuel (sec_text sec) (sec_name sec) source
                     running_id (Some (effective_size self (sec_name sec)))
                   = if truthy (_split_sentences (sec_text sec))
                     then Raised [] else Done []).
    { unfold chunk_section. simpl default.
      rewrite (overlap_budget_overflow _ _ Hf).
      by destruct (truthy (_split_sentences (sec_text sec))). }
    rewrite Hout.
    destruct (truthy (_split_sentences (sec_text sec))); [|apply IH].
    exists (all_chunks ++ []). right. split; [|done].
    by apply (effective_size_float self (sec_name sec)).
Qed.

(** X15.  With an [overlap_ratio] of 0 (the float [0.0] or [-0.0]),
    [chunk_paper] never stays in a loop: two iterations per sentence are
    enough for every section, and it returns.  The one other outcome is
    the [OverflowError] of [chunk_size * overlap_ratio] for a
    [chunk_size] beyond the range of a float. *)
Theorem chunk_paper_returns_without_overlap
    (finditer : string -> string -> list (nat * nat))
    (self : SectionChunker) (fuel : nat) (text source : string) :
  SFeqb (overlap_ratio self) float_zero = true ->
  Forall (fun sec => (2 * length (_split_sentences (sec_text sec)) < fuel)%nat)
    (detect_sections finditer text) ->
  exists chunks : list Chunk,
    chunk_paper finditer self fuel text source = Done chunks
    \/ float_of_int (chunk_size self) = None
       /\ chunk_paper finditer self fuel text source = Raised chunks.
Proof. intros Hratio Hfuel. by apply chunk_sections_done_empty_seed. Qed.

Lemma chunk_paper_returns_without_overlap_witness :
  exists chunks : list Chunk,
    chunk_paper two_section_finditer disjoint_chunker 7 two_section_paper
      "paper.pdf" = Done chunks.
Proof.
  destruct (chunk_paper_returns_without_overlap two_section_finditer
              disjoint_chunker 7 two_section_paper "paper.pdf")
    as [chunks [Hdone|[Hsize _]]].
  - reflexivity.
  - apply (bool_decide_unpack _). by vm_compute.
  - by exists chunks.
  - by vm_compute in Hsize.
Defined.

End ChunkerProps.

(** ** Properties of the retriever *)

Module RetrieverProps.
Import Retriever.

(** *** The stable descending sort *)

Section Sorting.

Context {A : Type} (key : A -> Q).

(** [x] may stand before [y] in a descending order. *)
Definition ge_key (x y : A) : Prop := (key y <= key x)%Q.

Lemma insert_desc_perm (x : A) (l : list A) : insert_desc key x l ≡ₚ x :: l.
Proof.
  induction l as [|y l IH]; simpl; [done|].
  destruct (Qle_bool (key y) (key x)); [done|].
  by rewrite IH, Permutation_swap.
Qed.

Lemma sorted_desc_perm (l : list A) : sorted_desc key l ≡ₚ l.
Proof.
  induction l as [|x l IH]; simpl; [done|].
  by rewrite insert_desc_perm, IH.
Qed.

Lemma insert_desc_sorted (x : A) (l : list A) :
  StronglySorted ge_key l -> StronglySorted ge_key (insert_desc key x l).
Proof.
  induction 1 as [|y l Hl IH Hy]; simpl.
  - repeat constructor.
  - destruct (Qle_bool (key y) (key x)) eqn:Hle.
    + apply Qle_bool_iff in Hle.
      constructor; [by constructor|]. constructor; [done|].
      eapply List.Forall_impl; [|exact Hy]. unfold ge_key. intros z Hz.
      by apply Qle_trans with (key y).
    + constructor; [done|].
      apply Forall_forall. intros z Hz.
      rewrite insert_desc_perm in Hz. apply elem_of_cons in Hz as [->|Hz].
      * unfold ge_key. apply Qnot_lt_le. intros Hlt.
        apply Qlt_le_weak, Qle_bool_iff in Hlt. congruence.
      * by apply (proj1 (Forall_forall _ _) Hy).
Qed.

Lemma sorted_desc_sorted (l : list A) : StronglySorted ge_key (sorted_desc key l).
Proof.
  induction l as [|x l IH]; simpl; [constructor | by apply insert_desc_sorted].
Qed.

Lemma Forall_sorted_desc (P : A -> Prop) (l : list A) :
  Forall P l -> Forall P (sorted_desc key l).
Proof. intros Hl. by rewrite sorted_desc_perm. Qed.

End Sorting.

Lemma take_upto_take {A} (n : Z) (l : list A) :
  exists m : nat, take_upto n l = take m l.
Proof. unfold take_upto. destruct (0 <=? n); eauto. Qed.

Lemma Forall_take_upto {A} (P : A -> Prop) (n : Z) (l : list A) :
  Forall P l -> Forall P (take_upto n l).
Proof.
  intros Hl. destruct (take_upto_take n l) as [m ->]. by apply Forall_take.
Qed.

Lemma StronglySorted_take_upto {A} (R : relation A) (n : Z) (l : list A) :
  StronglySorted R l -> StronglySorted R (take_upto n l).
Proof.
  intros Hl. destruct (take_upto_take n l) as [m ->].
  rewrite <- (take_drop m l) in Hl. by apply StronglySorted_app_1_l in Hl.
Qed.

(** *** Reciprocal rank fusion *)

Section Fusion.

(** [fused_scores.get(key, 0.0)] on the list of items. *)
Fixpoint fused_get (fused_scores : list (string * Q)) (key : string) : Q :=
  match fused_scores with
  | [] => 0%Q
  | (d, s) :: rest => if String.eqb d key then s else fused_get rest key
  end.

(** What the results of one list add to the score of [key]: one term
    [1 / (k + rank)] for every position at which [key] occurs. *)
Fixpoint rank_sum (k rank : Z) (results : list dict) (key : string) : Q :=
  match results with
  | [] => 0%Q
  | r :: rest =>
      ((if decide (doc_key r = Some key) then 1 / inject_Z (k + rank) else 0)
       + rank_sum k (rank + 1) rest key)%Q
  end.



Lemma eqb_decide (d key : string) (a b : Q) :
  (if String.eqb d key then a else b) = (if decide (d = key) then a else b).
Proof.
  destruct (String.eqb_spec d key) as [Heq|Hne].
  - by rewrite decide_True.
  - by rewrite decide_False.
Qed.

Lemma add_score_get (fs : list (string * Q)) (d key : string) (x : Q) :
  fused_get (add_score d x fs) key
  == fused_get fs key + (if decide (d = key) then x else 0).
Proof.
  induction fs as [|[d' s] rest IH]; simpl.
  - rewrite eqb_decide. destruct (decide (d = key)); ring.
  - destruct (String.eqb_spec d' d) as [->|Hne]; simpl; rewrite !eqb_decide.
    + destruct (decide (d = key)); ring.
    + destruct (decide (d' = key)) as [->|Hne'].
      * rewrite decide_False by done. ring.
      * exact IH.
Qed.

Lemma add_score_keys (fs : list (string * Q)) (d : string) (x : Q) :
  map fst (add_score d x fs)
  = if decide (d ∈ map fst fs) then map fst fs else map fst fs ++ [d].
Proof.
  induction fs as [|[d' s] rest IH]; simpl; [done|].
  destruct (String.eqb_spec d' d) as [->|Hne]; simpl.
  - rewrite decide_True; [done | by left].
  - rewrite IH. destruct (decide (d ∈ map fst rest)) as [Hin|Hin].
    + rewrite decide_True; [done | by right].
    + rewrite decide_False; [done|].
      intros [->|?]%elem_of_cons; done.
Qed.

(** The two dicts of the fusion loop agree: the items have distinct
    ids, [doc_map] holds a result for exactly those ids, and that
    result has the id as its key. *)
Definition fusion_inv (acc : list (string * Q) * gmap string dict) : Prop :=
  NoDup (map fst acc.1)
  /\ (forall id, id ∈ map fst acc.1 <-> is_Some (acc.2 !! id))
  /\ (forall id r, acc.2 !! id = Some r -> doc_key r = Some id).

Lemma fuse_one_spec (k rank : Z) (r : dict)
    (acc acc' : list (string * Q) * gmap string dict) :
  fusion_inv acc -> fuse_one k rank r acc = Some acc' ->
  fusion_inv acc'
  /\ (forall key,
        fused_get acc'.1 key
        == fused_get acc.1 key
           + (if decide (doc_key r = Some key)
              then 1 / inject_Z (k + rank) else 0))
  /\ (forall id, id ∈ map fst acc'.1 <->
                 id ∈ map fst acc.1 \/ doc_key r = Some id).
Proof.
  intros (Hnodup & Hdom & Hkeys). unfold fuse_one. destruct acc as [fs dm].
  remember (1 / inject_Z (k + rank))%Q as x eqn:Hx. clear Hx.
  cbn [fst snd] in *. destruct (doc_key r) as [doc_id|] eqn:Hkey; [|done].
  destruct (k + rank =? 0); [done|]. intros [= <-]. cbn [fst snd].
  assert (Helem : forall id, id ∈ map fst (add_score doc_id x fs)
                             <-> id ∈ map fst fs \/ Some doc_id = Some id).
  { intros id. rewrite add_score_keys.
    destruct (decide (doc_id ∈ map fst fs)) as [Hin|Hin].
    - split; [by left|]. intros [?|[= <-]]; done.
    - rewrite elem_of_app, list_elem_of_singleton.
      split; (intros [?|?]; [by left | right; congruence]). }
  split; [|split; [|exact Helem]].
  - split; [|split]; cbn [fst snd].
    + rewrite add_score_keys.
      destruct (decide (doc_id ∈ map fst fs)) as [Hin|Hin]; [done|].
      apply NoDup_app. split; [done|]. split; [|apply NoDup_singleton].
      intros id Hid ->%list_elem_of_singleton. done.
    + intros id. rewrite Helem.
      destruct (dm !! doc_id) as [r0|] eqn:Hdm.
      * rewrite <- Hdom. split; [|by left]. intros [?|[= <-]]; [done|].
        apply Hdom. by rewrite Hdm.
      * destruct (decide (doc_id = id)) as [->|Hne].
        -- rewrite lookup_insert_eq. split; [done | by right].
        -- rewrite lookup_insert_ne by done. rewrite <- Hdom.
           split; [|by left]. intros [?|[= ?]]; done.
    + intros id r0. destruct (dm !! doc_id) as [r1|] eqn:Hdm; [apply Hkeys|].
      destruct (decide (doc_id = id)) as [->|Hne].
      * rewrite lookup_insert_eq. by intros [= <-].
      * rewrite lookup_insert_ne by done. apply Hkeys.
  - intros key. rewrite add_score_get.
    destruct (decide (doc_id = key)) as [->|Hne].
    + by rewrite decide_True.
    + rewrite decide_False; [done | congruence].
Qed.

Lemma fuse_list_spec (k rank : Z) (results : list dict)
    (acc acc' : list (string * Q) * gmap string dict) :
  fusion_inv acc -> fuse_list k rank results acc = Some acc' ->
  fusion_inv acc'
  /\ (forall key,
        fused_get acc'.1 key
        == fused_get acc.1 key + rank_sum k rank results key)
  /\ (forall id, id ∈ map fst acc'.1 <->
                 id ∈ map fst acc.1 \/ Some id ∈ map doc_key results).
Proof.
  revert rank acc. induction results as [|r rest IH]; intros rank acc Hinv;
    simpl.
  - intros [= <-]. split; [done|]. split.
    + intros key. ring.
    + intros id. split; [by left|]. intros [?|Hin]; [done|].
      by apply elem_of_nil in Hin.
  - destruct (fuse_one k rank r acc) as [acc1|] eqn:Hone; [|done].
    intros Hrest.
    destruct (fuse_one_spec _ _ _ _ _ Hinv Hone) as (Hinv1 & Hget1 & Hin1).
    destruct (IH _ _ Hinv1 Hrest) as (Hinv' & Hget' & Hin').
    split; [done|]. split.
    + intros key. rewrite Hget', Hget1. ring.
    + intros id. rewrite Hin', Hin1, elem_of_cons. split.
      * intros [[?|?]|?]; [by left | right; left; congruence | by do 2 right].
      * intros [?|[?|?]]; [by do 2 left | left; right; congruence | by right].
Qed.


Lemma doc_key_set_score (r : dict) (s : Q) :
  doc_key (<["score" := VNum s]> r) = doc_key r.
Proof. unfold doc_key. by rewrite !lookup_insert_ne. Qed.

(** The merged entries follow the sorted items: the entry of an item
    has its id as key and its fused score as score. *)
Lemma merge_entries_spec (doc_map : gmap string dict)
    (items : list (string * Q)) (merged : list dict) :
  (forall id r, doc_map !! id = Some r -> doc_key r = Some id) ->
  merge_entries doc_map items = Some merged ->
  Forall2
    (fun item entry =>
       doc_key entry = Some item.1 /\ get_num entry "score" = Some item.2)
    items merged.
Proof.
  intros Hkeys. revert merged.
  induction items as [|[id score] rest IH]; intros merged; simpl.
  - intros [= <-]. constructor.
  - destruct (doc_map !! id) as [r|] eqn:Hr; [|done].
    destruct (merge_entries doc_map rest) as [m|]; [|done].
    intros [= <-]. constructor; [|by apply IH]. simpl. split.
    + rewrite doc_key_set_score. by apply Hkeys.
    + unfold get_num. by rewrite lookup_insert_eq.
Qed.











(** With a positive [k] and results whose key is a string, the fusion
    raises nothing. *)
Lemma fuse_list_total (k rank : Z) (results : list dict)
    (acc : list (string * Q) * gmap string dict) :
  0 < k + rank -> Forall (fun r => is_Some (doc_key r)) results ->
  is_Some (fuse_list k rank results acc).
Proof.
  intros Hpos Hall. revert rank acc Hpos.
  induction Hall as [|r rest [id Hid] _ IH]; intros rank acc Hpos; simpl;
    [done|].
  unfold fuse_one. destruct acc as [fs dm]. rewrite Hid.
  destruct (Z.eqb_spec (k + rank) 0) as [?|_]; [lia|].
  apply IH. lia.
Qed.

Lemma merge_entries_total (doc_map : gmap string dict)
    (items : list (string * Q)) :
  (forall id, id ∈ map fst items -> is_Some (doc_map !! id)) ->
  is_Some (merge_entries doc_map items).
Proof.
  induction items as [|[id score] rest IH]; intros Hdom; simpl; [done|].
  destruct (Hdom id) as [r Hr]; [by left|]. rewrite Hr.
  destruct IH as [m Hm]; [|by rewrite Hm].
  intros id' Hin. apply Hdom. by right.
Qed.

Lemma reciprocal_rank_fusion_total (k : Z) (l1 l2 : list dict) :
  0 < k ->
  Forall (fun r => is_Some (doc_key r)) l1 ->
  Forall (fun r => is_Some (doc_key r)) l2 ->
  is_Some (reciprocal_rank_fusion [l1; l2] k).
Proof.
  intros Hk H1 H2. unfold reciprocal_rank_fusion. simpl fuse_lists.
  destruct (fuse_list_total k 1 l1 ([], ∅)) as [acc1 Hacc1]; [lia | done |].
  rewrite Hacc1.
  destruct (fuse_list_total k 1 l2 acc1) as [[fs dm] Hacc2]; [lia | done |].
  rewrite Hacc2.
  assert (Hinv0 : fusion_inv ([], ∅)).
  { split; [constructor|]. split.
    - intros id. simpl. rewrite lookup_empty. split.
      + intros Hin. by apply elem_of_nil in Hin.
      + by intros [? ?].
    - intros id r. simpl. by rewrite lookup_empty. }
  destruct (fuse_list_spec _ _ _ _ _ Hinv0 Hacc1) as (Hinv1 & _ & _).
  destruct (fuse_list_spec _ _ _ _ _ Hinv1 Hacc2) as ((_ & Hdom & _) & _ & _).
  apply merge_entries_total. intros id Hin. apply Hdom. simpl.
  by rewrite sorted_desc_perm in Hin.
Qed.

End Fusion.

(** *** What the stages keep of the candidate dicts *)

Section Pipeline.

Variable tokenize : string -> list string.
Variable get_scores : list (list string) -> list string -> list Q.
Variable collection_get : get_result.
Variable encode : string -> list Q.
Variable collection_query : list Q -> Z -> query_result.
Variable predict : list (string * string) -> list Q.

Local Abbreviation bm25_search := (Retriever.bm25_search tokenize get_scores).
Local Abbreviation vector_search := (Retriever.vector_search encode collection_query).
Local Abbreviation rerank := (Retriever.rerank predict).
Local Abbreviation search :=
  (Retriever.search tokenize get_scores encode collection_query predict).

(** The candidate dict has no ["section"] key. *)
Definition no_section (d : dict) : Prop := d !! "section" = None.

Lemma bm25_results_no_section (self : HybridRetriever) (scores : list Q)
    (scored_indices : list nat) (results : list dict) :
  bm25_results self scores scored_indices = Some results ->
  Forall no_section results.
Proof.
  revert results. induction scored_indices as [|idx rest IH]; intros results;
    simpl.
  - intros [= <-]. constructor.
  - destruct (Qle_bool _ 0); [by apply IH|].
    destruct (bm25_docs self !! idx) as [doc|]; [|done].
    destruct (bm25_results self scores rest) as [rs|]; [|done].
    intros [= <-]. constructor; [|by apply IH].
    unfold no_section. by rewrite !lookup_insert_ne, lookup_empty.
Qed.

Lemma vector_results_no_section (raw : query_result) (i : nat)
    (documents : list string) (results : list dict) :
  vector_results raw i documents = Some results -> Forall no_section results.
Proof.
  revert i results. induction documents as [|doc rest IH]; intros i results;
    simpl.
  - intros [= <-]. constructor.
  - destruct (match qr_distances raw !! i with
              | Some d => if Qeq_bool (1 + d) 0 then None else Some (1 / (1 + d))%Q
              | None => Some 0%Q
              end) as [score|]; [|done].
    destruct (vector_results raw (S i) rest) as [rs|] eqn:Hrest; [|done].
    intros [= <-]. constructor; [|by eapply IH].
    unfold no_section. by rewrite !lookup_insert_ne, lookup_empty.
Qed.

(** A property of dicts that setting the score keeps. *)
Section ScoreStable.

Variable P : dict -> Prop.
Hypothesis P_score : forall (d : dict) (s : Q), P d -> P (<["score" := VNum s]> d).

Lemma fuse_list_keeps (k rank : Z) (results : list dict)
    (acc acc' : list (string * Q) * gmap string dict) :
  Forall P results -> map_Forall (fun _ r => P r) acc.2 ->
  fuse_list k rank results acc = Some acc' ->
  map_Forall (fun _ r => P r) acc'.2.
Proof.
  revert rank acc. induction results as [|r rest IH]; intros rank acc Hrs Hacc;
    simpl.
  - by intros [= <-].
  - apply Forall_cons in Hrs as [Hr Hrest].
    destruct (fuse_one k rank r acc) as [acc1|] eqn:Hone; [|done].
    apply IH; [done|]. clear IH.
    unfold fuse_one in Hone. destruct acc as [fs dm]. simpl in Hacc.
    destruct (doc_key r) as [doc_id|]; [|done].
    destruct (k + rank =? 0); [done|]. injection Hone as <-. simpl.
    destruct (dm !! doc_id); [done|]. by apply map_Forall_insert_2.
Qed.

Lemma fuse_lists_keeps (k : Z) (results_list : list (list dict))
    (acc acc' : list (string * Q) * gmap string dict) :
  Forall (Forall P) results_list -> map_Forall (fun _ r => P r) acc.2 ->
  fuse_lists k results_list acc = Some acc' ->
  map_Forall (fun _ r => P r) acc'.2.
Proof.
  revert acc. induction results_list as [|rs rest IH]; intros acc Hall Hacc;
    simpl.
  - by intros [= <-].
  - apply Forall_cons in Hall as [Hrs Hrest].
    destruct (fuse_list k 1 rs acc) as [acc1|] eqn:Hone; [|done].
    apply IH; [done|]. by eapply fuse_list_keeps.
Qed.

Lemma merge_entries_keeps (doc_map : gmap string dict)
    (items : list (string * Q)) (merged : list dict) :
  map_Forall (fun _ r => P r) doc_map ->
  merge_entries doc_map items = Some merged -> Forall P merged.
Proof.
  intros Hmap. revert merged.
  induction items as [|[doc_id score] rest IH]; intros merged; simpl.
  - intros [= <-]. constructor.
  - destruct (doc_map !! doc_id) as [r|] eqn:Hr; [|done].
    destruct (merge_entries doc_map rest) as [m|]; [|done].
    intros [= <-]. constructor; [|by apply IH].
    apply P_score. by apply (Hmap doc_id).
Qed.

Lemma reciprocal_rank_fusion_keeps (results_list : list (list dict)) (k : Z)
    (merged : list dict) :
  Forall (Forall P) results_list ->
  reciprocal_rank_fusion results_list k = Some merged -> Forall P merged.
Proof.
  intros Hall. unfold reciprocal_rank_fusion.
  destruct (fuse_lists k results_list ([], ∅)) as [[fs dm]|] eqn:Hfuse; [|done].
  apply merge_entries_keeps.
  apply (fuse_lists_keeps k results_list ([], ∅) (fs, dm)); [done | | done].
  apply map_Forall_empty.
Qed.

Lemma set_scores_keeps (ce_scores : list Q) (i : nat)
    (candidates scored : list dict) :
  Forall P candidates ->
  set_scores ce_scores i candidates = Some scored -> Forall P scored.
Proof.
  revert i scored. induction candidates as [|c rest IH]; intros i scored Hall;
    simpl.
  - intros [= <-]. constructor.
  - apply Forall_cons in Hall as [Hc Hrest].
    destruct (ce_scores !! i) as [s|]; [|done].
    destruct (set_scores ce_scores (S i) rest) as [sc|] eqn:Hsc; [|done].
    intros [= <-]. constructor; [by apply P_score | by eapply IH].
Qed.

Lemma rerank_keeps (self : HybridRetriever) (query : string)
    (candidates : list dict) (top_k : Z) (reranked : list dict) :
  Forall P candidates ->
  rerank self query candidates top_k = Some reranked -> Forall P reranked.
Proof.
  intros Hall. unfold Retriever.rerank.
  destruct (truthy candidates); simpl negb; cbv iota.
  2:{ intros [= <-]. constructor. }
  destruct (make_pairs query candidates) as [pairs|]; [|done].
  destruct (set_scores (predict pairs) 0 candidates) as [scored|] eqn:Hsc;
    [|done].
  intros [= <-]. apply Forall_take_upto, Forall_sorted_desc.
  by eapply set_scores_keeps.
Qed.

Lemma fuse_or_fall_back_keeps (bm25 vec fused : list dict) (method : string) :
  Forall P bm25 -> Forall P vec ->
  fuse_or_fall_back bm25 vec = Some (fused, method) -> Forall P fused.
Proof.
  intros Hb Hv. unfold fuse_or_fall_back. destruct (truthy bm25).
  - destruct (reciprocal_rank_fusion [bm25; vec] 60) as [m|] eqn:Hm; [|done].
    intros [= <- <-]. eapply reciprocal_rank_fusion_keeps; [|exact Hm].
    by repeat constructor.
  - by intros [= <- <-].
Qed.

End ScoreStable.

Lemma no_section_score (d : dict) (s : Q) :
  no_section d -> no_section (<["score" := VNum s]> d).
Proof. unfold no_section. intros Hd. by rewrite lookup_insert_ne. Qed.

(** What [build_output] writes into every entry. *)
Lemma build_output_entries (retrieval_method : string) (normalized : list Q)
    (i : nat) (reranked output : list dict) :
  build_output retrieval_method normalized i reranked = Some output ->
  Forall2
    (fun result entry =>
       entry !! "retrieval_method" = Some (VStr retrieval_method)
       /\ entry !! "section" = Some (get result "section" (VStr "")))
    reranked output.
Proof.
  revert i output. induction reranked as [|r rest IH]; intros i output; simpl.
  - intros [= <-]. constructor.
  - destruct (r !! "text") as [t|]; [|done].
    destruct (normalized !! i) as [n|]; [|done].
    destruct (build_output retrieval_method normalized (S i) rest)
      as [out|] eqn:Hout; [|done].
    intros [= <-]. constructor; [|by eapply IH].
    split; [by rewrite lookup_insert_eq|].
    by rewrite lookup_insert_ne, lookup_insert_eq.
Qed.

Lemma present_entries (reranked : list dict) (retrieval_method : string)
    (output : list dict) :
  present reranked retrieval_method = Some output ->
  Forall2
    (fun result entry =>
       entry !! "retrieval_method" = Some (VStr retrieval_method)
       /\ entry !! "section" = Some (get result "section" (VStr "")))
    reranked output.
Proof.
  unfold present. destruct (raw_scores_of reranked); [|done].
  apply build_output_entries.
Qed.

(** The stages of [search], when it returns. *)
Lemma search_stages (self : HybridRetriever) (query : string) (n_results : Z)
    (output : list dict) :
  search self query n_results = Some output ->
  exists (bm25 vec fused reranked : list dict) (method : string),
    bm25_search self query 20 = Some bm25
    /\ vector_search self query 20 = Some vec
    /\ fuse_or_fall_back bm25 vec = Some (fused, method)
    /\ rerank self query fused n_results = Some reranked
    /\ present reranked method = Some output.
Proof.
  unfold Retriever.search.
  destruct (bm25_search self query 20) as [bm25|]; [|done].
  destruct (vector_search self query 20) as [vec|]; [|done].
  destruct (fuse_or_fall_back bm25 vec) as [[fused method]|] eqn:Hfuse; [|done].
  destruct (rerank self query fused n_results) as [reranked|] eqn:Hrr; [|done].
  intros Hout. by exists bm25, vec, fused, reranked, method.
Qed.

Lemma bm25_search_no_section (self : HybridRetriever) (query : string)
    (n_results : Z) (results : list dict) :
  bm25_search self query n_results = Some results -> Forall no_section results.
Proof.
  unfold Retriever.bm25_search.
  destruct (bm25_index self) as [index|]; [|intros [= <-]; constructor].
  destruct (truthy (bm25_docs self)); simpl negb; cbv iota;
    [|intros [= <-]; constructor].
  apply bm25_results_no_section.
Qed.

(** **** C10: the section of a result *)

(** C10.  Every result that [search] returns has its ["section"] equal
    to the empty string: no stage puts a ["section"] key into a
    candidate dict, so [result.get("section", "")] is always [""]. *)
Theorem search_section_empty (self : HybridRetriever) (query : string)
    (n_results : Z) (output : list dict) :
  search self query n_results = Some output ->
  Forall (fun entry => entry !! "section" = Some (VStr "")) output.
Proof.
  intros Hsearch.
  destruct (search_stages _ _ _ _ Hsearch)
    as (bm25 & vec & fused & reranked & method & Hb & Hv & Hf & Hr & Hp).
  apply bm25_search_no_section in Hb.
  apply vector_results_no_section in Hv.
  pose proof (fuse_or_fall_back_keeps no_section no_section_score
                _ _ _ _ Hb Hv Hf) as Hfused.
  pose proof (rerank_keeps no_section no_section_score _ _ _ _ _ Hfused Hr)
    as Hreranked.
  apply present_entries in Hp. clear Hf Hr Hfused Hsearch.
  induction Hp as [|r e rs es [_ He] _ IH]; [constructor|].
  apply Forall_cons in Hreranked as [Hr0 Hrs].
  constructor; [|by apply IH].
  rewrite He. unfold get. by rewrite Hr0.
Qed.

(** **** C3: the fall-back to vector-only retrieval *)

(** C3.  When the BM25 index has not been built ([bm25_index] is
    [None]) or the indexed corpus is empty, [bm25_search] returns the
    empty list for every query, without an error; [search] then skips
    the fusion: it reranks the output of [vector_search] as it is and
    tags every result ["vector_only"].  In general the tag of every
    result is ["hybrid"] when [bm25_search] returned something and
    ["vector_only"] when it returned nothing. *)
Theorem search_vector_only_fallback (self : HybridRetriever) (query : string)
    (n_results : Z) :
  (bm25_index self = None \/ bm25_docs self = [] ->
   (forall (q : string) (n : Z), bm25_search self q n = Some [])
   /\ search self query n_results
      = match vector_search self query 20 with
        | Some vector_results =>
            match rerank self query vector_results n_results with
            | Some reranked => present reranked "vector_only"
            | None => None
            end
        | None => None
        end
   /\ forall output : list dict,
        search self query n_results = Some output ->
        Forall
          (fun entry => entry !! "retrieval_method" = Some (VStr "vector_only"))
          output)
  /\ (forall bm25 output : list dict,
        bm25_search self query 20 = Some bm25 ->
        search self query n_results = Some output ->
        Forall
          (fun entry =>
             entry !! "retrieval_method"
             = Some (VStr (if truthy bm25 then "hybrid" else "vector_only")))
          output).
Proof.
  assert (Htag : forall bm25 output : list dict,
             bm25_search self query 20 = Some bm25 ->
             search self query n_results = Some output ->
             Forall
               (fun entry =>
                  entry !! "retrieval_method"
                  = Some (VStr (if truthy bm25 then "hybrid" else "vector_only")))
               output).
  { intros bm25 output Hb Hsearch.
    destruct (search_stages _ _ _ _ Hsearch)
      as (bm25' & vec & fused & reranked & method & Hb' & Hv & Hf & Hr & Hp).
    rewrite Hb in Hb'. injection Hb' as <-.
    assert (Hm : method = if truthy bm25 then "hybrid" else "vector_only").
    { unfold fuse_or_fall_back in Hf. destruct (truthy bm25).
      - destruct (reciprocal_rank_fusion [bm25; vec] 60); [|done].
        by injection Hf as _ <-.
      - by injection Hf as _ <-. }
    subst method. apply present_entries in Hp. clear Hsearch Hr Hf.
    induction Hp as [|r e rs es [He _] _ IH]; [constructor|].
    constructor; [exact He | exact IH]. }
  split; [|exact Htag].
  intros Hempty.
  assert (Hnone : forall (q : string) (n : Z), bm25_search self q n = Some []).
  { intros q n. unfold Retriever.bm25_search.
    destruct Hempty as [-> | Hdocs]; [done|].
    rewrite Hdocs. by destruct (bm25_index self). }
  split; [exact Hnone|]. split.
  - unfold Retriever.search. rewrite Hnone.
    destruct (vector_search self query 20) as [vec|]; [|done].
    unfold fuse_or_fall_back. simpl truthy. cbv iota. reflexivity.
  - intros output Hsearch. exact (Htag [] output (Hnone query 20) Hsearch).
Qed.

(** **** C2: the distances of the results *)

(** The [distance] of an output entry. *)
Definition distance_of (entry : dict) : option Q := get_num entry "distance".

(** Min-max scaling of a score, with 1 for a zero range. *)
Definition min_max_scale (min_score max_score s : Q) : Q :=
  if Qlt_le_dec min_score max_score
  then ((s - min_score) / (max_score - min_score))%Q
  else 1%Q.

Lemma py_min_spec (x : Q) (l : list Q) :
  py_min x l ∈ x :: l /\ Forall (fun y => (py_min x l <= y)%Q) (x :: l).
Proof.
  unfold py_min. revert x. induction l as [|y l IH]; intros x; simpl.
  - split; [by left|]. constructor; [apply Qle_refl | constructor].
  - destruct (IH (if Qle_bool x y then x else y)) as [Hin Hle].
    apply Forall_cons in Hle as [Hhd Htl].
    destruct (Qle_bool x y) eqn:Hxy.
    + apply Qle_bool_iff in Hxy. split.
      * apply elem_of_cons in Hin as [->|Hin]; [by left | by do 2 right].
      * constructor; [done|]. constructor; [by apply Qle_trans with x | done].
    + assert (y <= x)%Q.
      { apply Qnot_lt_le. intros Hlt. apply Qlt_le_weak, Qle_bool_iff in Hlt.
        congruence. }
      split.
      * apply elem_of_cons in Hin as [->|Hin]; [right; by left | by do 2 right].
      * constructor; [by apply Qle_trans with y|]. by constructor.
Qed.

Lemma py_max_spec (x : Q) (l : list Q) :
  py_max x l ∈ x :: l /\ Forall (fun y => (y <= py_max x l)%Q) (x :: l).
Proof.
  unfold py_max. revert x. induction l as [|y l IH]; intros x; simpl.
  - split; [by left|]. constructor; [apply Qle_refl | constructor].
  - destruct (IH (if Qle_bool y x then x else y)) as [Hin Hle].
    apply Forall_cons in Hle as [Hhd Htl].
    destruct (Qle_bool y x) eqn:Hxy.
    + apply Qle_bool_iff in Hxy. split.
      * apply elem_of_cons in Hin as [->|Hin]; [by left | by do 2 right].
      * constructor; [done|]. constructor; [by apply Qle_trans with x | done].
    + assert (x <= y)%Q.
      { apply Qnot_lt_le. intros Hlt. apply Qlt_le_weak, Qle_bool_iff in Hlt.
        congruence. }
      split.
      * apply elem_of_cons in Hin as [->|Hin]; [right; by left | by do 2 right].
      * constructor; [by apply Qle_trans with y|]. by constructor.
Qed.

(** [normalize] is the min-max scaling by the least and the largest
    score. *)
Lemma normalize_spec (raw_scores : list Q) :
  raw_scores <> [] ->
  exists min_score max_score : Q,
    min_score ∈ raw_scores /\ max_score ∈ raw_scores
    /\ Forall (fun s => (min_score <= s <= max_score)%Q) raw_scores
    /\ normalize raw_scores = map (min_max_scale min_score max_score) raw_scores.
Proof.
  destruct raw_scores as [|s0 rest]; [done|]. intros _.
  destruct (py_min_spec s0 rest) as [Hmin_in Hmin].
  destruct (py_max_spec s0 rest) as [Hmax_in Hmax].
  exists (py_min s0 rest), (py_max s0 rest).
  split; [done|]. split; [done|]. split.
  - apply Forall_forall. intros s Hs. split.
    + by apply (proj1 (Forall_forall _ _) Hmin).
    + by apply (proj1 (Forall_forall _ _) Hmax).
  - unfold normalize, min_max_scale.
    destruct (Qlt_le_dec (py_min s0 rest) (py_max s0 rest)) as [Hlt|Hle].
    + assert (Hb : Qle_bool (py_max s0 rest - py_min s0 rest) 0 = false).
      { destruct (Qle_bool _ 0) eqn:Hb; [|done].
        apply Qle_bool_iff in Hb. exfalso. lra. }
      by rewrite Hb.
    + assert (Hb : Qle_bool (py_max s0 rest - py_min s0 rest) 0 = true).
      { apply Qle_bool_iff. lra. }
      by rewrite Hb.
Qed.

Lemma min_max_scale_range (min_score max_score s : Q) :
  (min_score <= s <= max_score)%Q ->
  (0 <= min_max_scale min_score max_score s <= 1)%Q.
Proof.
  intros [Hlo Hhi]. unfold min_max_scale.
  destruct (Qlt_le_dec min_score max_score) as [Hlt|Hle]; [|lra].
  split.
  - apply Qle_shift_div_l; lra.
  - apply Qle_shift_div_r; lra.
Qed.

Lemma min_max_scale_mono (min_score max_score s t : Q) :
  (s <= t)%Q ->
  (min_max_scale min_score max_score s <= min_max_scale min_score max_score t)%Q.
Proof.
  intros Hst. unfold min_max_scale.
  destruct (Qlt_le_dec min_score max_score) as [Hlt|Hle]; [|lra].
  unfold Qdiv. apply Qmult_le_compat_r; [lra|].
  apply Qinv_le_0_compat. lra.
Qed.

Lemma raw_scores_of_spec (reranked : list dict) (raw_scores : list Q) :
  raw_scores_of reranked = Some raw_scores ->
  raw_scores = map score_of reranked.
Proof.
  revert raw_scores. induction reranked as [|r rest IH]; intros raw; simpl.
  - by intros [= <-].
  - unfold score_of at 1. destruct (get_num r "score") as [s|]; [|done].
    destruct (raw_scores_of rest) as [scores|]; [|done].
    intros [= <-]. simpl. f_equal. by apply IH.
Qed.

Lemma build_output_distances (retrieval_method : string) (normalized : list Q)
    (i : nat) (reranked output : list dict) :
  build_output retrieval_method normalized i reranked = Some output ->
  map distance_of output
  = map (fun n => Some (1 - n)%Q) (take (length reranked) (drop i normalized)).
Proof.
  revert i output. induction reranked as [|r rest IH]; intros i output; simpl.
  - by intros [= <-].
  - destruct (r !! "text") as [t|]; [|done].
    destruct (normalized !! i) as [n|] eqn:Hn; [|done].
    destruct (build_output retrieval_method normalized (S i) rest)
      as [out|] eqn:Hout; [|done].
    intros [= <-]. rewrite (drop_S _ _ _ Hn). simpl.
    rewrite (IH _ _ Hout). unfold distance_of at 1. unfold get_num.
    do 2 (rewrite lookup_insert_ne by done). by rewrite lookup_insert_eq.
Qed.

Lemma rerank_sorted (self : HybridRetriever) (query : string)
    (candidates : list dict) (top_k : Z) (reranked : list dict) :
  rerank self query candidates top_k = Some reranked ->
  StronglySorted (ge_key score_of) reranked.
Proof.
  unfold Retriever.rerank.
  destruct (truthy candidates); simpl negb; cbv iota.
  2:{ intros [= <-]. constructor. }
  destruct (make_pairs query candidates) as [pairs|]; [|done].
  destruct (set_scores (predict pairs) 0 candidates) as [scored|]; [|done].
  intros [= <-]. apply StronglySorted_take_upto, sorted_desc_sorted.
Qed.

Lemma StronglySorted_lookup_le {A} (R : relation A) (l : list A) (i j : nat)
    (x y : A) :
  (forall z, R z z) -> StronglySorted R l -> (i <= j)%nat ->
  l !! i = Some x -> l !! j = Some y -> R x y.
Proof.
  intros Hrefl Hl. revert i j.
  induction Hl as [|z l Hl IH Hz]; intros i j Hij Hi Hj.
  - by rewrite lookup_nil in Hi.
  - destruct i as [|i], j as [|j]; simpl in *; try lia.
    + injection Hi as <-. injection Hj as <-. apply Hrefl.
    + injection Hi as <-. apply (proj1 (Forall_forall _ _) Hz).
      by eapply list_elem_of_lookup_2.
    + apply (IH i j); [lia | done | done].
Qed.

(** After a rerank that returned, the normalization and the output
    loop cannot fail: every reranked dict has a numeric score and a
    text, and the division is only made for a positive range. *)
Definition presentable (c : dict) : Prop :=
  is_Some (get_num c "score") /\ is_Some (c !! "text").

Lemma set_scores_presentable (ce_scores : list Q) (i : nat)
    (candidates scored : list dict) :
  Forall (fun c => is_Some (c !! "text")) candidates ->
  set_scores ce_scores i candidates = Some scored ->
  Forall presentable scored.
Proof.
  revert i scored. induction candidates as [|c rest IH]; intros i scored Hall;
    simpl.
  - intros [= <-]. constructor.
  - apply Forall_cons in Hall as [Hc Hrest].
    destruct (ce_scores !! i) as [s|]; [|done].
    destruct (set_scores ce_scores (S i) rest) as [sc|] eqn:Hsc; [|done].
    intros [= <-]. constructor; [|by eapply IH].
    split.
    + unfold get_num. by rewrite lookup_insert_eq.
    + by rewrite lookup_insert_ne.
Qed.

Lemma make_pairs_text (query : string) (candidates : list dict)
    (pairs : list (string * string)) :
  make_pairs query candidates = Some pairs ->
  Forall (fun c => is_Some (c !! "text")) candidates.
Proof.
  revert pairs. induction candidates as [|c rest IH]; intros pairs; simpl.
  - intros _. constructor.
  - unfold get_str. destruct (c !! "text") as [[t|x]|] eqn:Ht; try done.
    destruct (make_pairs query rest) as [ps|]; [|done].
    intros _. constructor; [done | by eapply IH].
Qed.

Lemma raw_scores_of_total (reranked : list dict) :
  Forall presentable reranked -> is_Some (raw_scores_of reranked).
Proof.
  induction 1 as [|r rest [[s Hs] _] _ [raw IH]]; simpl; [done|].
  by rewrite Hs, IH.
Qed.

Lemma length_normalize (raw_scores : list Q) :
  length (normalize raw_scores) = length raw_scores.
Proof.
  unfold normalize. destruct raw_scores as [|s0 rest]; [done|].
  destruct (negb _); by rewrite length_map.
Qed.

Lemma build_output_total (retrieval_method : string) (normalized : list Q)
    (i : nat) (reranked : list dict) :
  Forall presentable reranked ->
  (i + length reranked <= length normalized)%nat ->
  is_Some (build_output retrieval_method normalized i reranked).
Proof.
  intros Hall. revert i.
  induction Hall as [|r rest [_ [t Ht]] _ IH]; intros i Hlen; simpl; [done|].
  simpl in Hlen. rewrite Ht.
  destruct (lookup_lt_is_Some_2 normalized i) as [n Hn]; [lia|]. rewrite Hn.
  destruct (IH (S i)) as [out Hout]; [lia|]. by rewrite Hout.
Qed.

Lemma rerank_then_present (self : HybridRetriever) (query : string)
    (candidates : list dict) (top_k : Z) (reranked : list dict)
    (retrieval_method : string) :
  rerank self query candidates top_k = Some reranked ->
  is_Some (present reranked retrieval_method).
Proof.
  intros Hr.
  assert (Hall : Forall presentable reranked).
  { revert Hr. unfold Retriever.rerank.
    destruct (truthy candidates); simpl negb; cbv iota.
    2:{ intros [= <-]. constructor. }
    destruct (make_pairs query candidates) as [pairs|] eqn:Hpairs; [|done].
    destruct (set_scores (predict pairs) 0 candidates) as [scored|] eqn:Hsc;
      [|done].
    intros [= <-]. apply Forall_take_upto, Forall_sorted_desc.
    eapply set_scores_presentable; [|exact Hsc]. by eapply make_pairs_text. }
  unfold present.
  destruct (raw_scores_of_total reranked Hall) as [raw Hraw]. rewrite Hraw.
  apply build_output_total; [done|].
  rewrite length_normalize, (raw_scores_of_spec _ _ Hraw), length_map. lia.
Qed.

(** C2.  Whenever [search] returns at least one result: the distances
    of the results are [1 - normalized] for the min-max scaling of the
    rerank scores by their least and largest value, with [normalized =
    1] when those are equal; every distance lies in [0, 1]; the
    distances never decrease along the returned order; and when all
    rerank scores are identical every distance is 0. *)
Theorem search_distances (self : HybridRetriever) (query : string)
    (n_results : Z) (output : list dict) :
  search self query n_results = Some output -> output <> [] ->
  exists (reranked : list dict) (raw_scores distances : list Q)
         (min_score max_score : Q),
    (exists (bm25 vec fused : list dict) (method : string),
        bm25_search self query 20 = Some bm25
        /\ vector_search self query 20 = Some vec
        /\ fuse_or_fall_back bm25 vec = Some (fused, method)
        /\ rerank self query fused n_results = Some reranked)
    /\ raw_scores_of reranked = Some raw_scores
    /\ map distance_of output = map Some distances
    /\ min_score ∈ raw_scores /\ max_score ∈ raw_scores
    /\ Forall (fun s => (min_score <= s <= max_score)%Q) raw_scores
    /\ distances
       = map (fun s => (1 - min_max_scale min_score max_score s)%Q) raw_scores
    /\ Forall (fun d => (0 <= d <= 1)%Q) distances
    /\ (forall (i j : nat) (di dj : Q),
          (i <= j)%nat -> distances !! i = Some di -> distances !! j = Some dj ->
          (di <= dj)%Q)
    /\ ((forall s s' : Q, s ∈ raw_scores -> s' ∈ raw_scores -> s == s') ->
        Forall (fun d => d == 0) distances).
Proof.
  intros Hsearch Hne.
  destruct (search_stages _ _ _ _ Hsearch)
    as (bm25 & vec & fused & reranked & method & Hb & Hv & Hf & Hr & Hp).
  unfold present in Hp.
  destruct (raw_scores_of reranked) as [raw|] eqn:Hraw; [|done].
  pose proof (raw_scores_of_spec _ _ Hraw) as Hraw_eq.
  assert (Hlen : length raw = length reranked)
    by (by rewrite Hraw_eq, length_map).
  assert (Hraw_ne : raw <> []).
  { intros ->. destruct reranked; [|done]. simpl in Hp.
    injection Hp as <-. done. }
  destruct (normalize_spec raw Hraw_ne) as (mn & mx & Hmn & Hmx & Hbounds & Hnorm).
  pose proof (build_output_distances _ _ _ _ _ Hp) as Hdist.
  rewrite drop_0, Hnorm, <- Hlen in Hdist.
  rewrite <- (length_map (min_max_scale mn mx) raw), firstn_all in Hdist.
  rewrite map_map in Hdist.
  exists reranked, raw,
    (map (fun s => (1 - min_max_scale mn mx s)%Q) raw), mn, mx.
  split; [by exists bm25, vec, fused, method|].
  split; [done|]. split; [by rewrite map_map|].
  split; [done|]. split; [done|]. split; [done|]. split; [done|].
  split; [|split].
  - apply Forall_forall. intros d Hd.
    apply list_elem_of_fmap in Hd as (s & -> & Hs).
    pose proof (proj1 (Forall_forall _ _) Hbounds s Hs) as Hs'.
    pose proof (min_max_scale_range mn mx s Hs'). lra.
  - intros i j di dj Hij Hi Hj.
    rewrite list_lookup_fmap in Hi, Hj.
    destruct (raw !! i) as [si|] eqn:Hsi; [|done].
    destruct (raw !! j) as [sj|] eqn:Hsj; [|done].
    injection Hi as <-. injection Hj as <-.
    assert (Hle : (sj <= si)%Q).
    { pose proof (rerank_sorted _ _ _ _ _ Hr) as Hsorted.
      rewrite Hraw_eq, list_lookup_fmap in Hsi, Hsj.
      destruct (reranked !! i) as [ri|] eqn:Hri; [|done].
      destruct (reranked !! j) as [rj|] eqn:Hrj; [|done].
      injection Hsi as <-. injection Hsj as <-.
      apply (StronglySorted_lookup_le (ge_key score_of) reranked i j ri rj);
        try done.
      intros z. apply Qle_refl. }
    pose proof (min_max_scale_mono mn mx sj si Hle). lra.
  - intros Hsame. apply Forall_forall. intros d Hd.
    apply list_elem_of_fmap in Hd as (s & -> & Hs).
    unfold min_max_scale.
    destruct (Qlt_le_dec mn mx) as [Hlt|Hle]; [|lra].
    pose proof (Hsame mn mx Hmn Hmx). lra.
Qed.

End Pipeline.

(** **** Stand-ins for the external collaborators *)

Definition stored_metadata (source section : string) : dict :=
  <["source" := VStr source]> (<["section" := VStr section]> ∅).

(** A collection of three chunks, stored with their section. *)
Definition demo_collection : get_result :=
  {| gr_documents :=
       ["attention is all you need"; "bm25 ranks documents by term frequency";
        "results of the ablation"];
     gr_metadatas :=
       [stored_metadata "a.pdf" "Abstract"; stored_metadata "b.pdf" "Methods";
        stored_metadata "a.pdf" "Results"];
     gr_ids := ["a_chunk_0"; "b_chunk_0"; "a_chunk_1"] |}.

Definition empty_collection : get_result :=
  {| gr_documents := []; gr_metadatas := []; gr_ids := [] |}.

Definition demo_tokenize (text : string) : list string := [text].

(** BM25 scores of the three chunks for the demo query. *)
Definition demo_get_scores (corpus : list (list string)) (query : list string)
  : list Q :=
  take (length corpus) [(3 # 2)%Q; 0%Q; (1 # 2)%Q].

Definition demo_encode (query : string) : list Q := [1%Q; 0%Q].

(** The nearest neighbours of the demo query, with their distances. *)
Definition demo_collection_query (embedding : list Q) (n_results : Z)
  : query_result :=
  {| qr_documents :=
       ["results of the ablation"; "attention is all you need"];
     qr_metadatas :=
       [stored_metadata "a.pdf" "Results"; stored_metadata "a.pdf" "Abstract"];
     qr_distances := [(1 # 4)%Q; (1 # 2)%Q];
     qr_ids := ["a_chunk_1"; "a_chunk_0"] |}.

(** A cross-encoder stand-in: the relevance is the length of the text. *)
Definition demo_predict (pairs : list (string * string)) : list Q :=
  map (fun p => inject_Z (len p.2)) pairs.

Definition demo_search : HybridRetriever -> string -> Z -> option (list dict) :=
  Retriever.search demo_tokenize demo_get_scores demo_encode
    demo_collection_query demo_predict.

(** A retriever whose index was built over [demo_collection]. *)
Definition demo_retriever : HybridRetriever :=
  build_bm25_index demo_tokenize demo_collection new_retriever.

Lemma search_section_empty_witness :
  exists output : list dict,
    demo_search demo_retriever "attention" 5 = Some output
    /\ length output = 2%nat
    /\ Forall (fun entry => entry !! "section" = Some (VStr "")) output.
Proof.
  eexists. split; [by vm_compute|]. split; [reflexivity|].
  apply (search_section_empty demo_tokenize demo_get_scores demo_encode
           demo_collection_query demo_predict demo_retriever "attention" 5).
  by vm_compute.
Defined.

Lemma search_vector_only_fallback_witness :
  (forall (q : string) (n : Z),
      Retriever.bm25_search demo_tokenize demo_get_scores
        (build_bm25_index demo_tokenize empty_collection new_retriever) q n
      = Some [])
  /\ (forall (q : string) (n : Z),
        Retriever.bm25_search demo_tokenize demo_get_scores new_retriever q n
        = Some []).
Proof.
  split.
  - apply (search_vector_only_fallback demo_tokenize demo_get_scores demo_encode
             demo_collection_query demo_predict
             (build_bm25_index demo_tokenize empty_collection new_retriever)
             "attention" 5).
    by left.
  - apply (search_vector_only_fallback demo_tokenize demo_get_scores demo_encode
             demo_collection_query demo_predict new_retriever "attention" 5).
    by left.
Defined.

Lemma search_distances_witness :
  exists (output : list dict) (distances : list Q),
    demo_search demo_retriever "attention" 5 = Some output
    /\ map distance_of output = map Some distances
    /\ length distances = 2%nat
    /\ Forall (fun d => (0 <= d <= 1)%Q) distances.
Proof.
  destruct (demo_search demo_retriever "attention" 5) as [output|] eqn:Hsearch;
    [|by vm_compute in Hsearch].
  assert (Hlen : length output = 2%nat).
  { vm_compute in Hsearch. by injection Hsearch as <-. }
  assert (Hne : output <> []) by (by intros ->).
  destruct (search_distances demo_tokenize demo_get_scores demo_encode
              demo_collection_query demo_predict demo_retriever "attention" 5
              output Hsearch Hne)
    as (reranked & raw & distances & mn & mx & _ & _ & Hd & _ & _ & _ & _
        & Hrange & _).
  exists output, distances. split; [done|]. split; [done|]. split; [|done].
  apply (f_equal length) in Hd. rewrite !length_map in Hd. congruence.
Defined.

(** **** C7: reciprocal rank fusion *)

(** A ranked result with an id. *)
Definition ranked_doc (id text : string) : dict :=
  <["id" := VStr id]> (<["text" := VStr text]> ∅).

Definition doc_A : dict := ranked_doc "A" "alpha".
Definition doc_B : dict := ranked_doc "B" "beta".
Definition doc_C : dict := ranked_doc "C" "gamma".
Definition doc_D : dict := ranked_doc "D" "delta".

(** The key and the fused score of every merged entry. *)
Definition fused_summary (merged : option (list dict))
  : option (list (option string * option Q)) :=
  option_map (map (fun entry => (doc_key entry, get_num entry "score"))) merged.




(** A document first in both lists against a document first in one
    list only: [2/61] against [1/61]. *)
Example rank_one_in_both_beats_one :
  fused_summary (reciprocal_rank_fusion [[doc_A]; [doc_A]] 60)
  = Some [(Some "A", Some (122 # 3721)%Q)]
  /\ fused_summary (reciprocal_rank_fusion [[doc_B]; []] 60)
     = Some [(Some "B", Some (1 # 61)%Q)]
  /\ (1 # 61 < 122 # 3721)%Q.
Proof. repeat split; by vm_compute. Qed.


(** *** Sorted lists, once more *)

Lemma StronglySorted_sublist {A} (R : relation A) (k l : list A) :
  k `sublist_of` l -> StronglySorted R l -> StronglySorted R k.
Proof.
  induction 1 as [|x k l Hkl IH|x k l Hkl IH]; intros Hl.
  - constructor.
  - apply StronglySorted_inv in Hl as [Hl Hx]. constructor; [by apply IH|].
    apply Forall_forall. intros y Hy.
    apply (proj1 (Forall_forall _ _) Hx). by eapply elem_of_sublist.
  - apply StronglySorted_inv in Hl as [Hl _]. by apply IH.
Qed.

Lemma StronglySorted_Forall2 {A B} (f : A -> Q) (g : B -> Q)
    (l : list A) (k : list B) :
  Forall2 (fun a b => g b = f a) l k ->
  StronglySorted (ge_key f) l -> StronglySorted (ge_key g) k.
Proof.
  induction 1 as [|a b l k Hab Hlk IH]; intros Hl; [constructor|].
  apply StronglySorted_inv in Hl as [Hl Ha]. constructor; [by apply IH|].
  clear IH Hl. induction Hlk as [|a' b' l k Hab' _ IH]; [constructor|].
  apply Forall_cons in Ha as [Ha' Ha]. constructor; [|by apply IH].
  unfold ge_key in *. by rewrite Hab, Hab'.
Qed.

Lemma length_take_upto {A} (n : Z) (l : list A) :
  0 <= n -> length (take_upto n l) = Nat.min (Z.to_nat n) (length l).
Proof.
  intros Hn. unfold take_upto.
  destruct (Z.leb_spec 0 n); [|lia]. apply length_take.
Qed.

Lemma take_upto_sublist {A} (n : Z) (l : list A) : take_upto n l `sublist_of` l.
Proof. destruct (take_upto_take n l) as [m ->]. apply sublist_take. Qed.

Lemma bm25_results_total (self : HybridRetriever) (scores : list Q)
    (scored_indices : list nat) :
  Forall (fun i => (i < length (bm25_docs self))%nat) scored_indices ->
  is_Some (bm25_results self scores scored_indices).
Proof.
  induction 1 as [|idx idxs Hidx _ [rs IH]]; simpl; [done|].
  destruct (Qle_bool (default 0%Q (scores !! idx)) 0); [done|].
  destruct (lookup_lt_is_Some_2 (bm25_docs self) idx Hidx) as [doc Hdoc].
  by rewrite Hdoc, IH.
Qed.

Section SearchMore.

Variable tokenize : string -> list string.
Variable get_scores : list (list string) -> list string -> list Q.
Variable collection_get : get_result.
Variable encode : string -> list Q.
Variable collection_query : list Q -> Z -> query_result.
Variable predict : list (string * string) -> list Q.

Local Abbreviation build_bm25_index :=
  (Retriever.build_bm25_index tokenize collection_get).
Local Abbreviation bm25_search := (Retriever.bm25_search tokenize get_scores).
Local Abbreviation vector_search :=
  (Retriever.vector_search encode collection_query).
Local Abbreviation rerank := (Retriever.rerank predict).
Local Abbreviation search :=
  (Retriever.search tokenize get_scores encode collection_query predict).

(** **** [bm25_search] *)

(** [r] is the result that [bm25_search] builds for the corpus
    position [idx]. *)
Definition bm25_hit (self : HybridRetriever) (scores : list Q) (idx : nat)
    (r : dict) : Prop :=
  exists doc : string,
    bm25_docs self !! idx = Some doc
    /\ r !! "text" = Some (VStr doc)
    /\ r !! "source"
       = Some (get (default ∅ (bm25_metadatas self !! idx)) "source"
                 (VStr "unknown"))
    /\ r !! "id" = Some (VStr (default "" (bm25_ids self !! idx)))
    /\ get_num r "score" = Some (default 0%Q (scores !! idx))
    /\ (0 < default 0%Q (scores !! idx))%Q.

Lemma bm25_results_hits (self : HybridRetriever) (scores : list Q)
    (scored_indices : list nat) (results : list dict) :
  bm25_results self scores scored_indices = Some results ->
  exists kept : list nat,
    kept `sublist_of` scored_indices
    /\ Forall2 (bm25_hit self scores) kept results.
Proof.
  revert results. induction scored_indices as [|idx rest IH]; intros results;
    simpl.
  - intros [= <-]. exists []. split; constructor.
  - destruct (Qle_bool (default 0%Q (scores !! idx)) 0) eqn:Hle.
    + intros Hrest. destruct (IH _ Hrest) as (kept & Hsub & Hhits).
      exists kept. split; [by constructor | done].
    + destruct (bm25_docs self !! idx) as [doc|] eqn:Hdoc; [|done].
      destruct (bm25_results self scores rest) as [rs|]; [|done].
      intros [= <-]. destruct (IH _ eq_refl) as (kept & Hsub & Hhits).
      exists (idx :: kept). split; [by constructor|].
      constructor; [|done]. exists doc. split; [done|].
      split; [by do 3 (rewrite lookup_insert_ne by done);
                 rewrite lookup_insert_eq|].
      split; [by do 2 (rewrite lookup_insert_ne by done);
                 rewrite lookup_insert_eq|].
      split; [by rewrite lookup_insert_eq|].
      split; [unfold get_num; by rewrite lookup_insert_ne, lookup_insert_eq|].
      apply Qnot_le_lt. intros H. apply Qle_bool_iff in H. congruence.
Qed.

(** The stages of [bm25_search] when the index holds documents. *)
Lemma bm25_search_hits (self : HybridRetriever) (query : string)
    (n_results : Z) (results : list dict) :
  bm25_search self query n_results = Some results ->
  results = []
  \/ exists (index : list (list string)) (kept : list nat),
       bm25_index self = Some index
       /\ let scores := get_scores index (tokenize query) in
          kept `sublist_of`
            take_upto n_results
              (sorted_desc (fun i => default 0%Q (scores !! i))
                 (seq 0 (length scores)))
          /\ Forall2 (bm25_hit self scores) kept results.
Proof.
  unfold Retriever.bm25_search.
  destruct (bm25_index self) as [index|]; [|intros [= <-]; by left].
  destruct (truthy (bm25_docs self)); simpl negb; cbv iota;
    [|intros [= <-]; by left].
  intros Hres. right. apply bm25_results_hits in Hres as (kept & Hsub & Hhits).
  by exists index, kept.
Qed.

(** X16.  The results of [bm25_search] have strictly positive scores,
    are ordered by score, descending, and for [n_results >= 0] there
    are at most [n_results] of them. *)
Theorem bm25_search_ranked (self : HybridRetriever) (query : string)
    (n_results : Z) (results : list dict) :
  bm25_search self query n_results = Some results ->
  Forall (fun r => exists s : Q, get_num r "score" = Some s /\ (0 < s)%Q)
    results
  /\ StronglySorted (ge_key score_of) results
  /\ (0 <= n_results -> (length results <= Z.to_nat n_results)%nat).
Proof.
  intros Hres.
  destruct (bm25_search_hits _ _ _ _ Hres)
    as [->|(index & kept & _ & Hsub & Hhits)].
  { split; [constructor|]. split; [constructor | simpl; lia]. }
  cbv zeta in *.
  set (scores := get_scores index (tokenize query)) in *.
  set (key := fun i : nat => default 0%Q (scores !! i)) in *.
  split; [|split].
  - clear Hsub Hres.
    induction Hhits as [|idx r kept results Hhit _ IH];
      [by apply List.Forall_nil|].
    apply List.Forall_cons; [|done].
    destruct Hhit as (doc & _ & _ & _ & _ & Hs & Hpos). eauto.
  - apply (StronglySorted_Forall2 key score_of kept).
    + eapply Forall2_impl; [exact Hhits|].
      intros idx r (doc & _ & _ & _ & _ & Hs & _). unfold score_of.
      by rewrite Hs.
    + apply (StronglySorted_sublist _ _ _ Hsub).
      apply StronglySorted_take_upto, sorted_desc_sorted.
  - intros Hn. rewrite <- (Forall2_length _ _ _ Hhits).
    apply sublist_length in Hsub. rewrite length_take_upto in Hsub by done.
    lia.
Qed.

(** X17.  Every result of [bm25_search] is a document of the indexed
    corpus, returned with the id and the source stored at its position
    (the id [""] and the source ["unknown"] when none is stored), and
    no position of the corpus is returned twice. *)
Theorem bm25_search_documents (self : HybridRetriever) (query : string)
    (n_results : Z) (results : list dict) :
  bm25_search self query n_results = Some results ->
  exists positions : list nat,
    NoDup positions
    /\ Forall2
         (fun idx r =>
            exists doc : string,
              bm25_docs self !! idx = Some doc
              /\ r !! "text" = Some (VStr doc)
              /\ r !! "source"
                 = Some (get (default ∅ (bm25_metadatas self !! idx)) "source"
                           (VStr "unknown"))
              /\ r !! "id" = Some (VStr (default "" (bm25_ids self !! idx))))
         positions results.
Proof.
  intros Hres.
  destruct (bm25_search_hits _ _ _ _ Hres)
    as [->|(index & kept & _ & Hsub & Hhits)].
  { exists []. split; constructor. }
  cbv zeta in *. exists kept. split.
  - eapply sublist_NoDup; [|exact Hsub].
    eapply sublist_NoDup; [|apply take_upto_sublist].
    rewrite sorted_desc_perm. apply NoDup_seq.
  - eapply Forall2_impl; [exact Hhits|].
    intros idx r (doc & ? & ? & ? & ? & _). by exists doc.
Qed.

(** X18.  After [build_bm25_index], when the BM25 scorer returns no
    more scores than there are documents, [bm25_search] raises no
    error; on an empty collection it returns the empty list. *)
Theorem bm25_search_after_build (self : HybridRetriever) (query : string)
    (n_results : Z) :
  let docs := gr_documents collection_get in
  (length (get_scores (map tokenize docs) (tokenize query)) <= length docs)%nat ->
  (exists results : list dict,
      bm25_search (build_bm25_index self) query n_results = Some results)
  /\ (docs = [] ->
      bm25_search (build_bm25_index self) query n_results = Some []).
Proof.
  intros docs Hlen. unfold Retriever.bm25_search, Retriever.build_bm25_index.
  fold docs. simpl. destruct docs as [|d docs'] eqn:Hdocs; simpl truthy;
    cbv iota; [split; eauto|].
  split; [|done]. simpl negb. cbv iota.
  apply bm25_results_total, Forall_take_upto, Forall_sorted_desc, Forall_forall.
  intros i Hi. apply elem_of_seq in Hi. simpl in *. lia.
Qed.

(** **** [vector_search] *)

(** The score that [vector_search] derives from the distance at
    position [i]. *)
Definition vector_score (raw : query_result) (i : nat) : Q :=
  match qr_distances raw !! i with
  | Some d => (1 / (1 + d))%Q
  | None => 0%Q
  end.

Lemma vector_results_spec (raw : query_result) (i : nat)
    (documents : list string) :
  Forall (fun d => (0 <= d)%Q) (qr_distances raw) ->
  exists results : list dict,
    vector_results raw i documents = Some results
    /\ length results = length documents
    /\ forall (j : nat) (r : dict),
         results !! j = Some r ->
         r !! "text" = VStr <$> documents !! j
         /\ get_num r "score" = Some (vector_score raw (i + j)).
Proof.
  intros Hpos. revert i. induction documents as [|doc rest IH]; intros i; simpl.
  - exists []. split; [done|]. split; [done|]. intros j r.
    by rewrite lookup_nil.
  - assert (Hscore :
              match qr_distances raw !! i with
              | Some d => if Qeq_bool (1 + d) 0 then None else Some (1 / (1 + d))%Q
              | None => Some 0%Q
              end = Some (vector_score raw i)).
    { unfold vector_score.
      destruct (qr_distances raw !! i) as [d|] eqn:Hd; [|done].
      assert (0 <= d)%Q.
      { apply (proj1 (Forall_forall _ _) Hpos).
        by eapply list_elem_of_lookup_2. }
      destruct (Qeq_bool (1 + d) 0) eqn:Hz; [|done].
      apply Qeq_bool_iff in Hz. exfalso. lra. }
    rewrite Hscore. destruct (IH (S i)) as (rs & -> & Hlen & Hrs).
    eexists. split; [reflexivity|]. split; [simpl; by rewrite Hlen|].
    intros [|j] r; simpl.
    + intros [= <-]. split.
      * by do 3 (rewrite lookup_insert_ne by done); rewrite lookup_insert_eq.
      * unfold get_num. rewrite lookup_insert_ne, lookup_insert_eq by done.
        by rewrite Nat.add_0_r.
    + intros Hr. destruct (Hrs j r Hr) as [Ht Hs]. split; [done|].
      by rewrite Hs, Nat.add_succ_r.
Qed.

Lemma vector_score_range (raw : query_result) (i : nat) :
  Forall (fun d => (0 <= d)%Q) (qr_distances raw) ->
  (0 <= vector_score raw i <= 1)%Q
  /\ forall d, qr_distances raw !! i = Some d ->
               vector_score raw i = (1 / (1 + d))%Q
               /\ (0 < vector_score raw i)%Q.
Proof.
  intros Hpos. unfold vector_score.
  destruct (qr_distances raw !! i) as [d|] eqn:Hd.
  - assert (Hd0 : (0 <= d)%Q).
    { apply (proj1 (Forall_forall _ _) Hpos). by eapply list_elem_of_lookup_2. }
    assert (Hlt : (0 < 1 / (1 + d))%Q).
    { unfold Qdiv. rewrite Qmult_1_l. apply Qinv_lt_0_compat. lra. }
    split.
    + split; [lra|]. apply Qle_shift_div_r; lra.
    + by intros ? [= <-].
  - split; [lra | done].
Qed.

(** X19.  When the vector store returns non-negative distances,
    [vector_search] raises no error and returns one result per
    document, in the order of the store, with the document as text and
    the score [1 / (1 + distance)], which lies in (0, 1]; a document
    without a distance gets the score 0. *)
Theorem vector_search_scores (self : HybridRetriever) (query : string)
    (n_results : Z) :
  let raw := collection_query (encode query) n_results in
  Forall (fun d => (0 <= d)%Q) (qr_distances raw) ->
  exists results : list dict,
    vector_search self query n_results = Some results
    /\ length results = length (qr_documents raw)
    /\ forall (i : nat) (r : dict),
         results !! i = Some r ->
         r !! "text" = VStr <$> qr_documents raw !! i
         /\ exists s : Q,
              get_num r "score" = Some s
              /\ (0 <= s <= 1)%Q
              /\ (forall d, qr_distances raw !! i = Some d ->
                            s = (1 / (1 + d))%Q /\ (0 < s)%Q)
              /\ (qr_distances raw !! i = None -> s = 0%Q).
Proof.
  intros raw Hpos. unfold Retriever.vector_search. fold raw.
  destruct (vector_results_spec raw 0 (qr_documents raw) Hpos)
    as (results & Hres & Hlen & Hall).
  exists results. split; [done|]. split; [done|].
  intros i r Hr. destruct (Hall i r Hr) as [Ht Hs]. split; [done|].
  exists (vector_score raw i). split; [done|].
  destruct (vector_score_range raw i Hpos) as [Hrange Hd].
  split; [done|]. split; [done|].
  unfold vector_score. by intros ->.
Qed.

(** X20.  Among the results of [vector_search], a smaller distance
    gives a larger or equal score. *)
Theorem vector_search_closer_scores_higher (self : HybridRetriever)
    (query : string) (n_results : Z) (results : list dict) :
  let raw := collection_query (encode query) n_results in
  Forall (fun d => (0 <= d)%Q) (qr_distances raw) ->
  vector_search self query n_results = Some results ->
  forall (i j : nat) (ri rj : dict) (di dj : Q),
    results !! i = Some ri -> results !! j = Some rj ->
    qr_distances raw !! i = Some di -> qr_distances raw !! j = Some dj ->
    (di <= dj)%Q -> (score_of rj <= score_of ri)%Q.
Proof.
  intros raw Hpos. unfold Retriever.vector_search. fold raw.
  destruct (vector_results_spec raw 0 (qr_documents raw) Hpos)
    as (results' & -> & _ & Hall).
  intros [= <-] i j ri rj di dj Hi Hj Hdi Hdj Hle.
  destruct (Hall i ri Hi) as [_ Hsi]. destruct (Hall j rj Hj) as [_ Hsj].
  unfold score_of. rewrite Hsi, Hsj. simpl. unfold vector_score.
  rewrite Hdi, Hdj.
  assert (0 <= di)%Q.
  { apply (proj1 (Forall_forall _ _) Hpos). by eapply list_elem_of_lookup_2. }
  unfold Qdiv. rewrite !Qmult_1_l.
  apply Qle_shift_inv_l; [lra|].
  rewrite Qmult_comm. apply Qle_shift_div_r; [lra|]. lra.
Qed.

End SearchMore.

(** *** [rerank] *)

(** The candidate has a string under ["text"]. *)
Definition has_text (c : dict) : Prop :=
  exists t : string, c !! "text" = Some (VStr t).

(** [c'] is [c] with its score replaced. *)
Definition rescored (c c' : dict) : Prop :=
  exists s : Q, c' = <["score" := VNum s]> c.

Lemma make_pairs_total (query : string) (candidates : list dict) :
  Forall has_text candidates ->
  exists pairs : list (string * string),
    make_pairs query candidates = Some pairs
    /\ length pairs = length candidates.
Proof.
  induction 1 as [|c rest [t Ht] _ (pairs & IH & Hlen)]; simpl; [by exists []|].
  unfold get_str. rewrite Ht, IH. eexists. split; [reflexivity|]. simpl.
  by rewrite Hlen.
Qed.

Lemma make_pairs_length (query : string) (candidates : list dict)
    (pairs : list (string * string)) :
  make_pairs query candidates = Some pairs -> length pairs = length candidates.
Proof.
  revert pairs. induction candidates as [|c rest IH]; intros pairs; simpl.
  - by intros [= <-].
  - destruct (get_str c "text"); [|done].
    destruct (make_pairs query rest) as [ps|]; [|done].
    intros [= <-]. simpl. by rewrite (IH ps).
Qed.

Lemma set_scores_total (ce_scores : list Q) (i : nat) (candidates : list dict) :
  (i + length candidates <= length ce_scores)%nat ->
  exists scored : list dict,
    set_scores ce_scores i candidates = Some scored
    /\ Forall2 rescored candidates scored.
Proof.
  revert i. induction candidates as [|c rest IH]; intros i Hlen; simpl in *.
  - exists []. split; [done | constructor].
  - destruct (lookup_lt_is_Some_2 ce_scores i) as [s Hs]; [lia|]. rewrite Hs.
    destruct (IH (S i)) as (scored & -> & Hall); [lia|].
    eexists. split; [reflexivity|]. constructor; [by exists s | done].
Qed.

Lemma set_scores_short (ce_scores : list Q) (i : nat) (candidates : list dict) :
  candidates <> [] ->
  (length ce_scores < i + length candidates)%nat ->
  set_scores ce_scores i candidates = None.
Proof.
  revert i. induction candidates as [|c rest IH]; intros i Hne Hlen; [done|].
  simpl in *. destruct (ce_scores !! i) as [s|] eqn:Hs; [|done].
  apply lookup_lt_Some in Hs.
  rewrite IH; [done | | lia]. intros ->. simpl in Hlen. lia.
Qed.

Section RerankMore.

Variable predict : list (string * string) -> list Q.

Local Abbreviation rerank := (Retriever.rerank predict).

(** X21.  When every candidate has a text and the cross-encoder
    returns one score per pair, [rerank] raises no error: it returns
    candidates with their score replaced, ordered by the new score,
    descending; for [top_k >= 0] it returns [min(top_k, len(candidates))]
    of them, and all of them when [top_k] is at least their number. *)
Theorem rerank_returns (self : HybridRetriever) (query : string)
    (candidates : list dict) (top_k : Z) :
  Forall has_text candidates ->
  (forall pairs, length (predict pairs) = length pairs) ->
  exists scored reranked : list dict,
    rerank self query candidates top_k = Some reranked
    /\ Forall2 (fun c c' => exists s : Q, c' = <["score" := VNum s]> c)
         candidates scored
    /\ reranked ⊆+ scored
    /\ StronglySorted (ge_key score_of) reranked
    /\ (0 <= top_k ->
        length reranked = Nat.min (Z.to_nat top_k) (length candidates))
    /\ (Z.of_nat (length candidates) <= top_k -> reranked ≡ₚ scored).
Proof.
  intros Htext Hpredict. unfold Retriever.rerank.
  destruct candidates as [|c rest] eqn:Hc; simpl truthy; simpl negb; cbv iota.
  { exists [], []. split; [done|]. split; [constructor|]. split; [done|].
    split; [constructor|]. split; [simpl; lia | done]. }
  rewrite <- Hc in *. clear Hc c rest.
  destruct (make_pairs_total query candidates Htext) as (pairs & -> & Hlen).
  destruct (set_scores_total (predict pairs) 0 candidates)
    as (scored & -> & Hscored); [rewrite Hpredict; simpl; lia|].
  pose proof (Forall2_length _ _ _ Hscored) as Hlen'.
  exists scored, (take_upto top_k (sorted_desc score_of scored)).
  split; [done|]. split; [done|]. split; [|split; [|split]].
  - rewrite <- (sorted_desc_perm score_of scored) at 2.
    apply sublist_submseteq, take_upto_sublist.
  - apply StronglySorted_take_upto, sorted_desc_sorted.
  - intros Hk. rewrite length_take_upto by done.
    by rewrite (Permutation_length (sorted_desc_perm score_of scored)), Hlen'.
  - intros Hk. rewrite <- (sorted_desc_perm score_of scored) at 2.
    unfold take_upto. destruct (Z.leb_spec 0 top_k); [|lia].
    rewrite take_ge; [done|].
    rewrite (Permutation_length (sorted_desc_perm score_of scored)). lia.
Qed.

(** X22.  When the cross-encoder returns fewer scores than there are
    candidates, [rerank] fails (the [IndexError] of [ce_scores[i]]). *)
Theorem rerank_too_few_scores (self : HybridRetriever) (query : string)
    (candidates : list dict) (top_k : Z) :
  candidates <> [] ->
  (forall pairs, (length (predict pairs) < length candidates)%nat) ->
  rerank self query candidates top_k = None.
Proof.
  intros Hne Hshort. unfold Retriever.rerank.
  apply ChunkerProps.truthy_true in Hne as Ht. rewrite Ht. simpl negb. cbv iota.
  destruct (make_pairs query candidates) as [pairs|]; [|done].
  rewrite set_scores_short; [done | done |].
  specialize (Hshort pairs). simpl. lia.
Qed.

End RerankMore.

(** *** [reciprocal_rank_fusion] over any number of lists *)

Lemma fusion_inv_empty : fusion_inv ([], ∅).
Proof.
  split; [constructor|]. split.
  - intros id. simpl. rewrite lookup_empty. split.
    + intros Hin. by apply elem_of_nil in Hin.
    + by intros [? ?].
  - intros id r. simpl. by rewrite lookup_empty.
Qed.

Lemma fuse_lists_spec (k : Z) (results_list : list (list dict))
    (acc acc' : list (string * Q) * gmap string dict) :
  fusion_inv acc -> fuse_lists k results_list acc = Some acc' ->
  fusion_inv acc'
  /\ (forall id, id ∈ map fst acc'.1 <->
                 id ∈ map fst acc.1
                 \/ Some id ∈ map doc_key (concat results_list)).
Proof.
  revert acc. induction results_list as [|results rest IH]; intros acc Hinv;
    simpl.
  - intros [= <-]. split; [done|]. intros id. split; [by left|].
    intros [?|Hin]; [done|]. by apply elem_of_nil in Hin.
  - destruct (fuse_list k 1 results acc) as [acc1|] eqn:Hone; [|done].
    intros Hrest.
    destruct (fuse_list_spec _ _ _ _ _ Hinv Hone) as (Hinv1 & _ & Hin1).
    destruct (IH _ Hinv1 Hrest) as (Hinv' & Hin').
    split; [done|]. intros id. rewrite Hin', Hin1, map_app, elem_of_app. tauto.
Qed.

Lemma fuse_lists_total (k : Z) (results_list : list (list dict))
    (acc : list (string * Q) * gmap string dict) :
  0 <= k -> Forall (Forall (fun r => is_Some (doc_key r))) results_list ->
  is_Some (fuse_lists k results_list acc).
Proof.
  intros Hk Hall. revert acc.
  induction Hall as [|results rest Hres _ IH]; intros acc; simpl; [done|].
  destruct (fuse_list_total k 1 results acc) as [acc1 Hacc1]; [lia | done |].
  rewrite Hacc1. apply IH.
Qed.

Lemma merged_sorted (items : list (string * Q)) (merged : list dict) :
  Forall2
    (fun item entry =>
       doc_key entry = Some item.1 /\ get_num entry "score" = Some item.2)
    items merged ->
  StronglySorted (ge_key snd) items ->
  StronglySorted (ge_key score_of) merged.
Proof.
  intros Hentries. apply StronglySorted_Forall2.
  eapply Forall2_impl; [exact Hentries|].
  intros item entry [_ Hs]. unfold score_of. by rewrite Hs.
Qed.

Lemma merged_keys (items : list (string * Q)) (merged : list dict) :
  Forall2
    (fun item entry =>
       doc_key entry = Some item.1 /\ get_num entry "score" = Some item.2)
    items merged ->
  map doc_key merged = map Some (map fst items).
Proof.
  induction 1 as [|i e its es [Hk _] _ IH]; simpl; [done|].
  by rewrite Hk, IH.
Qed.

(** X23.  For every list of ranked lists and every [k >= 0],
    [reciprocal_rank_fusion] raises no error when every result has an
    id or a text; its output holds each id of the lists exactly once
    and is ordered by fused score, descending. *)
Theorem reciprocal_rank_fusion_returns (results_list : list (list dict))
    (k : Z) :
  0 <= k ->
  Forall (Forall (fun r => is_Some (doc_key r))) results_list ->
  exists merged : list dict,
    reciprocal_rank_fusion results_list k = Some merged
    /\ NoDup (map doc_key merged)
    /\ (forall id, Some id ∈ map doc_key merged
                   <-> Some id ∈ map doc_key (concat results_list))
    /\ StronglySorted (ge_key score_of) merged.
Proof.
  intros Hk Hall. unfold reciprocal_rank_fusion.
  destruct (fuse_lists_total k results_list ([], ∅) Hk Hall)
    as [[fs dm] Hfuse].
  rewrite Hfuse.
  destruct (fuse_lists_spec _ _ _ _ fusion_inv_empty Hfuse)
    as ((Hnodup & Hdom & Hkeys) & Hin).
  simpl in *.
  destruct (merge_entries_total dm (sorted_desc snd fs)) as [merged Hmerge].
  { intros id Hid. apply Hdom. by rewrite sorted_desc_perm in Hid. }
  exists merged. split; [done|].
  pose proof (merge_entries_spec _ _ _ Hkeys Hmerge) as Hentries.
  rewrite (merged_keys _ _ Hentries).
  split; [|split].
  - apply (NoDup_fmap_2 Some). by rewrite sorted_desc_perm.
  - intros id. rewrite (list_elem_of_fmap_inj Some), sorted_desc_perm, Hin.
    split; [intros [Hnil|?]; [by apply elem_of_nil in Hnil | done] | by right].
  - apply (merged_sorted _ _ Hentries), sorted_desc_sorted.
Qed.

(** The first result of a list that has the key [id]. *)
Definition first_with_key (id : string) (results : list dict) : option dict :=
  List.find (fun r => bool_decide (doc_key r = Some id)) results.

Lemma first_with_key_snoc (id : string) (seen : list dict) (r : dict) :
  first_with_key id (seen ++ [r])
  = match first_with_key id seen with
    | Some x => Some x
    | None => if bool_decide (doc_key r = Some id) then Some r else None
    end.
Proof.
  unfold first_with_key. induction seen as [|x seen IH]; simpl; [done|].
  by destruct (bool_decide (doc_key x = Some id)).
Qed.

(** [doc_map] holds, for every id, the first result seen with it. *)
Definition first_seen (seen : list dict) (doc_map : gmap string dict) : Prop :=
  forall id, doc_map !! id = first_with_key id seen.

Lemma fuse_list_first_seen (k rank : Z) (results seen : list dict)
    (acc acc' : list (string * Q) * gmap string dict) :
  first_seen seen acc.2 -> fuse_list k rank results acc = Some acc' ->
  first_seen (seen ++ results) acc'.2.
Proof.
  revert rank seen acc. induction results as [|r rest IH];
    intros rank seen acc Hseen; simpl.
  - intros [= <-]. by rewrite app_nil_r.
  - destruct (fuse_one k rank r acc) as [acc1|] eqn:Hone; [|done].
    intros Hrest. rewrite (cons_middle r seen rest), app_assoc.
    apply (IH (rank + 1) (seen ++ [r]) acc1); [|done].
    clear IH Hrest. unfold fuse_one in Hone. destruct acc as [fs dm].
    simpl in Hseen. destruct (doc_key r) as [doc_id|] eqn:Hkey; [|done].
    destruct (k + rank =? 0); [done|]. injection Hone as <-. simpl.
    intros id. rewrite first_with_key_snoc, <- Hseen.
    destruct (decide (doc_id = id)) as [->|Hne].
    + rewrite bool_decide_eq_true_2 by done.
      destruct (dm !! id) as [x|] eqn:Hx; [done|].
      by rewrite lookup_insert_eq.
    + rewrite bool_decide_eq_false_2 by congruence.
      destruct (dm !! doc_id); [by destruct (dm !! id)|].
      rewrite lookup_insert_ne by done. by destruct (dm !! id).
Qed.

Lemma fuse_lists_first_seen (k : Z) (results_list : list (list dict))
    (seen : list dict) (acc acc' : list (string * Q) * gmap string dict) :
  first_seen seen acc.2 -> fuse_lists k results_list acc = Some acc' ->
  first_seen (seen ++ concat results_list) acc'.2.
Proof.
  revert seen acc. induction results_list as [|results rest IH];
    intros seen acc Hseen; simpl.
  - intros [= <-]. by rewrite app_nil_r.
  - destruct (fuse_list k 1 results acc) as [acc1|] eqn:Hone; [|done].
    intros Hrest. rewrite app_assoc. apply (IH _ acc1); [|done].
    by eapply fuse_list_first_seen.
Qed.

Lemma merge_entries_lookup (doc_map : gmap string dict)
    (items : list (string * Q)) (merged : list dict) :
  merge_entries doc_map items = Some merged ->
  Forall2
    (fun item entry =>
       exists r, doc_map !! item.1 = Some r
                 /\ entry = <["score" := VNum item.2]> r)
    items merged.
Proof.
  revert merged. induction items as [|[id score] rest IH]; intros merged; simpl.
  - intros [= <-]. constructor.
  - destruct (doc_map !! id) as [r|] eqn:Hr; [|done].
    destruct (merge_entries doc_map rest) as [m|]; [|done].
    intros [= <-]. constructor; [|by apply IH]. by exists r.
Qed.

(** X24.  Every entry of the output of [reciprocal_rank_fusion] is the
    first result that carries its id, in the order of the lists (the
    first list before the second), with only its score replaced. *)
Theorem reciprocal_rank_fusion_first_seen (results_list : list (list dict))
    (k : Z) (merged : list dict) :
  reciprocal_rank_fusion results_list k = Some merged ->
  Forall
    (fun entry =>
       exists (id : string) (r : dict) (s : Q),
         first_with_key id (concat results_list) = Some r
         /\ doc_key r = Some id
         /\ entry = <["score" := VNum s]> r)
    merged.
Proof.
  unfold reciprocal_rank_fusion.
  destruct (fuse_lists k results_list ([], ∅)) as [[fs dm]|] eqn:Hfuse; [|done].
  intros Hmerge.
  pose proof (fuse_lists_first_seen k results_list [] ([], ∅) (fs, dm)) as Hseen.
  simpl in Hseen. specialize (Hseen ltac:(intros id; apply lookup_empty) Hfuse).
  apply merge_entries_lookup in Hmerge.
  apply Forall_forall. intros entry Hentry.
  apply list_elem_of_lookup in Hentry as [n Hn].
  destruct (Forall2_lookup_r _ _ _ _ _ Hmerge Hn)
    as ([id s] & _ & r & Hr & ->).
  simpl in *. exists id, r, s. rewrite <- Hseen. split; [done|]. split; [|done].
  rewrite Hseen in Hr. unfold first_with_key in Hr.
  apply find_some in Hr as [_ Hr]. by apply bool_decide_eq_true in Hr.
Qed.

(** *** [search] as a whole *)

(** A candidate as the two searches build it: a string under ["text"]
    and a string under ["id"]. *)
Definition candidate (r : dict) : Prop :=
  has_text r /\ exists id : string, r !! "id" = Some (VStr id).

Lemma candidate_doc_key (r : dict) : candidate r -> is_Some (doc_key r).
Proof.
  intros [[t Ht] [id Hid]]. unfold doc_key. rewrite Ht, Hid.
  by destruct id.
Qed.

Lemma has_text_score (d : dict) (s : Q) :
  has_text d -> has_text (<["score" := VNum s]> d).
Proof. intros [t Ht]. exists t. by rewrite lookup_insert_ne. Qed.

Lemma vector_results_candidates (raw : query_result) (i : nat)
    (documents : list string) (results : list dict) :
  vector_results raw i documents = Some results -> Forall candidate results.
Proof.
  revert i results. induction documents as [|doc rest IH]; intros i results;
    simpl.
  - intros [= <-]. constructor.
  - destruct (match qr_distances raw !! i with
              | Some d => if Qeq_bool (1 + d) 0 then None else Some (1 / (1 + d))%Q
              | None => Some 0%Q
              end) as [score|]; [|done].
    destruct (vector_results raw (S i) rest) as [rs|] eqn:Hrest; [|done].
    intros [= <-]. constructor; [|by eapply IH]. split.
    + exists doc.
      by do 3 (rewrite lookup_insert_ne by done); rewrite lookup_insert_eq.
    + eexists. by rewrite lookup_insert_eq.
Qed.

Lemma build_output_fields (retrieval_method : string) (normalized : list Q)
    (i : nat) (reranked output : list dict) :
  build_output retrieval_method normalized i reranked = Some output ->
  Forall2
    (fun result entry =>
       entry !! "text" = result !! "text"
       /\ entry !! "source" = Some (get result "source" (VStr "unknown"))
       /\ is_Some (get_num entry "distance")
       /\ dom entry
          = ({["text"; "source"; "distance"; "section"; "retrieval_method"]}
             : gset string))
    reranked output.
Proof.
  revert i output. induction reranked as [|r rest IH]; intros i output; simpl.
  - intros [= <-]. constructor.
  - destruct (r !! "text") as [t|] eqn:Ht; [|done].
    destruct (normalized !! i) as [n|]; [|done].
    destruct (build_output retrieval_method normalized (S i) rest)
      as [out|] eqn:Hout; [|done].
    intros [= <-]. constructor; [|by eapply IH].
    split; [by do 4 (rewrite lookup_insert_ne by done);
               rewrite lookup_insert_eq|].
    split; [by do 3 (rewrite lookup_insert_ne by done);
               rewrite lookup_insert_eq|].
    split.
    + unfold get_num. do 2 (rewrite lookup_insert_ne by done).
      by rewrite lookup_insert_eq.
    + rewrite !dom_insert_L, dom_empty_L. set_solver.
Qed.

Section SearchWhole.

Variable tokenize : string -> list string.
Variable get_scores : list (list string) -> list string -> list Q.
Variable encode : string -> list Q.
Variable collection_query : list Q -> Z -> query_result.
Variable predict : list (string * string) -> list Q.

Local Abbreviation bm25_search := (Retriever.bm25_search tokenize get_scores).
Local Abbreviation vector_search :=
  (Retriever.vector_search encode collection_query).
Local Abbreviation rerank := (Retriever.rerank predict).
Local Abbreviation search :=
  (Retriever.search tokenize get_scores encode collection_query predict).

Lemma bm25_search_candidates (self : HybridRetriever) (query : string)
    (n_results : Z) (results : list dict) :
  bm25_search self query n_results = Some results -> Forall candidate results.
Proof.
  intros Hres.
  destruct (bm25_search_hits _ _ _ _ _ _ Hres)
    as [->|(index & kept & _ & _ & Hhits)]; [constructor|].
  cbv zeta in Hhits. clear Hres.
  induction Hhits as [|idx r kept results Hhit _ IH];
    [by apply List.Forall_nil|].
  apply List.Forall_cons; [|done].
  destruct Hhit as (doc & _ & Ht & _ & Hid & _). split; [by exists doc | eauto].
Qed.

Lemma bm25_search_total (self : HybridRetriever) (query : string)
    (n_results : Z) :
  (forall index, bm25_index self = Some index ->
                 (length (get_scores index (tokenize query))
                  <= length (bm25_docs self))%nat) ->
  is_Some (bm25_search self query n_results).
Proof.
  intros Hlen. unfold Retriever.bm25_search.
  destruct (bm25_index self) as [index|]; [|done].
  destruct (truthy (bm25_docs self)); simpl negb; cbv iota; [|done].
  apply bm25_results_total, Forall_take_upto, Forall_sorted_desc, Forall_forall.
  intros i Hi. apply elem_of_seq in Hi. specialize (Hlen index eq_refl). lia.
Qed.

Lemma fuse_or_fall_back_total (bm25 vec : list dict) :
  Forall candidate bm25 -> Forall candidate vec ->
  is_Some (fuse_or_fall_back bm25 vec).
Proof.
  intros Hb Hv. unfold fuse_or_fall_back. destruct (truthy bm25); [|done].
  destruct (reciprocal_rank_fusion_total 60 bm25 vec) as [fused Hfused];
    [lia | | | by rewrite Hfused];
    (eapply List.Forall_impl; [|eassumption]); apply candidate_doc_key.
Qed.

Lemma rerank_total (self : HybridRetriever) (query : string)
    (candidates : list dict) (top_k : Z) :
  Forall has_text candidates ->
  (forall pairs, length (predict pairs) = length pairs) ->
  exists reranked : list dict,
    rerank self query candidates top_k = Some reranked
    /\ (0 <= top_k -> (length reranked <= Z.to_nat top_k)%nat).
Proof.
  intros Htext Hpredict. unfold Retriever.rerank.
  destruct (truthy candidates); simpl negb; cbv iota;
    [|exists []; split; [done | simpl; lia]].
  destruct (make_pairs_total query candidates Htext) as (pairs & -> & Hlen).
  destruct (set_scores_total (predict pairs) 0 candidates)
    as (scored & -> & _); [rewrite Hpredict; simpl; lia|].
  eexists. split; [reflexivity|]. intros Hk.
  rewrite length_take_upto by done. lia.
Qed.

(** X25.  [search] raises no error and, for [n_results >= 0], returns
    at most [n_results] results, when the BM25 scorer returns no more
    scores than there are indexed documents, the vector store returns
    non-negative distances and the cross-encoder returns one score per
    pair. *)
Theorem search_returns (self : HybridRetriever) (query : string)
    (n_results : Z) :
  (forall index, bm25_index self = Some index ->
                 (length (get_scores index (tokenize query))
                  <= length (bm25_docs self))%nat) ->
  Forall (fun d => (0 <= d)%Q)
    (qr_distances (collection_query (encode query) 20)) ->
  (forall pairs, length (predict pairs) = length pairs) ->
  exists output : list dict,
    search self query n_results = Some output
    /\ (0 <= n_results -> (length output <= Z.to_nat n_results)%nat).
Proof.
  intros Hscorer Hdist Hpredict. unfold Retriever.search.
  destruct (bm25_search_total self query 20 Hscorer) as [bm25 Hb].
  rewrite Hb.
  destruct (vector_results_spec (collection_query (encode query) 20) 0
              (qr_documents (collection_query (encode query) 20)) Hdist)
    as (vec & Hv & _).
  unfold Retriever.vector_search. rewrite Hv.
  pose proof (bm25_search_candidates _ _ _ _ Hb) as Hbc.
  pose proof (vector_results_candidates _ _ _ _ Hv) as Hvc.
  destruct (fuse_or_fall_back_total bm25 vec Hbc Hvc) as [[fused method] Hf].
  rewrite Hf.
  assert (Hfused : Forall has_text fused).
  { apply (fuse_or_fall_back_keeps has_text has_text_score bm25 vec fused
             method); [| |done];
      (eapply List.Forall_impl; [|eassumption]); by intros r [? _]. }
  destruct (rerank_total self query fused n_results Hfused Hpredict)
    as (reranked & Hr & Hlen).
  rewrite Hr.
  destruct (rerank_then_present predict self query fused n_results reranked
              method Hr) as [output Hp].
  exists output. split; [done|]. intros Hn.
  apply present_entries, Forall2_length in Hp. rewrite <- Hp. by apply Hlen.
Qed.

(** X26.  Every result of [search] has exactly the keys [text],
    [source], [distance], [section] and [retrieval_method]; its text
    and its source are those of a result of [bm25_search] or of
    [vector_search] (the source ["unknown"] when that result has none). *)
Theorem search_results_from_candidates (self : HybridRetriever)
    (query : string) (n_results : Z) (output : list dict) :
  search self query n_results = Some output ->
  exists bm25 vec : list dict,
    bm25_search self query 20 = Some bm25
    /\ vector_search self query 20 = Some vec
    /\ Forall
         (fun entry =>
            dom entry
            = ({["text"; "source"; "distance"; "section"; "retrieval_method"]}
               : gset string)
            /\ exists r : dict,
                 r ∈ bm25 ++ vec
                 /\ entry !! "text" = r !! "text"
                 /\ entry !! "source"
                    = Some (get r "source" (VStr "unknown")))
         output.
Proof.
  intros Hsearch.
  destruct (search_stages _ _ _ _ _ _ _ _ _ Hsearch)
    as (bm25 & vec & fused & reranked & method & Hb & Hv & Hf & Hr & Hp).
  exists bm25, vec. split; [done|]. split; [done|].
  set (P := fun d : dict =>
              exists r : dict,
                r ∈ bm25 ++ vec /\ d !! "text" = r !! "text"
                /\ d !! "source" = r !! "source").
  assert (HP : forall (d : dict) (s : Q), P d -> P (<["score" := VNum s]> d)).
  { intros d s (r & Hin & Ht & Hs). exists r. split; [done|].
    by rewrite !lookup_insert_ne. }
  assert (Hself : forall l, l ⊆ bm25 ++ vec -> Forall P l).
  { intros l Hl. apply Forall_forall. intros r Hin. exists r. split; [|done].
    by apply Hl. }
  pose proof (fuse_or_fall_back_keeps P HP bm25 vec fused method
                (Hself bm25 ltac:(set_solver)) (Hself vec ltac:(set_solver)) Hf)
    as Hfused.
  pose proof (rerank_keeps predict P HP _ _ _ _ _ Hfused Hr) as Hreranked.
  unfold present in Hp. destruct (raw_scores_of reranked); [|done].
  apply build_output_fields in Hp. clear -Hp Hreranked.
  induction Hp as [|r e rs es (Ht & Hs & _ & Hdom) _ IH];
    [by apply List.Forall_nil|].
  apply Forall_cons in Hreranked as [(r0 & Hin & Ht0 & Hs0) Hrs].
  apply List.Forall_cons; [|by apply IH].
  split; [done|]. exists r0. split; [done|]. split; [congruence|].
  rewrite Hs. unfold get. by rewrite Hs0.
Qed.

(** X27.  Whenever [search] returns results, the first one has the
    distance 0; the last one has the distance 1, unless every result
    has the distance 0. *)
Theorem search_best_distance_zero (self : HybridRetriever) (query : string)
    (n_results : Z) (output : list dict) :
  search self query n_results = Some output ->
  (forall first : dict,
      head output = Some first ->
      exists d : Q, distance_of first = Some d /\ d == 0)
  /\ ((forall last_entry : dict,
         last output = Some last_entry ->
         exists d : Q, distance_of last_entry = Some d /\ d == 1)
      \/ Forall (fun entry => exists d : Q, distance_of entry = Some d /\ d == 0)
           output).
Proof.
  intros Hsearch.
  destruct (search_stages _ _ _ _ _ _ _ _ _ Hsearch)
    as (bm25 & vec & fused & reranked & method & Hb & Hv & Hf & Hr & Hp).
  pose proof (rerank_sorted _ _ _ _ _ _ Hr) as Hsorted.
  unfold present in Hp.
  destruct (raw_scores_of reranked) as [raw|] eqn:Hraw; [|done].
  pose proof (raw_scores_of_spec _ _ Hraw) as Hraw_eq.
  pose proof (build_output_distances _ _ _ _ _ Hp) as Hdist.
  destruct (decide (raw = [])) as [->|Hraw_ne].
  { destruct reranked; [|done]. simpl in Hp. injection Hp as <-.
    split; [done|]. right. constructor. }
  destruct (normalize_spec raw Hraw_ne)
    as (mn & mx & Hmn & Hmx & Hbounds & Hnorm).
  assert (Hlen : length raw = length reranked)
    by (by rewrite Hraw_eq, length_map).
  rewrite drop_0, Hnorm, <- Hlen in Hdist.
  rewrite <- (length_map (min_max_scale mn mx) raw), firstn_all in Hdist.
  rewrite map_map in Hdist.
  assert (Hle : forall (i j : nat) (si sj : Q),
             (i <= j)%nat -> raw !! i = Some si -> raw !! j = Some sj ->
             (sj <= si)%Q).
  { intros i j si sj Hij Hi Hj.
    rewrite Hraw_eq, list_lookup_fmap in Hi, Hj.
    destruct (reranked !! i) as [ri|] eqn:Hri; [|done].
    destruct (reranked !! j) as [rj|] eqn:Hrj; [|done].
    injection Hi as <-. injection Hj as <-.
    apply (StronglySorted_lookup_le (ge_key score_of) reranked i j ri rj);
      try done.
    intros z. apply Qle_refl. }
  assert (Hget : forall (i : nat) (e : dict),
             output !! i = Some e ->
             exists s, raw !! i = Some s
                       /\ distance_of e
                          = Some (1 - min_max_scale mn mx s)%Q).
  { intros i e He.
    apply (f_equal (fun l => l !! i)) in Hdist.
    rewrite !list_lookup_fmap, He in Hdist. simpl in Hdist.
    destruct (raw !! i) as [s|]; [|done]. exists s. split; [done|].
    by injection Hdist as ->. }
  destruct (Qlt_le_dec mn mx) as [Hlt|Hge].
  - split.
    + intros first Hfirst. rewrite head_lookup in Hfirst.
      destruct (Hget 0%nat first Hfirst) as (s0 & Hs0 & Hd0).
      eexists. split; [exact Hd0|].
      apply list_elem_of_lookup in Hmx as [j Hj].
      pose proof (Hle 0%nat j s0 mx ltac:(lia) Hs0 Hj) as Hmax.
      pose proof (proj1 (Forall_forall _ _) Hbounds s0
                    ltac:(by eapply list_elem_of_lookup_2)) as [_ Hs0max].
      assert (Heq : s0 == mx) by lra.
      unfold min_max_scale. destruct (Qlt_le_dec mn mx) as [_|?]; [|lra].
      rewrite Heq. field. lra.
    + left. intros last_entry Hlast. rewrite last_lookup in Hlast.
      destruct (Hget _ last_entry Hlast) as (sl & Hsl & Hdl).
      eexists. split; [exact Hdl|].
      apply list_elem_of_lookup in Hmn as [j Hj].
      pose proof (lookup_lt_Some _ _ _ Hj) as Hjlt.
      assert (Hout : length output = length raw).
      { apply (f_equal length) in Hdist. by rewrite !length_map in Hdist. }
      pose proof (Hle j (Nat.pred (length output)) mn sl ltac:(lia) Hj Hsl)
        as Hmin.
      pose proof (proj1 (Forall_forall _ _) Hbounds sl
                    ltac:(by eapply list_elem_of_lookup_2)) as [Hslmin _].
      assert (Heq : sl == mn) by lra.
      unfold min_max_scale. destruct (Qlt_le_dec mn mx) as [_|?]; [|lra].
      rewrite Heq. field. lra.
  - assert (Hall : Forall (fun entry => exists d : Q,
                               distance_of entry = Some d /\ d == 0) output).
    { apply Forall_forall. intros e He.
      apply list_elem_of_lookup in He as [i Hi].
      destruct (Hget i e Hi) as (s & _ & Hd). eexists. split; [exact Hd|].
      unfold min_max_scale. destruct (Qlt_le_dec mn mx); [lra | ring]. }
    split; [|by right].
    intros first Hfirst. destruct output as [|e rest]; [done|].
    injection Hfirst as <-. by apply Forall_cons in Hall as [? _].
Qed.

End SearchWhole.

(** **** The properties on the stand-ins *)

(** The two searches over the stand-ins for the scorer, the embedder
    and the vector store. *)
Definition demo_bm25_search
  : HybridRetriever -> string -> Z -> option (list dict) :=
  Retriever.bm25_search demo_tokenize demo_get_scores.

Definition demo_vector_search
  : HybridRetriever -> string -> Z -> option (list dict) :=
  Retriever.vector_search demo_encode demo_collection_query.

Lemma bm25_search_ranked_witness :
  exists results : list dict,
    demo_bm25_search demo_retriever "attention" 5 = Some results
    /\ length results = 2%nat
    /\ StronglySorted (ge_key score_of) results.
Proof.
  assert (Hlen : length (default [] (demo_bm25_search demo_retriever
                                       "attention" 5)) = 2%nat)
    by reflexivity.
  destruct (demo_bm25_search demo_retriever "attention" 5) as [results|] eqn:H;
    [|discriminate Hlen].
  exists results. split; [reflexivity|]. split; [exact Hlen|].
  apply (bm25_search_ranked demo_tokenize demo_get_scores demo_retriever
           "attention" 5 results H).
Defined.

Lemma bm25_search_documents_witness :
  exists (results : list dict) (positions : list nat),
    demo_bm25_search demo_retriever "attention" 5 = Some results
    /\ length results = 2%nat /\ NoDup positions
    /\ length positions = length results.
Proof.
  assert (Hlen : length (default [] (demo_bm25_search demo_retriever
                                       "attention" 5)) = 2%nat)
    by reflexivity.
  destruct (demo_bm25_search demo_retriever "attention" 5) as [results|] eqn:H;
    [|discriminate Hlen].
  destruct (bm25_search_documents demo_tokenize demo_get_scores demo_retriever
              "attention" 5 results H) as (positions & Hnodup & Hall).
  exists results, positions. split; [reflexivity|]. split; [exact Hlen|].
  split; [exact Hnodup|]. by apply Forall2_length in Hall.
Defined.

Lemma bm25_search_after_build_witness :
  exists results : list dict,
    demo_bm25_search demo_retriever "attention" 5 = Some results.
Proof.
  apply (bm25_search_after_build demo_tokenize demo_get_scores demo_collection
           new_retriever "attention" 5).
  simpl. lia.
Defined.

Lemma vector_search_scores_witness :
  exists results : list dict,
    demo_vector_search demo_retriever "attention" 5 = Some results
    /\ length results = 2%nat.
Proof.
  destruct (vector_search_scores demo_encode demo_collection_query
              demo_retriever "attention" 5) as (results & Hres & Hlen & _).
  - repeat constructor; by vm_compute.
  - by exists results.
Defined.

Lemma vector_search_closer_scores_higher_witness :
  exists r0 r1 : dict,
    demo_vector_search demo_retriever "attention" 5 = Some [r0; r1]
    /\ (score_of r1 <= score_of r0)%Q.
Proof.
  assert (Hlen : length (default [] (demo_vector_search demo_retriever
                                       "attention" 5)) = 2%nat)
    by reflexivity.
  destruct (demo_vector_search demo_retriever "attention" 5)
    as [[|r0 [|r1 [|r2 rest]]]|] eqn:H; try discriminate Hlen.
  exists r0, r1. split; [reflexivity|].
  apply (vector_search_closer_scores_higher demo_encode demo_collection_query
           demo_retriever "attention" 5 [r0; r1]
           ltac:(repeat constructor; by vm_compute) H 0%nat 1%nat r0 r1
           (1 # 4)%Q (1 # 2)%Q); try reflexivity.
  by vm_compute.
Defined.

Lemma rerank_returns_witness :
  exists reranked : list dict,
    Retriever.rerank demo_predict demo_retriever "alpha"
      [doc_A; doc_B; doc_C] 2 = Some reranked
    /\ length reranked = 2%nat.
Proof.
  destruct (rerank_returns demo_predict demo_retriever "alpha"
              [doc_A; doc_B; doc_C] 2)
    as (scored & reranked & Hr & _ & _ & _ & Hlen & _).
  - repeat constructor; eexists; reflexivity.
  - intros pairs. apply length_map.
  - exists reranked. split; [done|]. apply Hlen. lia.
Defined.

Lemma rerank_too_few_scores_witness :
  Retriever.rerank (fun _ => []) demo_retriever "alpha" [doc_A; doc_B] 2 = None.
Proof.
  apply (rerank_too_few_scores (fun _ => []) demo_retriever "alpha"
           [doc_A; doc_B] 2).
  - done.
  - intros pairs. simpl. lia.
Defined.

Lemma reciprocal_rank_fusion_returns_witness :
  exists merged : list dict,
    reciprocal_rank_fusion [[doc_A; doc_B]; [doc_B; doc_C]; [doc_D]] 0
    = Some merged
    /\ NoDup (map doc_key merged).
Proof.
  destruct (reciprocal_rank_fusion_returns
              [[doc_A; doc_B]; [doc_B; doc_C]; [doc_D]] 0)
    as (merged & Hm & Hnodup & _).
  - lia.
  - repeat constructor; eexists; reflexivity.
  - by exists merged.
Defined.

(** A result for the id ["A"] with another text than [doc_A]. *)
Definition doc_A' : dict := ranked_doc "A" "alpha, second copy".

Lemma reciprocal_rank_fusion_first_seen_witness :
  exists merged : list dict,
    reciprocal_rank_fusion [[doc_A; doc_B]; [doc_A'; doc_C]] 60 = Some merged
    /\ length merged = 3%nat
    /\ Forall
         (fun entry =>
            exists (id : string) (r : dict) (s : Q),
              first_with_key id [doc_A; doc_B; doc_A'; doc_C] = Some r
              /\ doc_key r = Some id
              /\ entry = <["score" := VNum s]> r)
         merged.
Proof.
  assert (Hlen : length (default [] (reciprocal_rank_fusion
                                       [[doc_A; doc_B]; [doc_A'; doc_C]] 60))
                 = 3%nat) by reflexivity.
  destruct (reciprocal_rank_fusion [[doc_A; doc_B]; [doc_A'; doc_C]] 60)
    as [merged|] eqn:H; [|discriminate Hlen].
  exists merged. split; [reflexivity|]. split; [exact Hlen|].
  apply (reciprocal_rank_fusion_first_seen
           [[doc_A; doc_B]; [doc_A'; doc_C]] 60 merged H).
Defined.

Lemma search_returns_witness :
  exists output : list dict,
    demo_search demo_retriever "attention" 5 = Some output
    /\ (length output <= 5)%nat.
Proof.
  destruct (search_returns demo_tokenize demo_get_scores demo_encode
              demo_collection_query demo_predict demo_retriever "attention" 5)
    as (output & Hout & Hlen).
  - intros index [= <-]. simpl. lia.
  - repeat constructor; by vm_compute.
  - intros pairs. apply length_map.
  - exists output. split; [done|]. apply Hlen. lia.
Defined.

Lemma search_results_from_candidates_witness :
  exists output : list dict,
    demo_search demo_retriever "attention" 5 = Some output
    /\ length output = 2%nat
    /\ Forall
         (fun entry =>
            dom entry
            = ({["text"; "source"; "distance"; "section"; "retrieval_method"]}
               : gset string))
         output.
Proof.
  assert (Hlen : length (default [] (demo_search demo_retriever "attention" 5))
                 = 2%nat) by reflexivity.
  destruct (demo_search demo_retriever "attention" 5) as [output|] eqn:H;
    [|discriminate Hlen].
  exists output. split; [reflexivity|]. split; [exact Hlen|].
  destruct (search_results_from_candidates demo_tokenize demo_get_scores
              demo_encode demo_collection_query demo_predict demo_retriever
              "attention" 5 output H) as (bm25 & vec & _ & _ & Hall).
  eapply List.Forall_impl; [|exact Hall]. by intros entry [Hdom _].
Defined.

Lemma search_best_distance_zero_witness :
  exists (first : dict) (rest : list dict) (d : Q),
    demo_search demo_retriever "attention" 5 = Some (first :: rest)
    /\ distance_of first = Some d /\ d == 0.
Proof.
  assert (Hlen : length (default [] (demo_search demo_retriever "attention" 5))
                 = 2%nat) by reflexivity.
  destruct (demo_search demo_retriever "attention" 5) as [[|first rest]|] eqn:H;
    [discriminate Hlen | | discriminate Hlen].
  destruct (search_best_distance_zero demo_tokenize demo_get_scores
              demo_encode demo_collection_query demo_predict demo_retriever
              "attention" 5 (first :: rest) H) as [Hfirst _].
  destruct (Hfirst first eq_refl) as (d & Hd & H0).
  exists first, rest, d. split; [reflexivity|]. split; [exact Hd | exact H0].
Defined.

End RetrieverProps.

(** ** Properties of the stored ids *)

Module RagProps.
Import Chunker ChunkerProps Rag.

Lemma to_int_not_nil (n : Z) :
  Z.to_int n <> Decimal.Pos Decimal.Nil /\ Z.to_int n <> Decimal.Neg Decimal.Nil.
Proof.
  pose proof (DecimalZ.to_of (Z.to_int n)) as Hnorm.
  rewrite DecimalZ.of_to in Hnorm.
  split; intros Hnil; rewrite Hnil in Hnorm; discriminate Hnorm.
Qed.

Lemma py_str_inj (n m : Z) : py_str n = py_str m -> n = m.
Proof.
  unfold py_str. intros Heq. apply DecimalZ.to_int_inj.
  destruct (to_int_not_nil n) as [Hn1 Hn2].
  destruct (to_int_not_nil m) as [Hm1 Hm2].
  pose proof (DecimalString.NilZero.isi _ Hn1 Hn2) as Hn.
  pose proof (DecimalString.NilZero.isi _ Hm1 Hm2) as Hm.
  rewrite Heq in Hn. congruence.
Qed.

Lemma startswith_append (prefix rest : string) :
  startswith (prefix +:+ rest) prefix = true.
Proof.
  unfold startswith. induction prefix as [|c p IH]; [by destruct rest|].
  change (String.prefix (String c p) (String c (p +:+ rest)) = true).
  simpl. by destruct (ascii_dec c c).
Qed.

Lemma append_assoc (a b c : string) : (a +:+ b) +:+ c = a +:+ (b +:+ c).
Proof.
  induction a as [|x a IH]; [done|].
  change (String x ((a +:+ b) +:+ c) = String x (a +:+ b +:+ c)).
  by rewrite IH.
Qed.

Lemma chunk_doc_id_inj (stem : string) (c c' : Chunk) :
  chunk_doc_id stem c = chunk_doc_id stem c' -> chunk_id c = chunk_id c'.
Proof.
  unfold chunk_doc_id.
  intros H. by apply String.app_inj, String.app_inj, py_str_inj in H.
Qed.

Lemma NoDup_id_range (start : Z) (n : nat) : NoDup (id_range start n).
Proof.
  unfold id_range. apply NoDup_fmap_2; [|apply NoDup_seq].
  intros a b. lia.
Qed.

(** X28.  The ids under which [index_single_paper] and [index_papers]
    store the chunks of one paper are pairwise distinct, whenever
    [chunk_paper] returns. *)
Theorem chunk_doc_ids_distinct
    (finditer : string -> string -> list (nat * nat))
    (self : SectionChunker) (fuel : nat) (text source stem : string)
    (chunks : list Chunk) :
  chunk_paper finditer self fuel text source = Done chunks ->
  NoDup (chunk_doc_ids stem chunks).
Proof.
  unfold chunk_paper. intros Hrun.
  pose proof (chunk_sections_ids self fuel source
                (detect_sections finditer text) [] 0 chunks eq_refl eq_refl
                Hrun) as Hids.
  assert (Hnodup : NoDup (map chunk_id chunks))
    by (rewrite Hids; apply NoDup_id_range).
  unfold chunk_doc_ids. clear -Hnodup.
  induction chunks as [|c chunks IH]; simpl in *; [constructor|].
  apply NoDup_cons in Hnodup as [Hc Hrest]. apply NoDup_cons.
  split; [|by apply IH]. intros Hin.
  apply list_elem_of_fmap in Hin as (c' & Heq & Hc').
  apply Hc. apply list_elem_of_fmap. exists c'.
  split; [by apply (chunk_doc_id_inj stem) | done].
Qed.

Lemma chunk_doc_ids_distinct_witness :
  exists chunks : list Chunk,
    chunk_paper two_section_finditer overlapping_chunker 20 two_section_paper
      "paper.pdf" = Done chunks
    /\ chunk_doc_ids "paper" chunks
       = ["paper_chunk_0"; "paper_chunk_1"; "paper_chunk_2"]
    /\ NoDup (chunk_doc_ids "paper" chunks).
Proof.
  eexists. split; [by vm_compute|]. split; [by vm_compute|].
  apply (chunk_doc_ids_distinct two_section_finditer overlapping_chunker 20
           two_section_paper "paper.pdf" "paper").
  by vm_compute.
Defined.

(** X29.  [delete_paper] selects every id that the indexing generated
    for the same file stem, wherever those ids sit in the collection. *)
Theorem matching_ids_of_indexed (stem : string) (chunks : list Chunk)
    (before after : list string) :
  matching_ids stem (before ++ chunk_doc_ids stem chunks ++ after)
  = matching_ids stem before ++ chunk_doc_ids stem chunks
    ++ matching_ids stem after.
Proof.
  unfold matching_ids. cbv zeta. rewrite !List.filter_app. do 2 f_equal.
  unfold chunk_doc_ids. induction chunks as [|c chunks IH]; simpl; [done|].
  unfold chunk_doc_id at 1.
  rewrite <- (append_assoc stem "_chunk_" (py_str (chunk_id c))).
  rewrite startswith_append. by rewrite IH.
Qed.

End RagProps.
